(** * yaytb: download orchestration core

    A shallow embedding of the Telegram download bot (queue.js,
    session-store.js, downloader.js and the bot's handlers) and the
    verification of its specification.

    Part I embeds the program, module by module, following the source.
    Part II states and proves the properties. *)

From Stdlib Require Import ZArith QArith Qfield Qround String Ascii List Bool Lia
  Sorted Permutation.
From Stdlib Require SpecFloat.
From stdpp Require Import base option list gmap strings fin_maps pretty.

Local Open Scope string_scope.
Local Open Scope Z_scope.
Local Open Scope list_scope.

(* ===================================================================== *)
(** * Part I: the program                                                 *)
(* ===================================================================== *)

(** ** The JavaScript library functions the program calls

    A string stands for the sequence of its UTF-16 code units, for a
    text of ASCII characters, whose code units are below 128: there the
    units are the characters, and the classes [\s], [\d], [\w], the
    white space of [trim] and the case mapping are those defined here.
    A text with other characters is outside the model (the source also
    takes U+00A0, U+2028, U+3000 and more for white space, and counts
    two units for a character beyond U+FFFF).  The properties of texts
    that come from outside, a title, a listing or a message, are stated
    for ASCII texts ([ascii_text] below). *)
Module JS.

Definition code (c : ascii) : N := N_of_ascii c.

Definition chr (n : N) : ascii := ascii_of_N n.

Definition is_digit (c : ascii) : bool := ((48 <=? code c) && (code c <=? 57))%N.

Definition is_upper (c : ascii) : bool := ((65 <=? code c) && (code c <=? 90))%N.

Definition is_lower (c : ascii) : bool := ((97 <=? code c) && (code c <=? 122))%N.

(** [\w] *)
Definition is_word (c : ascii) : bool :=
  is_digit c || is_upper c || is_lower c || (code c =? 95)%N.

(** [\s]: tab, line feed, vertical tab, form feed, carriage return, space *)
Definition is_space (c : ascii) : bool :=
  ((9 <=? code c) && (code c <=? 13) || (code c =? 32))%N.

Definition lower_char (c : ascii) : ascii :=
  if is_upper c then chr (code c + 32) else c.

Definition upper_char (c : ascii) : ascii :=
  if is_lower c then chr (code c - 32) else c.

Definition chars (s : string) : list ascii := list_ascii_of_string s.

Definition str (l : list ascii) : string := string_of_list_ascii l.

(** [s.toLowerCase()], [s.toUpperCase()] *)
Definition toLowerCase (s : string) : string := str (map lower_char (chars s)).

Definition toUpperCase (s : string) : string := str (map upper_char (chars s)).

(** [s.startsWith(p)] *)
Fixpoint startsWith (s p : string) : bool :=
  match p, s with
  | EmptyString, _ => true
  | String b p', String a s' => Ascii.eqb a b && startsWith s' p'
  | String _ _, EmptyString => false
  end.

(** [s.includes(p)] *)
Fixpoint includes (s p : string) : bool :=
  startsWith s p ||
  match s with
  | EmptyString => false
  | String _ s' => includes s' p
  end.

(** [s.endsWith(p)] *)
Definition endsWith (s p : string) : bool :=
  startsWith (str (rev (chars s))) (str (rev (chars p))).

Fixpoint drop_spaces (l : list ascii) : list ascii :=
  match l with
  | c :: l' => if is_space c then drop_spaces l' else l
  | [] => []
  end.

(** [s.trimStart()], [s.trimEnd()], [s.trim()] *)
Definition trimStart (s : string) : string := str (drop_spaces (chars s)).

Definition trimEnd (s : string) : string := str (rev (drop_spaces (rev (chars s)))).

Definition trim (s : string) : string := trimStart (trimEnd s).

(** A string is falsy exactly when it is empty. *)
Definition truthy (s : string) : bool :=
  match s with EmptyString => false | String _ _ => true end.

(** A string as the left operand of [||] *)
Definition nonempty (s : string) : option string :=
  if truthy s then Some s else None.

(** [s.split(sep)] for a separator of one character *)
Fixpoint split_char (sep : ascii) (s : string) : list string :=
  match s with
  | EmptyString => [EmptyString]
  | String c s' =>
    if Ascii.eqb c sep then EmptyString :: split_char sep s'
    else match split_char sep s' with
         | piece :: pieces => String c piece :: pieces
         | [] => [String c EmptyString]
         end
  end.

(** [l.join(sep)] *)
Fixpoint join (sep : string) (l : list string) : string :=
  match l with
  | [] => EmptyString
  | [x] => x
  | x :: l' => x +:+ sep +:+ join sep l'
  end.

(** [s.slice(0, n)]: the first [n] code units *)
Definition slice0 (n : nat) (s : string) : string := str (firstn n (chars s)).

(** The value of a string of decimal digits ([Number.parseInt(s, 10)] on
    such a string). *)
Definition digits_value (l : list ascii) : Z :=
  fold_left (fun acc c => 10 * acc + Z.of_N (code c - 48)) l 0.

Definition parseInt (s : string) : Z := digits_value (chars s).

(** [String(n)] for an integer *)
Definition string_of_Z (n : Z) : string := pretty n.

(** *** Regular expressions

    A backtracking matcher in continuation-passing style, with the
    constructs the program's patterns use: classes, sequence,
    alternation (left first), greedy bounded and unbounded repetition,
    capturing groups, and the assertions [^], [$] and [\b].  The text
    already passed is carried, reversed, for the assertions. *)
Inductive re :=
| Eps
| Chr (p : ascii -> bool)
| Seq (a b : re)
| Alt (a b : re)
| Rep (lo : nat) (hi : option nat) (a : re)
| Grp (n : nat) (a : re)
| Bol
| Eol
| Wb.

Definition caps := list (nat * string).

Definition at_word_boundary (before rest : list ascii) : bool :=
  xorb (match before with c :: _ => is_word c | [] => false end)
       (match rest with c :: _ => is_word c | [] => false end).

Section Matcher.
Variable R : Type.

Definition cont := list ascii -> list ascii -> caps -> option R.

Fixpoint run (r : re) (before rest : list ascii) (cs : caps) (k : cont) : option R :=
  match r with
  | Eps => k before rest cs
  | Chr p =>
    match rest with
    | c :: rest' => if p c then k (c :: before) rest' cs else None
    | [] => None
    end
  | Seq a b => run a before rest cs (fun before' rest' cs' => run b before' rest' cs' k)
  | Alt a b =>
    match run a before rest cs k with
    | Some x => Some x
    | None => run b before rest cs k
    end
  | Rep lo hi a =>
    (fix loop (fuel n : nat) (before rest : list ascii) (cs : caps) {struct fuel} : option R :=
       let stop := if (lo <=? n)%nat then k before rest cs else None in
       let more := match hi with Some h => (n <? h)%nat | None => true end in
       match fuel with
       | O => stop
       | S fuel' =>
         if more then
           match run a before rest cs
                   (fun before' rest' cs' =>
                      if (length rest' <? length rest)%nat
                      then loop fuel' (S n) before' rest' cs'
                      else None) with
           | Some x => Some x
           | None => stop
           end
         else stop
       end) (S (length rest)) O before rest cs
  | Grp i a =>
    run a before rest cs
      (fun before' rest' cs' =>
         k before' rest' ((i, str (firstn (length rest - length rest') rest)) :: cs'))
  | Bol => match before with [] => k before rest cs | _ :: _ => None end
  | Eol => match rest with [] => k before rest cs | _ :: _ => None end
  | Wb => if at_word_boundary before rest then k before rest cs else None
  end.

End Matcher.

Arguments run {R}.

(** A match found: the text before it (reversed), the text after it,
    and the groups. *)
Record found := { f_before : list ascii; f_after : list ascii; f_caps : caps }.

(** A match starting exactly at the current position *)
Definition match_here (r : re) (before rest : list ascii) : option found :=
  run r before rest []
    (fun before' rest' cs => Some {| f_before := before'; f_after := rest'; f_caps := cs |}).

(** The leftmost match *)
Fixpoint search (r : re) (before rest : list ascii) : option found :=
  match match_here r before rest with
  | Some f => Some f
  | None =>
    match rest with
    | [] => None
    | c :: rest' => search r (c :: before) rest'
    end
  end.

(** [re.test(s)] *)
Definition test (r : re) (s : string) : bool :=
  match search r [] (chars s) with Some _ => true | None => false end.

Fixpoint cap (i : nat) (cs : caps) : option string :=
  match cs with
  | [] => None
  | (j, s) :: cs' => if (i =? j)%nat then Some s else cap i cs'
  end.

(** [s.match(re)]: the groups of the leftmost match, if any *)
Definition exec (r : re) (s : string) : option caps :=
  f_caps <$> search r [] (chars s).

Definition group (i : nat) (cs : caps) : string := default EmptyString (cap i cs).

(** [s.split(re)], for a pattern that matches no empty string *)
Fixpoint split_go (fuel : nat) (r : re) (before cur rest : list ascii) : list string :=
  match fuel with
  | O => [str (rev cur ++ rest)]
  | S fuel' =>
    match rest with
    | [] => [str (rev cur)]
    | c :: rest' =>
      match match_here r before rest with
      | Some f =>
        if (length (f_after f) <? length rest)%nat
        then str (rev cur) :: split_go fuel' r (f_before f) [] (f_after f)
        else split_go fuel' r (c :: before) (c :: cur) rest'
      | None => split_go fuel' r (c :: before) (c :: cur) rest'
      end
    end
  end.

Definition split (r : re) (s : string) : list string :=
  split_go (S (String.length s)) r [] [] (chars s).

(** [s.replace(re, by)] with the [g] flag, for a pattern that matches no
    empty string *)
Fixpoint replace_go (fuel : nat) (r : re) (by_ : list ascii) (before rest : list ascii) : list ascii :=
  match fuel with
  | O => rest
  | S fuel' =>
    match rest with
    | [] => []
    | c :: rest' =>
      match match_here r before rest with
      | Some f =>
        if (length (f_after f) <? length rest)%nat
        then by_ ++ replace_go fuel' r by_ (f_before f) (f_after f)
        else c :: replace_go fuel' r by_ (c :: before) rest'
      | None => c :: replace_go fuel' r by_ (c :: before) rest'
      end
    end
  end.

Definition replaceAll (r : re) (by_ : string) (s : string) : string :=
  str (replace_go (S (String.length s)) r (chars by_) [] (chars s)).

(** Pattern building blocks *)
Definition lit1 (c : ascii) : re := Chr (Ascii.eqb c).

(** a literal letter under the [i] flag *)
Definition lit1_ci (c : ascii) : re := Chr (fun x => Ascii.eqb (lower_char x) (lower_char c)).

Definition lit (s : string) : re := fold_right (fun c r => Seq (lit1 c) r) Eps (chars s).

Definition lit_ci (s : string) : re := fold_right (fun c r => Seq (lit1_ci c) r) Eps (chars s).

Definition digit : re := Chr is_digit.

Definition space : re := Chr is_space.

Definition opt (a : re) : re := Rep 0 (Some 1%nat) a.

Definition star (a : re) : re := Rep 0 None a.

Definition plus (a : re) : re := Rep 1 None a.

Definition one_of (s : string) : re := Chr (fun x => existsb (Ascii.eqb x) (chars s)).

(** [Math.round(x)]: the nearest integer, halves upwards *)
Definition round (x : Q) : Z := Qfloor (x + (1 # 2)).

Definition zeros (n : nat) : string := str (repeat "0"%char n).

(** [x.toFixed(d)] for [0 <= x < 10^21]: the integer [n] nearest to
    [x * 10^d], the larger one of two, written with [d] decimals. *)
Definition toFixed_nonneg (d : nat) (x : Q) : string :=
  let n := Qfloor (x * inject_Z (10 ^ Z.of_nat d) + (1 # 2)) in
  let whole := string_of_Z (n / 10 ^ Z.of_nat d) in
  let frac := string_of_Z (n mod 10 ^ Z.of_nat d) in
  match d with
  | O => whole
  | S _ => whole +:+ "." +:+ zeros (d - String.length frac) +:+ frac
  end.

Definition toFixed (d : nat) (x : Q) : string :=
  if Qle_bool 0 x then toFixed_nonneg d x else "-" +:+ toFixed_nonneg d (- x).

End JS.

(** ** downloader.js

    Numbers: byte counts are integers ([Z]); the bitrates and the
    duration of the metadata are JSON numbers with fractions and are
    rationals ([Q]).  A division by 1024 and a comparison are exact on
    the doubles of the source, so [formatBytes] is exact on [Q] for the
    byte counts a double holds exactly. *)
Module Downloader.
Import JS.

Definition units : list string := ["B"; "KB"; "MB"; "GB"; "TB"].

(** The loop of [formatBytes]:
    [while (value >= 1024 && index < units.length - 1)], with
    [room = units.length - 1 - index]. *)
Fixpoint scale (room : nat) (value : Q) (index : nat) : Q * nat :=
  match room with
  | O => (value, index)
  | S room' =>
    if Qle_bool 1024 value then scale room' (value / 1024) (S index)
    else (value, index)
  end.

(** The number of decimals [formatBytes] asks of [toFixed]:
    [value >= 10 || index === 0 ? 0 : 1] *)
Definition decimals (value : Q) (index : nat) : nat :=
  if Qle_bool 10 value || (index =? 0)%nat then 0%nat else 1%nat.

(** [formatBytes(bytes)]; [None] is JavaScript's [null], as an argument
    and as a result. *)
Definition formatBytes (bytes : option Z) : option string :=
  match bytes with
  | None => None
  | Some 0 => None
  | Some b =>
    let '(value, index) := scale (length units - 1) (inject_Z b) 0 in
    Some (toFixed (decimals value index) value +:+ default "" (units !! index))
  end.

(** *** Data

    [Meta] is an element of the metadata's [formats] array, [Entry] a row
    of the textual listing as [parseFormatList] returns it, [Format] an
    element of [listFormats]'s [formats], and [Candidate] an element of
    the selector's result: a format with the three fields the selector
    adds. *)
Inductive Kind := audio | video.

Definition kind_eqb (a b : Kind) : bool :=
  match a, b with
  | audio, audio | video, video => true
  | _, _ => false
  end.

Definition kind_name (k : Kind) : string :=
  match k with audio => "audio" | video => "video" end.

Record Meta := {
  format_id : option string;
  filesize : option Z;
  filesize_approx : option Z;
  abr : option Q;
  tbr : option Q;
  height : option Z
}.

Record Entry := {
  e_id : string;
  e_extension : string;
  e_resolution : string;
  e_note : string;
  e_raw : string
}.

Record Format := {
  fmt_id : string;
  extension : string;
  resolution : string;
  note : string;
  approxSize : option Z;
  type : Kind;
  raw : string;
  meta : option Meta
}.

Record Candidate := {
  format : Format;
  estimatedSizeBytes : option Z;
  displayLabel : string;
  targetFileName : string
}.

(** A number or [null] used as a condition, or as the left operand of
    [||]: zero and [null] are falsy. *)
Definition truthyZ (o : option Z) : option Z :=
  match o with
  | Some 0 => None
  | _ => o
  end.

Definition truthyQ (o : option Q) : option Q :=
  match o with
  | Some q => if Qeq_bool q 0 then None else Some q
  | None => None
  end.

(** [a || b] on values that are present or falsy *)
Definition or_else {A} (a b : option A) : option A :=
  match a with
  | Some _ => a
  | None => b
  end.

(** *** [parseFormatList] *)

Definition CR : ascii := chr 13.

Definition LF : ascii := chr 10.

(** [/\r?\n/] *)
Definition re_newline : re := Seq (opt (lit1 CR)) (lit1 LF).

(** [/^[-=]+$/] *)
Definition re_rule : re := Seq Bol (Seq (plus (one_of "-=")) Eol).

(** [/^(id|format)\b/i] *)
Definition re_header : re := Seq Bol (Seq (Grp 1 (Alt (lit_ci "id") (lit_ci "format"))) Wb).

(** [/\s+/] *)
Definition re_spaces : re := plus space.

(** [/(pass)/i] *)
Definition re_pass : re := Grp 1 (lit_ci "pass").

(** The body of the loop of [parseFormatList]: [None] where the source
    says [continue]. *)
Definition parseLine (line : string) : option Entry :=
  if negb (truthy line) || negb (truthy (trim line)) then None else
  let trimmed := trimEnd line in
  if test re_rule trimmed || test re_header trimmed then None else
  match map trim (split_char "|" trimmed) with
  | [] => None
  | left_ :: segments =>
    if negb (truthy left_) then None else
    match List.filter truthy (split re_spaces left_) with
    | formatId :: extension :: parts =>
      if negb (truthy formatId) || test re_pass trimmed then None else
      Some {| e_id := formatId;
              e_extension := extension;
              e_resolution := trim (join " " parts);
              e_note := join " | " (List.filter truthy segments);
              e_raw := trimmed |}
    | _ => None
    end
  end.

Definition parseFormatList (output : string) : list Entry :=
  omap parseLine (split re_newline output).

(** *** [classifyFormat] *)
Definition classifyFormat (entry : Entry) : Kind :=
  let resolution := toLowerCase (e_resolution entry) in
  let note := toLowerCase (e_note entry) in
  let id := toLowerCase (e_id entry) in
  if includes resolution "audio only" || includes note "audio only" || includes id "aud"
  then audio else video.

(** *** [parseSizeFromNote]

    [/(~?)(\d+(?:\.\d+)?)\s*(KiB|MiB|GiB|KB|MB|GB)/i].  The numbers of
    the source are doubles: [Number.parseFloat] yields the double
    nearest to the decimal, and the product [value * base ** power] is
    rounded to a double again before [Math.round].  The doubles and
    their rounding to nearest, ties to even, are those of the Standard
    Library's [SpecFloat], with 53 bits and the exponent bound 1024. *)
Definition re_size : re :=
  Seq (Grp 1 (opt (lit1 "~")))
 (Seq (Grp 2 (Seq (plus digit) (opt (Seq (lit1 ".") (plus digit)))))
 (Seq (star space)
      (Grp 3 (Alt (lit_ci "KiB") (Alt (lit_ci "MiB") (Alt (lit_ci "GiB")
             (Alt (lit_ci "KB") (Alt (lit_ci "MB") (lit_ci "GB"))))))))).

(** The double nearest to [n / d], for [n >= 0] and [d > 0] *)
Definition double_of_ratio (n d : Z) : SpecFloat.spec_float :=
  match n with
  | Z0 => SpecFloat.S754_zero false
  | _ =>
    let '(q, e, l) := SpecFloat.SFdiv_core_binary 53 1024 n 0 d 0 in
    SpecFloat.binary_round_aux 53 1024 false q e l
  end.

(** [Number.parseFloat] on digits with an optional fraction *)
Definition parseFloat (s : string) : SpecFloat.spec_float :=
  match split_char "." s with
  | [whole] => double_of_ratio (parseInt whole) 1
  | whole :: frac :: _ =>
    let scale := 10 ^ Z.of_nat (String.length frac) in
    double_of_ratio (parseInt whole * scale + parseInt frac) scale
  | [] => SpecFloat.S754_zero false
  end.

(** [x * n] on doubles, for a whole number [n > 0] that is a double *)
Definition double_times (x : SpecFloat.spec_float) (n : Z) : SpecFloat.spec_float :=
  SpecFloat.SFmul 53 1024 x (SpecFloat.S754_finite false (Z.to_pos n) 0).

(** [Math.round(x)] for a double that is not negative.  [Infinity],
    which the source returns for a number beyond the doubles (one of
    more than 308 digits), has no place among the sizes of the model
    and is left out. *)
Definition Math_round (x : SpecFloat.spec_float) : option Z :=
  match x with
  | SpecFloat.S754_zero _ => Some 0
  | SpecFloat.S754_finite false m e => Some (round (inject_Z (Zpos m) * 2 ^ e)%Q)
  | _ => None
  end.

Definition parseSizeFromNote (note : string) : option Z :=
  match exec re_size note with
  | None => None
  | Some sizeMatch =>
    let value := parseFloat (group 2 sizeMatch) in
    let unit := toUpperCase (group 3 sizeMatch) in
    let base := if includes unit "I" then 1024 else 1000 in
    let power := if startsWith unit "K" then 1 else if startsWith unit "M" then 2 else 3 in
    Math_round (double_times value (base ^ power))
  end.

(** *** [computeApproxSize]

    [formatMap] is the [Map] from format ids to metadata that
    [listFormats] builds. *)
Definition sizeCandidate (info : Meta) : option Z :=
  truthyZ (match filesize info with Some n => Some n | None => filesize_approx info end).

Definition computeApproxSize (id note : string) (formatMap : gmap string Meta) : option Z :=
  let parts := split_char "+" id in
  let '(total, hasSize) :=
    foldl (fun '(total, hasSize) part =>
             match formatMap !! part ≫= sizeCandidate with
             | Some size_ => (total + size_, true)
             | None => (total, hasSize)
             end) (0, false) parts in
  if hasSize then Some total else parseSizeFromNote note.

(** *** [fetchInfo] and [listFormats]

    The two runs of yt-dlp are the environment's: each is given by its
    outcome, the standard output or a failure.  [JSON.parse] is a
    parameter; it yields the document, or nothing on a syntax error.
    Of a document that is an object, the fields the program reads have
    the types yt-dlp gives them; a document that is [null] is
    [JsonNull], and one that is neither has none of the fields. *)
Inductive Result (A : Type) :=
| Ok (a : A)
| Failed (message : string).

Arguments Ok {A}.
Arguments Failed {A}.

Record Info := {
  title : option string;
  webpage_url : option string;
  duration : option Q;
  formats : option (list Meta)
}.

Inductive Json :=
| JsonNull
| JsonValue (info : Info).

Record ProbeResult := {
  p_title : option string;
  p_webpageUrl : option string;
  p_durationSeconds : option Q;
  p_formats : list Format
}.

Section Probe.
Variable JSON_parse : string -> option Json.

Definition fetchInfo (run : Result string) : Result Json :=
  match run with
  | Failed e => Failed e
  | Ok stdout =>
    match List.filter truthy (map trim (split re_newline stdout)) with
    | [] => Failed "Unable to parse yt-dlp metadata output"
    | line :: _ =>
      match JSON_parse line with
      | None => Failed "SyntaxError"
      | Some doc => Ok doc
      end
    end
  end.

Definition buildFormatMap (metas : list Meta) : gmap string Meta :=
  foldl (fun formatMap m =>
           match format_id m with
           | Some id => if truthy id then <[id := m]> formatMap else formatMap
           | None => formatMap
           end) ∅ metas.

Definition toFormat (formatMap : gmap string Meta) (entry : Entry) : Format :=
  {| fmt_id := e_id entry;
     extension := e_extension entry;
     resolution := e_resolution entry;
     note := e_note entry;
     approxSize := computeApproxSize (e_id entry) (e_note entry) formatMap;
     type := classifyFormat entry;
     raw := e_raw entry;
     meta := formatMap !! e_id entry |}.

(** [listFormats(url)], given the outcomes of [runYtDlp(listArgs)] and
    of the run inside [fetchInfo(url)] *)
Definition listFormats (listRun jsonRun : Result string) : Result ProbeResult :=
  match listRun, fetchInfo jsonRun with
  | Failed e, _ => Failed e
  | Ok _, Failed e => Failed e
  | Ok listOutput, Ok JsonNull => Failed "TypeError"
  | Ok listOutput, Ok (JsonValue info) =>
    let parsed := parseFormatList listOutput in
    let formatMap := buildFormatMap (default [] (formats info)) in
    Ok {| p_title := title info;
          p_webpageUrl := webpage_url info;
          p_durationSeconds := truthyQ (duration info);
          p_formats := map (toFormat formatMap) parsed |}
  end.

End Probe.

(** *** The helpers of the selector *)

(** [/(\d{3,4})[pP]/] and [/\b(\d{3,4})x(\d{3,4})\b/] *)
Definition re_height_p : re := Seq (Grp 1 (Rep 3 (Some 4%nat) digit)) (one_of "pP").

Definition re_height_x : re :=
  Seq Wb (Seq (Grp 1 (Rep 3 (Some 4%nat) digit))
         (Seq (lit1 "x") (Seq (Grp 2 (Rep 3 (Some 4%nat) digit)) Wb))).

Definition parseResolutionHeight (value : string) : Z :=
  match exec re_height_p value with
  | Some m => parseInt (group 1 m)
  | None =>
    match exec re_height_x value with
    | Some resMatch => parseInt (group 2 resMatch)
    | None => 0
    end
  end.

(** [/(\d{2,4})\s*(?:kbps|kb|k\b)/i] *)
Definition re_bitrate : re :=
  Seq (Grp 1 (Rep 2 (Some 4%nat) digit))
 (Seq (star space)
      (Alt (lit_ci "kbps") (Alt (lit_ci "kb") (Seq (lit_ci "k") Wb)))).

Definition extractBitrateFromNote (note : string) : option Z :=
  match exec re_bitrate note with
  | Some m => Some (parseInt (group 1 m))
  | None => None
  end.

Definition presets : list Z := [64; 96; 128; 160; 192; 224; 256; 320].

(** [presets.reduce(...)]: the first preset is the initial value. *)
Definition nearestAudioBitrate (kbps : Z) : option Z :=
  if kbps =? 0 then None else
  match presets with
  | [] => None
  | first :: others =>
    Some (foldl (fun previous current =>
                   if Z.abs (current - kbps) <? Z.abs (previous - kbps)
                   then current else previous) first others)
  end.

Definition estimateAudioSize (durationSeconds : option Q) (bitrateKbps : option Z) : option Z :=
  match truthyQ durationSeconds, truthyZ bitrateKbps with
  | Some d, Some b => Some (round (d * inject_Z b * 1000 / 8)%Q)
  | _, _ => None
  end.

Definition determineAudioBitrateKbps (fmt : Format) : option Z :=
  let raw :=
    or_else (truthyQ (meta fmt ≫= abr))
   (or_else (truthyQ (meta fmt ≫= tbr))
            (inject_Z <$> extractBitrateFromNote (note fmt))) in
  match truthyQ raw with
  | None => None
  | Some r => nearestAudioBitrate (round r)
  end.

Definition createAudioLabel (bitrateKbps sizeBytes : option Z) : string :=
  let bitrateText :=
    match truthyZ bitrateKbps with
    | Some b => string_of_Z b +:+ " kbps"
    | None => "MP3"
    end in
  let sizeText :=
    match truthyZ sizeBytes with
    | Some _ => " (~" +:+ default "null" (formatBytes sizeBytes) +:+ ")"
    | None => ""
    end in
  trim ("MP3 " +:+ bitrateText +:+ sizeText).

Definition createVideoLabel (height_ sizeBytes : option Z) : string :=
  let quality :=
    match truthyZ height_ with
    | Some h => string_of_Z h +:+ "p"
    | None => "Video"
    end in
  let sizeText :=
    match truthyZ sizeBytes with
    | Some _ => " (~" +:+ default "null" (formatBytes sizeBytes) +:+ ")"
    | None => ""
    end in
  trim ("MP4 " +:+ quality +:+ sizeText).

(** [Math.min(a, b)] *)
Definition min (a b : Q) : Q := if Qle_bool a b then a else b.

(** [/(english|\ben\b|en-us|en-gb)/] *)
Definition re_english : re :=
  Grp 1 (Alt (lit "english") (Alt (Seq Wb (Seq (lit "en") Wb))
        (Alt (lit "en-us") (lit "en-gb")))).

(** [x || 0] *)
Definition or_zero (o : option Z) : Z := default 0 o.

Definition preferenceScore (fmt : Format) (type_ : Kind) : Q :=
  let note := toLowerCase (note fmt) in
  let score := 0%Q in
  let score := if includes note "default" || includes note "original" then (score + 10)%Q else score in
  let score := if test re_english note then (score + 5)%Q else score in
  match type_ with
  | audio => (score + min (inject_Z (or_zero (approxSize fmt)) / inject_Z (5 * 1024 * 1024)) 5)%Q
  | video => (score + min (inject_Z (parseResolutionHeight (resolution fmt)) / 200) 5)%Q
  end.

(** *** [filterWellKnownFormats] *)

Definition allowedExtensions (type_ : Kind) : list string :=
  match type_ with
  | audio => ["m4a"; "mp3"; "webm"; "opus"; "mp4"; "ogg"]
  | video => ["mp4"; "webm"; "mkv"]
  end.

(** The callback of [formats.filter] *)
Definition keep (type_ : Kind) (fmt : Format) : bool :=
  if negb (kind_eqb (type fmt) type_) then false
  else if negb (existsb (String.eqb (toLowerCase (extension fmt))) (allowedExtensions type_)) then false
  else match type_ with
       | video =>
         let lowerNote := toLowerCase (note fmt) in
         if includes lowerNote "video only" && negb (includes (fmt_id fmt) "+") then false
         else true
       | audio => true
       end.

(** [Array.prototype.sort] is stable: with a comparator that orders by
    a number, the result is the stable sort by it.  [sort compare l]
    puts [a] before [b] when [compare a b <= 0] and [a] came first. *)
Section Sort.
Context {A : Type} (compare : A -> A -> Q).

Fixpoint insert_sorted (a : A) (l : list A) : list A :=
  match l with
  | [] => [a]
  | b :: l' => if Qle_bool (compare a b) 0 then a :: b :: l' else b :: insert_sorted a l'
  end.

Fixpoint sort (l : list A) : list A :=
  match l with
  | [] => []
  | a :: l' => insert_sorted a (sort l')
  end.

End Sort.

(** [x.meta?.abr || x.meta?.tbr || x.approxSize || 0] *)
Definition audioRank (x : Format) : Q :=
  default 0%Q
    (or_else (truthyQ (meta x ≫= abr))
    (or_else (truthyQ (meta x ≫= tbr))
             (inject_Z <$> truthyZ (approxSize x)))).

Definition compareAudio (a b : Format) : Q := (audioRank b - audioRank a)%Q.

Definition compareVideo (a b : Format) : Q :=
  (inject_Z (parseResolutionHeight (resolution b)) -
   inject_Z (parseResolutionHeight (resolution a)))%Q.

(** The key of the deduplication:
    [type === "audio" ? `audio-${bitrateKey || fmt.id}` : fmt.resolution || fmt.id] *)
Definition bucketKey (type_ : Kind) (fmt : Format) : string :=
  let bitrateKey := determineAudioBitrateKbps fmt in
  match type_ with
  | audio =>
    "audio-" +:+ match truthyZ bitrateKey with
                 | Some b => string_of_Z b
                 | None => fmt_id fmt
                 end
  | video => if truthy (resolution fmt) then resolution fmt else fmt_id fmt
  end.

(** The state of the deduplication loop: the array [deduped] and the
    map [keyToIndex]. *)
Definition DedupeState : Type := list Format * gmap string nat.

(** One turn of [for (const fmt of filtered)].  An index found in
    [keyToIndex] is always within [deduped] ([dedupe_index_bound]
    below), so the last case is never taken. *)
Definition dedupeStep (type_ : Kind) (st : DedupeState) (fmt : Format) : DedupeState :=
  let '(deduped, keyToIndex) := st in
  let key := bucketKey type_ fmt in
  match keyToIndex !! key with
  | None => (deduped ++ [fmt], <[key := length deduped]> keyToIndex)
  | Some idxExisting =>
    match deduped !! idxExisting with
    | Some existing =>
      let candidateScore := preferenceScore fmt type_ in
      let existingScore := preferenceScore existing type_ in
      if negb (Qle_bool candidateScore existingScore) ||
         (Qeq_bool candidateScore existingScore &&
          (or_zero (approxSize fmt) >? or_zero (approxSize existing)))
      then (<[idxExisting := fmt]> deduped, keyToIndex)
      else st
    | None => st
    end
  end.

Definition dedupe (type_ : Kind) (filtered : list Format) : list Format :=
  fst (foldl (dedupeStep type_) ([], ∅) filtered).

(** The callback of the final [map] *)
Definition decorate (type_ : Kind) (durationSeconds : option Q) (fmt : Format) : Candidate :=
  match type_ with
  | audio =>
    let bitrateKbps := or_else (truthyZ (determineAudioBitrateKbps fmt)) (Some 192) in
    let estimatedSize :=
      or_else (truthyZ (estimateAudioSize durationSeconds bitrateKbps)) (approxSize fmt) in
    {| format := fmt;
       estimatedSizeBytes := truthyZ estimatedSize;
       displayLabel := createAudioLabel bitrateKbps (or_else (truthyZ estimatedSize) (approxSize fmt));
       targetFileName := fmt_id fmt +:+ "-audio" |}
  | video =>
    let height_ :=
      or_else (truthyZ (Some (parseResolutionHeight (resolution fmt))))
     (or_else (truthyZ (meta fmt ≫= height)) (Some 0)) in
    {| format := fmt;
       estimatedSizeBytes := truthyZ (approxSize fmt);
       displayLabel := createVideoLabel (truthyZ height_) (approxSize fmt);
       targetFileName := fmt_id fmt +:+ "-video" |}
  end.

Definition filterWellKnownFormats
    (formats_ : list Format) (type_ : Kind) (durationSeconds : option Q) : list Candidate :=
  let filtered := List.filter (keep type_) formats_ in
  let filtered :=
    match type_ with
    | audio => sort compareAudio filtered
    | video => sort compareVideo filtered
    end in
  let deduped := dedupe type_ filtered in
  map (decorate type_ durationSeconds) (firstn 6 deduped).

(** [getFormatsByType] *)
Definition getFormatsByType
    (formats_ : list Format) (type_ : Kind) (durationSeconds : option Q) : list Candidate :=
  filterWellKnownFormats formats_ type_ durationSeconds.

(** [pickDownloadedFile] *)
Definition pickDownloadedFile (files : list string) : option string :=
  List.find (fun file =>
               if startsWith file "." then false
               else let lower := toLowerCase file in
                    negb (endsWith lower ".part") && negb (endsWith lower ".ytdl")
                    && negb (endsWith lower ".info.json")) files.

End Downloader.

(** ** session-store.js: [class SessionStore]

    A session is a JavaScript object whose fields come and go with the
    handlers' updates: it is a finite map from field names to values.
    The store is the [Map] from chat ids to sessions. *)
Module SessionStore.

Inductive Value :=
| Undefined
| Null
| Num (n : Z)
| Rat (q : Q)
| Str (s : string)
| Formats (l : list Downloader.Candidate).

Abbreviation Obj := (gmap string Value).

Abbreviation t := (gmap Z (gmap string Value)).

(** [constructor()] *)
Definition new : t := ∅.

(** [{ ...a, ...b }]: the fields of [b] win. *)
Definition spread (a b : Obj) : Obj := b ∪ a.

(** [create(chatId, initialState = {})], with the value of
    [Date.now()]; returns the store and the state created. *)
Definition create (chatId : Z) (initialState : Obj) (now : Z) (sessions : t) : t * Obj :=
  let state := spread {[ "createdAt" := Num now ]} initialState in
  (<[chatId := state]> sessions, state).

(** [get(chatId)] *)
Definition get (chatId : Z) (sessions : t) : option Obj := sessions !! chatId.

(** The second argument of [update]: an object, or a function of the
    existing session. *)
Inductive Updater :=
| ByObject (o : Obj)
| ByFunction (f : Obj -> Obj).

(** [update(chatId, updater)]; returns the store and
    [this.sessions.get(chatId)]. *)
Definition update (chatId : Z) (updater : Updater) (sessions : t) : t * option Obj :=
  let existing := default ∅ (sessions !! chatId) in
  let updated :=
    match updater with
    | ByFunction f => f existing
    | ByObject o => o
    end in
  let sessions' := <[chatId := spread existing updated]> sessions in
  (sessions', sessions' !! chatId).

(** [delete(chatId)] *)
Definition delete (chatId : Z) (sessions : t) : t := base.delete chatId sessions.

End SessionStore.

(** ** queue.js: [class DownloadQueue]

    A job of the source is [{ task, resolve, reject }]; the three
    closures belong together, so a job is identified here with its
    task, of an arbitrary type [Task].  The fields [concurrency],
    [activeCount] and [queue] are the fields of the class.  The promise
    chains that [#runJob] leaves on the event loop are not a field of
    the class: they are kept in [running] (the jobs whose [finally]
    callback has not run yet), and [started] logs every call of
    [#runJob] in order. *)
Module DownloadQueue.

Inductive Outcome := Fulfilled | Rejected.

Section WithTask.
Variable Task : Type.

Record t := mk {
  concurrency : Z;
  activeCount : Z;
  queue : list Task;
  running : list Task;
  started : list Task;
  settled : list (Task * Outcome)
}.

(** [constructor(concurrency = 1)] *)
Definition new (c : Z) : t :=
  {| concurrency := Z.max c 1; activeCount := 0; queue := [];
     running := []; started := []; settled := [] |}.

(** [#runJob(job)]: the counter is incremented at once, the task itself
    is left to the event loop. *)
Definition runJob (job : Task) (q : t) : t :=
  {| concurrency := concurrency q;
     activeCount := activeCount q + 1;
     queue := queue q;
     running := running q ++ [job];
     started := started q ++ [job];
     settled := settled q |}.

(** What [enqueue] returns beside the promise. *)
Record Ticket := { position : Z; queued : bool }.

(** [enqueue(task)] *)
Definition enqueue (task : Task) (q : t) : t * Ticket :=
  let shouldQueue := activeCount q >=? concurrency q in
  let position := if shouldQueue then Z.of_nat (length (queue q)) + 1 else 0 in
  let q' :=
    if shouldQueue
    then {| concurrency := concurrency q; activeCount := activeCount q;
            queue := queue q ++ [task];
            running := running q; started := started q;
            settled := settled q |}
    else runJob task q in
  (q', {| position := position; queued := shouldQueue |}).

(** The tail of [#runJob]'s promise chain for the job at index [i] of
    [running]: the [then]/[catch] pair settles the job's promise with
    the task's outcome, and [finally] releases the slot and starts the
    head of the wait list ([this.queue.shift()]). *)
Definition finish (i : nat) (o : Outcome) (q : t) : t :=
  match running q !! i with
  | None => q
  | Some job =>
    let q1 :=
      {| concurrency := concurrency q;
         activeCount := activeCount q - 1;
         queue := tail (queue q);
         running := delete i (running q);
         started := started q;
         settled := settled q ++ [(job, o)] |} in
    match head (queue q) with
    | Some next => runJob next q1
    | None => q1
    end
  end.

(** The steps a queue takes: a call of [enqueue], or the completion of
    the running job at some index. *)
Inductive Event :=
| Enqueue (task : Task)
| Complete (i : nat) (o : Outcome).

Definition step (q : t) (e : Event) : t :=
  match e with
  | Enqueue task => fst (enqueue task q)
  | Complete i o => finish i o q
  end.

Definition exec (q : t) (es : list Event) : t := foldl step q es.

(** The tasks handed to [enqueue] along a run, in order. *)
Definition submitted (es : list Event) : list Task :=
  omap (fun e => match e with Enqueue task => Some task | Complete _ _ => None end) es.

End WithTask.

Arguments mk {Task}.
Arguments concurrency {Task}.
Arguments activeCount {Task}.
Arguments queue {Task}.
Arguments running {Task}.
Arguments started {Task}.
Arguments settled {Task}.
Arguments new {Task}.
Arguments runJob {Task}.
Arguments enqueue {Task}.
Arguments finish {Task}.
Arguments Enqueue {Task}.
Arguments Complete {Task}.
Arguments step {Task}.
Arguments exec {Task}.
Arguments submitted {Task}.

End DownloadQueue.

(** ** The bot: state, effects and the environment

    The handlers of index.js and [downloadMedia] act on the session
    store, the queue and the file system, and talk to Telegram and to
    yt-dlp.  A [World] holds the store, the queue, the working
    directories that exist, and the trace of every effect in order.  A
    computation takes a world and returns or throws.  What the outside
    answers (message ids, exit codes, directory listings, the fate of an
    upload) is given to each handler as its environment. *)
Module Runtime.
Import JS Downloader.

(** config.js, the fields the modelled code reads.
    [MAX_FILE_SIZE_BYTES] is computed as config.js does. *)
Record Config := {
  AUTHORIZED_USER_IDS : gset Z;
  YT_DLP_BINARY_PATH : string;
  YT_DLP_COOKIES_PATH : string;
  MAX_CONCURRENT_DOWNLOADS : Z;
  MAX_FILE_SIZE_MB : Q;
  DOWNLOAD_TEMP_DIR : string
}.

Definition MAX_FILE_SIZE_BYTES (config : Config) : Z :=
  round (MAX_FILE_SIZE_MB config * 1024 * 1024)%Q.

(** A thrown value: an [Error], with the fields
    [isTelegramEntityTooLarge] looks at. *)
Record Error := {
  message : string;
  code : option Z;
  description : option string;
  response_error_code : option Z;
  response_description : option string
}.

Definition error (text : string) : Error :=
  {| message := text; code := None; description := None;
     response_error_code := None; response_description := None |}.

Definition Button : Type := string * string.

Definition Keyboard : Type := list (list Button).

Inductive Level := debug | info | warn | error_.

Inductive Effect :=
| Reply (chat : Z) (text : string) (keyboard : option Keyboard)
| AnswerCbQuery (text : option string) (show_alert : bool)
| DeleteMessage (chat message_id : Z)
| EditMessageText (chat message_id : Z) (text : string)
| SendAudio (chat : Z) (filename title_ : string)
| SendDocument (chat : Z) (filename caption : string)
| SendVideo (chat : Z) (caption : string)
| DeleteMessageLater (ms chat message_id : Z)
| Log (level : Level) (text : string)
| EnsureDir (path : string)
| Spawn (command : string) (args : list string)
| Readdir (path : string)
| Move (src dest : string)
| Stat (path : string)
| Remove (path : string).

(** What the task passed to [queue.enqueue] has captured. *)
Record Job := {
  j_chat : Z;
  j_url : string;
  j_title : option string;
  j_format : Candidate;
  j_type : Kind;
  j_status : Z
}.

Record World := {
  sessions : gmap Z (gmap string SessionStore.Value);
  queue : DownloadQueue.t Job;
  dirs : gset string;
  trace : list Effect
}.

Inductive Outcome (A : Type) :=
| Returned (a : A)
| Thrown (e : Error).

Arguments Returned {A}.
Arguments Thrown {A}.

Definition M (A : Type) : Type := World -> Outcome A * World.

Definition ret {A} (a : A) : M A := fun w => (Returned a, w).

Definition bind {A B} (m : M A) (k : A -> M B) : M B :=
  fun w =>
    match m w with
    | (Returned a, w') => k a w'
    | (Thrown e, w') => (Thrown e, w')
    end.

Definition throw {A} (e : Error) : M A := fun w => (Thrown e, w).

(** [try { m } catch (e) { h e }] *)
Definition try_catch {A} (m : M A) (h : Error -> M A) : M A :=
  fun w =>
    match m w with
    | (Returned a, w') => (Returned a, w')
    | (Thrown e, w') => h e w'
    end.

(** [let x; try { x = init; body x } finally { final x }], where [final]
    sees [x] undefined when [init] threw. *)
Definition try_finally {L A} (init : M L) (body : L -> M A) (final : option L -> M unit) : M A :=
  fun w =>
    let '(r, x, w1) :=
      match init w with
      | (Thrown e, w') => (Thrown e, None, w')
      | (Returned x, w') => let '(r, w'') := body x w' in (r, Some x, w'')
      end in
    match final x w1 with
    | (Returned _, w2) => (r, w2)
    | (Thrown e, w2) => (Thrown e, w2)
    end.

Definition emit (e : Effect) : M unit :=
  fun w =>
    (Returned tt,
     {| sessions := sessions w; queue := queue w; dirs := dirs w;
        trace := trace w ++ [e] |}).

Definition log (level : Level) (text : string) : M unit := emit (Log level text).

Definition with_sessions {A}
    (f : gmap Z (gmap string SessionStore.Value) ->
         gmap Z (gmap string SessionStore.Value) * A) : M A :=
  fun w =>
    let '(sessions', a) := f (sessions w) in
    (Returned a,
     {| sessions := sessions'; queue := queue w; dirs := dirs w; trace := trace w |}).

Definition set_dirs (f : gset string -> gset string) : M unit :=
  fun w =>
    (Returned tt,
     {| sessions := sessions w; queue := queue w; dirs := f (dirs w); trace := trace w |}).

Definition with_queue {A}
    (f : DownloadQueue.t Job -> DownloadQueue.t Job * A) : M A :=
  fun w =>
    let '(queue', a) := f (queue w) in
    (Returned a,
     {| sessions := sessions w; queue := queue'; dirs := dirs w; trace := trace w |}).

(** The calls of the session store on [sessions] *)
Definition sessions_get (chatId : Z) : M (option (gmap string SessionStore.Value)) :=
  with_sessions (fun s => (s, SessionStore.get chatId s)).

Definition sessions_create (chatId : Z) (initialState : gmap string SessionStore.Value) (now : Z)
  : M unit :=
  with_sessions (fun s => (fst (SessionStore.create chatId initialState now s), tt)).

Definition sessions_update (chatId : Z) (o : gmap string SessionStore.Value) : M unit :=
  with_sessions (fun s => (fst (SessionStore.update chatId (SessionStore.ByObject o) s), tt)).

Definition sessions_delete (chatId : Z) : M unit :=
  with_sessions (fun s => (SessionStore.delete chatId s, tt)).

End Runtime.

Notation "'let!' x ':=' m 'in' k" :=
  (Runtime.bind m (fun x => k))
  (at level 10, x name, m at level 100, k at level 200).

Notation "'run!' m 'in' k" :=
  (Runtime.bind m (fun _ => k))
  (at level 10, m at level 100, k at level 200).

(** ** downloader.js, continued: [downloadMedia] *)
Module DownloaderIO.
Import JS Downloader Runtime.

Inductive SpawnResult :=
| SpawnError
| Exited (exitCode : Z).

(** What the outside answers during one [downloadMedia] *)
Record DownloadEnv := {
  jobId : string;
  randomName : string;
  binaryExists : bool;
  cookiesExist : bool;
  ensureDirOk : bool;
  spawnResult : SpawnResult;
  readdirFiles : option (list string);
  moveOk : bool;
  statSize : option Z
}.

Record DownloadResult := {
  filePath : string;
  fileName : string;
  d_title : string;
  size : Z;
  workingDir : string
}.

Definition COMMON_ARGS : list string := ["--ignore-config"; "--no-warnings"; "--no-playlist"].

(** [join(a, b)] and [resolve(a, b)] of node:path, for an absolute [a]
    and a plain name [b] *)
Definition path_join (a b : string) : string := a +:+ "/" +:+ b.

Fixpoint break_dot (l acc : list ascii) : option (list ascii * list ascii) :=
  match l with
  | [] => None
  | c :: l' => if Ascii.eqb c "." then Some (acc, l') else break_dot l' (c :: acc)
  end.

(** [parsePath(file)]: the [name] and the [ext] of a plain file name *)
Definition parsePath (file : string) : string * string :=
  match break_dot (rev (chars file)) [] with
  | Some (ext, (_ :: _) as name_rev) => (str (rev name_rev), str ("."%char :: ext))
  | _ => (file, "")
  end.

(** The pattern of characters replaced by [_]: one or more of backslash,
    slash, colon, star, question mark, double quote (code 34), angle
    brackets and bar. *)
Definition re_illegal : re := plus (one_of ("\/:*?<>|" +:+ String (chr 34) "")).

Definition sanitizeFileName (name : option string) : string :=
  match name with
  | None => "output"
  | Some n =>
    if negb (truthy n) then "output" else
    let cleaned := slice0 180 (trim (replaceAll re_spaces " " (replaceAll re_illegal "_" n))) in
    if truthy cleaned then cleaned else "output"
  end.

Section WithConfig.
Variable config : Config.
Variable env : DownloadEnv.

Definition buildArgs (additional : list string) : list string :=
  COMMON_ARGS ++ additional ++
  (if truthy (YT_DLP_COOKIES_PATH config) && cookiesExist env
   then ["--cookies"; YT_DLP_COOKIES_PATH config] else []).

(** [runCommand], for the outcome [spawnResult] of the child process *)
Definition runCommand (command : string) (args : list string) : M unit :=
  run! emit (Spawn command args) in
  match spawnResult env with
  | SpawnError => throw (error "spawn failed")
  | Exited 0 => ret tt
  | Exited exitCode =>
    run! log error_ "External command failed" in
    throw (error (command +:+ " exited with code " +:+ string_of_Z exitCode))
  end.

Definition runYtDlp (args : list string) : M unit :=
  if negb (binaryExists env) then
    let text := "yt-dlp binary not found at " +:+ YT_DLP_BINARY_PATH config in
    run! log error_ text in
    throw (error text)
  else runCommand (YT_DLP_BINARY_PATH config) args.

Definition ensureDir (path : string) : M unit :=
  run! emit (EnsureDir path) in
  if ensureDirOk env then set_dirs (fun d => {[ path ]} ∪ d)
  else throw (error "ensureDir failed").

Definition readdir (path : string) : M (list string) :=
  run! emit (Readdir path) in
  match readdirFiles env with
  | Some files => ret files
  | None => throw (error "readdir failed")
  end.

Definition move (src dest : string) : M unit :=
  run! emit (Move src dest) in
  if moveOk env then ret tt else throw (error "move failed").

Definition stat (path : string) : M Z :=
  run! emit (Stat path) in
  match statSize env with
  | Some n => ret n
  | None => throw (error "stat failed")
  end.

(** [downloadMedia({ url, formatId, type, expectedTitle, onStatus,
    targetFileName })].  [expectedTitle] and [targetFileName] are
    strings or [undefined]; where the source writes [x || y] or [!x],
    an empty string counts as absent ([x ≫= nonempty]). *)
Definition downloadMedia
    (url formatId : string) (type_ : Kind) (expectedTitle : option string)
    (onStatus : string -> M unit) (targetFileName_ : option string) : M DownloadResult :=
  let workingDir_ := path_join (DOWNLOAD_TEMP_DIR config) (jobId env) in
  run! ensureDir workingDir_ in
  let outputTemplate := path_join workingDir_ "%(id)s.%(ext)s" in
  let args := buildArgs ["--no-progress"; "--output"; outputTemplate; "-f"; formatId; url] in
  run! onStatus "Downloading source..." in
  run! runYtDlp args in
  let! files := readdir workingDir_ in
  match pickDownloadedFile files ≫= nonempty with
  | None => throw (error "Downloaded file not found")
  | Some downloadedFile =>
    let downloadedPath := path_join workingDir_ downloadedFile in
    let baseTitle :=
      sanitizeFileName
        (Some (default (fst (parsePath downloadedFile)) (expectedTitle ≫= nonempty))) in
    let displayTitle := default baseTitle (expectedTitle ≫= nonempty) in
    let originalExt :=
      if truthy (snd (parsePath downloadedFile)) then snd (parsePath downloadedFile)
      else match type_ with audio => ".mp3" | video => ".mp4" end in
    let safeBase :=
      sanitizeFileName (Some (default (randomName env) (targetFileName_ ≫= nonempty))) in
    let finalFileName := safeBase +:+ originalExt in
    let finalPath := path_join workingDir_ finalFileName in
    run! (if String.eqb downloadedPath finalPath then ret tt
          else move downloadedPath finalPath) in
    let! fileSize := stat finalPath in
    ret {| filePath := finalPath;
           fileName := finalFileName;
           d_title := displayTitle;
           size := fileSize;
           workingDir := workingDir_ |}
  end.

End WithConfig.

(** The [cleanup] of a result: [await remove(workingDir)], for the
    outcome [removeOk] of the removal *)
Definition cleanup (removeOk : bool) (download : DownloadResult) : M unit :=
  run! emit (Remove (workingDir download)) in
  if removeOk then set_dirs (fun d => d ∖ {[ workingDir download ]})
  else throw (error "remove failed").

End DownloaderIO.

(** ** index.js: the handlers of the bot

    Calls of the Bot API that the handlers do not guard are taken to
    succeed; the one call whose failure the program handles, the upload
    of the file, has its outcome in the environment. *)
Module Bot.
Import JS Downloader SessionStore Runtime DownloaderIO.

(** The update a handler receives: [ctx.chat.id], whether
    [ctx.chat.type] is [private], [ctx.from?.id], [ctx.message.text]
    and [ctx.callbackQuery?.message?.message_id]. *)
Record Ctx := {
  chat_id : Z;
  chat_private : bool;
  from_id : option Z;
  text : string;
  prompt_message_id : option Z
}.

(** A session field used as a condition *)
Definition truthyV (v : option Value) : bool :=
  match v with
  | Some (Num n) => negb (n =? 0)
  | Some (Rat q) => negb (Qeq_bool q 0)
  | Some (Str s) => truthy s
  | Some (Formats _) => true
  | Some Null | Some Undefined | None => false
  end.

(** A field that holds a message id or [null]: the id, when truthy *)
Definition message_id_of (v : option Value) : option Z :=
  match v with
  | Some (Num n) => truthyZ (Some n)
  | _ => None
  end.

(** A field that holds a string: the string, when truthy *)
Definition string_of (v : option Value) : option string :=
  match v with
  | Some (Str s) => if truthy s then Some s else None
  | _ => None
  end.

(** [session.formats], when it is an array *)
Definition formats_of (v : option Value) : option (list Candidate) :=
  match v with
  | Some (Formats l) => Some l
  | _ => None
  end.

(** [session.userId === userId] *)
Definition same_user (v : option Value) (userId : option Z) : bool :=
  match v, userId with
  | Some (Num a), Some b => a =? b
  | (None | Some Undefined), None => true
  | _, _ => false
  end.

Definition optional_string (o : option string) : Value :=
  match o with Some s => Str s | None => Undefined end.

(** [/(https?:\/\/[^\s]+)/i] *)
Definition re_url : re :=
  Grp 1 (Seq (lit_ci "http") (Seq (opt (lit1_ci "s"))
        (Seq (lit "://") (plus (Chr (fun c => negb (is_space c))))))).

Definition sanitizeUrl (text_ : string) : option string :=
  match exec re_url text_ with
  | Some m => Some (group 1 m)
  | None => None
  end.

Fixpoint rows_of_two (buttons : list Button) : Keyboard :=
  match buttons with
  | a :: b :: rest => [a; b] :: rows_of_two rest
  | [a] => [[a]]
  | [] => []
  end.

Definition buildFormatKeyboard (formats_ : list Candidate) (type_ : Kind) : Keyboard :=
  let buttons :=
    imap (fun index fmt =>
            (displayLabel fmt,
             "fmt:" +:+ kind_name type_ +:+ ":" +:+ string_of_Z (Z.of_nat index)))
         formats_ in
  rows_of_two buttons ++ [[("Cancel", "cancel")]].

Definition kindKeyboard : Keyboard :=
  [[("Audio", "type:audio"); ("Video", "type:video")]; [("Cancel", "cancel")]].

Definition isTelegramEntityTooLarge (e : Error) : bool :=
  let code_ := match response_error_code e with Some c => Some c | None => code e end in
  match code_ with
  | Some 413 => true
  | _ =>
    let description_ :=
      or_else (string_of (Str <$> response_description e))
     (or_else (string_of (Str <$> description e)) (Some (message e))) in
    match description_ with
    | Some d => includes (toLowerCase d) "request entity too large"
    | None => false
    end
  end.

Inductive SendOutcome :=
| Sent
| SendFailed (e : Error).

(** What the task returns: [{ success: true }] or
    [{ success: false, reason, keepSession: true }] *)
Record TaskResult := {
  success : bool;
  keepSession : bool
}.

Record TextEnv := { now : Z; selectionMessage : Z }.

Record TypeEnv := {
  loadingMessage : Z;
  probe : Result ProbeResult;
  formatMessage : Z
}.

Record FormatEnv := { retryMessage : Z; statusMessage : Z }.

Record TaskEnv := {
  downloadEnv : DownloadEnv;
  sendOutcome : SendOutcome;
  removeOk : bool
}.

Section Handlers.
Variable config : Config.

(** [String(x)] for a number, as the message texts use it *)
Variable String_of_number : Q -> string.

Definition TELEGRAM_FILE_LIMIT_BYTES : Z := MAX_FILE_SIZE_BYTES config.

Definition isAuthorized (userId : option Z) : bool :=
  if decide (base.size (AUTHORIZED_USER_IDS config) = 0%nat) then false
  else match userId with
       | Some u => bool_decide (u ∈ AUTHORIZED_USER_IDS config)
       | None => false
       end.

Definition reply (ctx : Ctx) (text_ : string) (keyboard : option Keyboard) : M unit :=
  emit (Reply (chat_id ctx) text_ keyboard).

(** [createStatusUpdater(chatId, messageId)]: a failure of the edit is
    caught and logged, so the updater never throws. *)
Definition updateStatus (chatId messageId : Z) (text_ : string) : M unit :=
  emit (EditMessageText chatId messageId text_).

Definition handleUnauthorized (ctx : Ctx) : M unit :=
  run! log warn "Unauthorized access attempt" in
  if negb (chat_private ctx) then ret tt
  else reply ctx "You are not allowed to use this bot." None.

(** [bot.command("cancel", ...)] *)
Definition onCancelCommand (ctx : Ctx) : M unit :=
  if negb (isAuthorized (from_id ctx)) then handleUnauthorized ctx else
  run! sessions_delete (chat_id ctx) in
  reply ctx "Canceled current request. Send a new link to start over." None.

(** [bot.on("text", ...)]: the submission of a URL *)
Definition onText (env : TextEnv) (ctx : Ctx) : M unit :=
  if negb (isAuthorized (from_id ctx)) then handleUnauthorized ctx else
  let! existingSession := sessions_get (chat_id ctx) in
  run! match existingSession with
       | Some existing =>
         run! match message_id_of (existing !! "formatMessageId") with
              | Some m => emit (DeleteMessage (chat_id ctx) m)
              | None => ret tt
              end in
         run! match message_id_of (existing !! "selectionMessageId") with
              | Some m => emit (DeleteMessage (chat_id ctx) m)
              | None => ret tt
              end in
         sessions_delete (chat_id ctx)
       | None => ret tt
       end in
  match sanitizeUrl (text ctx) with
  | None => reply ctx "Please send a valid media URL." None
  | Some url =>
    run! sessions_create (chat_id ctx)
           {[ "url" := Str url;
              "userId" := match from_id ctx with Some u => Num u | None => Undefined end ]}
           (now env) in
    run! reply ctx "What would you like to download?" (Some kindKeyboard) in
    sessions_update (chat_id ctx)
      {[ "selectionMessageId" := Num (selectionMessage env); "formatMessageId" := Null ]}
  end.

(** [bot.action(/^type:(audio|video)$/i, ...)]: the choice of a kind *)
Definition onType (env : TypeEnv) (ctx : Ctx) (type_ : Kind) : M unit :=
  let chatId := chat_id ctx in
  let userId := from_id ctx in
  if negb (isAuthorized userId) then
    run! emit (AnswerCbQuery (Some "Not allowed") true) in
    handleUnauthorized ctx
  else
  let! found := sessions_get chatId in
  match found with
  | None => emit (AnswerCbQuery (Some "No active request. Send a link first.") true)
  | Some session =>
    if negb (same_user (session !! "userId") userId) then
      emit (AnswerCbQuery (Some "No active request. Send a link first.") true)
    else
    let selectionMessageId :=
      or_else (message_id_of (session !! "selectionMessageId"))
              (truthyZ (prompt_message_id ctx)) in
    run! emit (AnswerCbQuery None false) in
    run! match selectionMessageId with
         | Some m =>
           run! emit (DeleteMessage chatId m) in
           sessions_update chatId {[ "selectionMessageId" := Null ]}
         | None => ret tt
         end in
    run! reply ctx "Fetching available formats..." None in
    try_finally (ret tt)
      (fun _ =>
         try_catch
           (match probe env with
            | Failed e => throw (error e)
            | Ok listed =>
              let filtered :=
                getFormatsByType (p_formats listed) type_ (p_durationSeconds listed) in
              match filtered with
              | [] => reply ctx "No suitable formats found. Try another link or type." None
              | _ :: _ =>
                let promptText :=
                  match type_ with
                  | audio => "Choose an audio bitrate:"
                  | video => "Choose a video quality:"
                  end in
                run! reply ctx promptText (Some (buildFormatKeyboard filtered type_)) in
                sessions_update chatId
                  (<[ "type" := Str (kind_name type_) ]>
                  (<[ "title" := optional_string (p_title listed) ]>
                  (<[ "webpageUrl" := optional_string (p_webpageUrl listed) ]>
                  (<[ "durationSeconds" :=
                        match p_durationSeconds listed with Some d => Rat d | None => Null end ]>
                  (<[ "formats" := Formats filtered ]>
                  (<[ "formatMessageId" := Num (formatMessage env) ]>
                  {[ "selectionMessageId" := Null ]}))))))
              end
            end)
           (fun e =>
              run! log error_ "Failed to list formats" in
              reply ctx "Could not retrieve formats. Please try again later." None))
      (fun _ => emit (DeleteMessage chatId (loadingMessage env)))
  end.

(** The task handed to [queue.enqueue] by the format handler *)
Definition task (env : TaskEnv) (job : Job) : M TaskResult :=
  let chatId := j_chat job in
  let status := updateStatus chatId (j_status job) in
  run! status "Preparing download..." in
  try_finally
    (downloadMedia config (downloadEnv env)
       (j_url job) (fmt_id (format (j_format job))) (j_type job) (j_title job)
       status (nonempty (targetFileName (j_format job))))
    (fun download =>
       if size download >? TELEGRAM_FILE_LIMIT_BYTES then
         run! log warn "Downloaded file exceeds configured size limit" in
         run! status "Download complete, but file exceeds size limit. Please pick a smaller option." in
         ret {| success := false; keepSession := true |}
       else
       run! status "Uploading..." in
       let send :=
         match j_type job with
         | audio =>
           let lowerFile := toLowerCase (fileName download) in
           if endsWith lowerFile ".mp3" || endsWith lowerFile ".m4a"
           then SendAudio chatId (fileName download) (d_title download)
           else SendDocument chatId (fileName download) (d_title download)
         | video => SendVideo chatId (d_title download)
         end in
       let! uploaded :=
         try_catch
           (run! emit send in
            match sendOutcome env with
            | Sent => ret true
            | SendFailed e => throw e
            end)
           (fun e =>
              if isTelegramEntityTooLarge e then
                run! log warn "Telegram rejected upload: entity too large" in
                run! status "Telegram rejected the upload because it exceeds their file size limit. Please choose a smaller format." in
                ret false
              else throw e) in
       if negb uploaded then ret {| success := false; keepSession := true |}
       else
       run! status "Done ✅" in
       ret {| success := true; keepSession := false |})
    (fun download =>
       match download with
       | Some d =>
         try_catch (cleanup (removeOk env) d)
           (fun cleanupError => log warn "Failed to delete temporary download directory")
       | None => ret tt
       end).

(** The continuations of [job.promise]: [.then(...)] and [.catch(...)] *)
Definition onFulfilled (retry : Z) (job : Job) (result : TaskResult) : M unit :=
  let chatId := j_chat job in
  if success result then
    run! sessions_delete chatId in
    emit (DeleteMessageLater 15000 chatId (j_status job))
  else if keepSession result then
    let! currentSession := sessions_get chatId in
    match currentSession ≫= (fun o => formats_of (o !! "formats")) with
    | Some ((_ :: _) as formats_) =>
      let promptText :=
        match j_type job with
        | audio => "Choose another audio bitrate:"
        | video => "Choose another video quality:"
        end in
      run! emit (Reply chatId promptText (Some (buildFormatKeyboard formats_ (j_type job)))) in
      sessions_update chatId {[ "formatMessageId" := Num retry ]}
    | _ => ret tt
    end
  else sessions_delete chatId.

Definition onRejected (job : Job) (e : Error) : M unit :=
  run! log error_ "Download job failed" in
  updateStatus (j_chat job) (j_status job)
    "Failed. Please try another format or send a new link.".

Definition jobSettled (retry : Z) (job : Job) (outcome : Outcome TaskResult) : M unit :=
  match outcome with
  | Returned result => try_catch (onFulfilled retry job result) (onRejected job)
  | Thrown e => onRejected job e
  end.

(** [bot.action(/^fmt:(audio|video):(\d+)$/i, ...)]: the choice of a
    format.  The task is queued; its continuations run when the job
    settles ([completeJob]). *)
Definition onFormat (env : FormatEnv) (ctx : Ctx) (type_ : Kind) (index : nat) : M unit :=
  let chatId := chat_id ctx in
  let userId := from_id ctx in
  if negb (isAuthorized userId) then
    run! emit (AnswerCbQuery (Some "Not allowed") true) in
    handleUnauthorized ctx
  else
  let! found := sessions_get chatId in
  match found with
  | None => emit (AnswerCbQuery (Some "Request expired. Send the link again.") true)
  | Some session =>
    if negb (same_user (session !! "userId") userId) then
      emit (AnswerCbQuery (Some "Request expired. Send the link again.") true)
    else
    match formats_of (session !! "formats") ≫= (fun l => l !! index) with
    | None => emit (AnswerCbQuery (Some "Unknown format.") true)
    | Some selectedFormat =>
      run! emit (AnswerCbQuery (Some ("Selected " +:+ displayLabel selectedFormat)) false) in
      run! match message_id_of (session !! "formatMessageId") with
           | Some m =>
             run! emit (DeleteMessage chatId m) in
             sessions_update chatId {[ "formatMessageId" := Null ]}
           | None => ret tt
           end in
      run! sessions_update chatId {[ "title" := default Undefined (session !! "title") ]} in
      let estimatedSize :=
        or_else (truthyZ (estimatedSizeBytes selectedFormat))
                (truthyZ (approxSize (format selectedFormat))) in
      if match estimatedSize with
         | Some estimate => estimate >? TELEGRAM_FILE_LIMIT_BYTES
         | None => false
         end
      then
        run! reply ctx ("Selected option is larger than " +:+
                        String_of_number (MAX_FILE_SIZE_MB config) +:+
                        " MB. Please pick a smaller choice.") None in
        match default [] (formats_of (session !! "formats")) with
        | [] => ret tt
        | (_ :: _) as currentFormats =>
          let promptText :=
            match type_ with
            | audio => "Pick a smaller audio bitrate:"
            | video => "Pick a smaller video quality:"
            end in
          run! reply ctx promptText (Some (buildFormatKeyboard currentFormats type_)) in
          sessions_update chatId {[ "formatMessageId" := Num (retryMessage env) ]}
        end
      else
        run! reply ctx "Queued..." None in
        let job :=
          {| j_chat := chatId;
             j_url := default "" (string_of (session !! "url"));
             j_title := string_of (session !! "title");
             j_format := selectedFormat;
             j_type := type_;
             j_status := statusMessage env |} in
        let! ticket := with_queue (DownloadQueue.enqueue job) in
        if DownloadQueue.position ticket >? 0 then
          updateStatus chatId (statusMessage env)
            ("Queued (#" +:+ string_of_Z (DownloadQueue.position ticket) +:+
             "). Waiting for your turn...")
        else ret tt
    end
  end.

(** [bot.action("cancel", ...)] *)
Definition onCancelAction (ctx : Ctx) : M unit :=
  run! sessions_delete (chat_id ctx) in
  run! emit (AnswerCbQuery (Some "Canceled") false) in
  reply ctx "Canceled. Send a new link whenever you're ready." None.

(** The running job at index [i] runs its task to the end: the queue
    settles its promise and releases the slot ([#runJob]), and the
    continuations of the promise run.  The two act on different parts
    of the world, so their order does not matter. *)
Definition completeJob (env : TaskEnv) (retry : Z) (i : nat) : M unit :=
  fun w =>
    match DownloadQueue.running (queue w) !! i with
    | None => (Returned tt, w)
    | Some job =>
      let '(outcome, w1) := task env job w in
      let settledAs :=
        match outcome with
        | Returned _ => DownloadQueue.Fulfilled
        | Thrown _ => DownloadQueue.Rejected
        end in
      let w2 :=
        {| sessions := sessions w1;
           queue := DownloadQueue.finish i settledAs (queue w1);
           dirs := dirs w1;
           trace := trace w1 |} in
      jobSettled retry job outcome w2
    end.

End Handlers.

(** The mutating entry points of the conversation boundary *)
Inductive EntryPoint :=
| SubmitUrl (env : TextEnv)
| ChooseKind (env : TypeEnv) (type_ : Kind)
| ChooseFormat (env : FormatEnv) (type_ : Kind) (index : nat)
| CancelCommand
| CancelButton.

Definition handle (config : Config) (String_of_number : Q -> string)
    (entry : EntryPoint) (ctx : Ctx) : M unit :=
  match entry with
  | SubmitUrl env => onText config env ctx
  | ChooseKind env type_ => onType config env ctx type_
  | ChooseFormat env type_ index => onFormat config String_of_number env ctx type_ index
  | CancelCommand => onCancelCommand config ctx
  | CancelButton => onCancelAction ctx
  end.

End Bot.

(** ** Definitions used by the statements *)

(** [1024^k] as a rational *)
Definition kib_pow (k : nat) : Q := inject_Z (1024 ^ Z.of_nat k).

(** The decimals rule as the specification words it: none when the
    scaled value is above 10 or at the byte scale, one otherwise. *)
Definition decimals_as_specified (value : Q) (index : nat) : nat :=
  if negb (Qle_bool value 10) || (index =? 0)%nat then 0%nat else 1%nat.

(** The bucket key as the specification words it: for audio the nearest
    preset derived from the declared or note-parsed bitrate (none when
    no bitrate is derivable), for video the resolution string, or the
    id when the resolution is empty. *)
Inductive SpecKey :=
| PresetKey (preset : option Z)
| ResolutionKey (s : string).

Definition bucketKey_as_specified (type_ : Downloader.Kind) (fmt : Downloader.Format) : SpecKey :=
  match type_ with
  | Downloader.audio => PresetKey (Downloader.determineAudioBitrateKbps fmt)
  | Downloader.video =>
    ResolutionKey (if JS.truthy (Downloader.resolution fmt)
                   then Downloader.resolution fmt else Downloader.fmt_id fmt)
  end.

(** An audio row of a listing with the note [note_], and one that names
    no bitrate *)
Definition listed (id ext note_ : string) : Downloader.Format :=
  {| Downloader.fmt_id := id; Downloader.extension := ext;
     Downloader.resolution := "audio only"; Downloader.note := note_;
     Downloader.approxSize := None; Downloader.type := Downloader.audio;
     Downloader.raw := id +:+ " " +:+ ext +:+ " audio only | " +:+ note_;
     Downloader.meta := None |}.

Definition unrated (id ext : string) : Downloader.Format := listed id ext "".



(** [JSON.parse] on the one document used below, the empty object *)
Definition parse_empty_object (s : string) : option Downloader.Json :=
  if String.eqb s "{}"
  then Some (Downloader.JsonValue
               {| Downloader.title := None; Downloader.webpage_url := None;
                  Downloader.duration := None; Downloader.formats := None |})
  else None.

(** A listing of yt-dlp with its two header lines and no row *)
Definition listing_without_rows : string :=
  "ID  EXT   RESOLUTION | FILESIZE  TBR PROTO | VCODEC  ACODEC" +:+ String Downloader.LF
  "----------------------------------------------------------".

(** ** Sample values for the closed statements *)
Module Sample.
Import JS Downloader SessionStore Runtime DownloaderIO Bot.

(** A configuration with two allowed users and the limit of the README,
    1900 MB *)
Definition config : Config :=
  {| AUTHORIZED_USER_IDS := {[ 1; 2 ]};
     YT_DLP_BINARY_PATH := "/opt/yt-dlp/yt-dlp";
     YT_DLP_COOKIES_PATH := "/config/cookies.txt";
     MAX_CONCURRENT_DOWNLOADS := 2;
     MAX_FILE_SIZE_MB := 1900;
     DOWNLOAD_TEMP_DIR := "/tmp/yttelbot" |}.

(** [String(x)] for a whole number *)
Definition show (x : Q) : string := string_of_Z (Qfloor x).

(** A candidate of 2,000,000,000 bytes and one of 3,000,000 bytes *)
Definition large : Candidate :=
  {| format :=
       {| fmt_id := "137+140"; extension := "mp4"; resolution := "1920x1080";
          note := "1080p"; approxSize := Some 2000000000; type := video;
          raw := "137+140 mp4 1920x1080 | 1080p"; meta := None |};
     estimatedSizeBytes := Some 2000000000;
     displayLabel := "MP4 1080p (~1.9GB)";
     targetFileName := "137+140-video" |}.

Definition small : Candidate :=
  {| format :=
       {| fmt_id := "140"; extension := "m4a"; resolution := "audio only";
          note := "128k"; approxSize := Some 3000000; type := audio;
          raw := "140 m4a audio only | 128k"; meta := None |};
     estimatedSizeBytes := Some 3000000;
     displayLabel := "MP3 128 kbps (~2.9MB)";
     targetFileName := "140-audio" |}.

(** The session of chat 7, owned by user 1, at the format choice *)
Definition session (offered : list Candidate) : gmap string Value :=
  <[ "url" := Str "https://youtu.be/abc" ]>
 (<[ "userId" := Num 1 ]>
 (<[ "createdAt" := Num 1000 ]>
 (<[ "title" := Str "T" ]>
 (<[ "formats" := Formats offered ]>
  {[ "formatMessageId" := Num 103 ]})))).

Definition world (offered : list Candidate) : World :=
  {| sessions := {[ 7 := session offered ]};
     queue := DownloadQueue.new (MAX_CONCURRENT_DOWNLOADS config);
     dirs := ∅;
     trace := [] |}.

(** An update of chat 7 from user [user] *)
Definition ctx (user : Z) (text_ : string) : Ctx :=
  {| chat_id := 7; chat_private := false; from_id := Some user;
     text := text_; prompt_message_id := Some 103 |}.

(** The job of chat 7 for the small candidate, running *)
Definition job : Job :=
  {| j_chat := 7; j_url := "https://youtu.be/abc"; j_title := Some "T";
     j_format := small; j_type := audio; j_status := 105 |}.

Definition downloading : World :=
  {| sessions := {[ 7 := session [small] ]};
     queue := fst (DownloadQueue.enqueue job
                     (DownloadQueue.new (MAX_CONCURRENT_DOWNLOADS config)));
     dirs := ∅;
     trace := [] |}.

(** An environment in which yt-dlp exits with [exitCode] and leaves
    [files] in the working directory *)
Definition taskEnv (exitCode : Z) (files : list string) (upload : SendOutcome) : TaskEnv :=
  {| downloadEnv :=
       {| jobId := "3f0c"; randomName := "9a1b"; binaryExists := true;
          cookiesExist := false; ensureDirOk := true;
          spawnResult := Exited exitCode; readdirFiles := Some files;
          moveOk := true; statSize := Some 2999000 |};
     sendOutcome := upload;
     removeOk := true |}.

End Sample.

(** The acting identity differs from the owner of the stored session. *)
Definition owner_mismatch (w : Runtime.World) (ctx : Bot.Ctx) : Prop :=
  exists session,
    Runtime.sessions w !! Bot.chat_id ctx = Some session /\
    Bot.same_user (session !! "userId") (Bot.from_id ctx) = false.

(** A world with one more effect in its trace *)
Definition after (w : Runtime.World) (effects : list Runtime.Effect) : Runtime.World :=
  {| Runtime.sessions := Runtime.sessions w;
     Runtime.queue := Runtime.queue w;
     Runtime.dirs := Runtime.dirs w;
     Runtime.trace := Runtime.trace w ++ effects |}.

Definition is_remove (e : Runtime.Effect) : bool :=
  match e with
  | Runtime.Remove _ => true
  | _ => false
  end.

(** What every queue reached from [new DownloadQueue(c)] along the events
    [es] satisfies. *)
Record queue_inv {Task : Type} (c : Z) (es : list (DownloadQueue.Event Task))
    (q : DownloadQueue.t Task) : Prop := {
  inv_bound : DownloadQueue.concurrency q = Z.max c 1;
  inv_count : DownloadQueue.activeCount q = Z.of_nat (length (DownloadQueue.running q));
  inv_le : DownloadQueue.activeCount q <= DownloadQueue.concurrency q;
  inv_full : DownloadQueue.queue q <> [] ->
             DownloadQueue.activeCount q = DownloadQueue.concurrency q;
  inv_fifo : DownloadQueue.started q ++ DownloadQueue.queue q = DownloadQueue.submitted es
}.

(** The invariant of the deduplication loop: [keyToIndex] maps each key
    seen to the index in [deduped] of the one format kept for it. *)
Record dedupe_inv (type_ : Downloader.Kind) (st : Downloader.DedupeState) : Prop := {
  inv_index : forall key i,
    snd st !! key = Some i ->
    exists f, fst st !! i = Some f /\ Downloader.bucketKey type_ f = key;
  inv_key : forall i f,
    fst st !! i = Some f -> snd st !! Downloader.bucketKey type_ f = Some i
}.

(** Runs the effects at the head of a handler. *)
Ltac run_effects :=
  unfold Bot.reply, Bot.updateStatus, Runtime.log, Runtime.emit, Runtime.ret, Runtime.throw,
    Runtime.sessions_get, Runtime.sessions_create, Runtime.sessions_update,
    Runtime.sessions_delete, Runtime.with_sessions, Runtime.with_queue, Runtime.set_dirs,
    Runtime.bind;
  cbn [negb fst snd Runtime.sessions Runtime.queue Runtime.dirs Runtime.trace
       default from_option id
       SessionStore.get SessionStore.update SessionStore.create SessionStore.delete].

(** ** Definitions used by the further properties *)

(** A text of ASCII characters: every code unit is below 128. *)
Definition ascii_text (s : string) : Prop :=
  Forall (fun c => (JS.code c < 128)%N) (JS.chars s).

(** A schedule of completions for a queue: one after the other, each
    names by its index a job that is running when its turn comes, and
    gives its outcome. *)
Fixpoint completes {Task : Type}
    (q : DownloadQueue.t Task) (cs : list (nat * DownloadQueue.Outcome)) : Prop :=
  match cs with
  | [] => True
  | (i, o) :: cs' =>
    is_Some (DownloadQueue.running q !! i) /\ completes (DownloadQueue.finish i o q) cs'
  end.

Definition completions {Task : Type}
    (cs : list (nat * DownloadQueue.Outcome)) : list (DownloadQueue.Event Task) :=
  map (fun c => DownloadQueue.Complete (fst c) (snd c)) cs.

(** The loop of a repetition in [JS.run], by itself *)
Definition rep_loop {R : Type} (lo : nat) (hi : option nat) (a : JS.re) (k : JS.cont R) :=
  fix loop (fuel n : nat) (before rest : list ascii) (cs : JS.caps) {struct fuel} : option R :=
    let stop := if (lo <=? n)%nat then k before rest cs else None in
    let more := match hi with Some h => (n <? h)%nat | None => true end in
    match fuel with
    | O => stop
    | S fuel' =>
      if more then
        match JS.run a before rest cs
                (fun before' rest' cs' =>
                   if (length rest' <? length rest)%nat
                   then loop fuel' (S n) before' rest' cs'
                   else None) with
        | Some x => Some x
        | None => stop
        end
      else stop
    end.

(** The longest prefix of characters of a class, and what follows it *)
Fixpoint lead (p : ascii -> bool) (l : list ascii) : list ascii :=
  match l with
  | c :: l' => if p c then c :: lead p l' else []
  | [] => []
  end.

Fixpoint skip (p : ascii -> bool) (l : list ascii) : list ascii :=
  match l with
  | c :: l' => if p c then skip p l' else l
  | [] => []
  end.

(** No character of the string is in the class. *)
Definition free_of (p : ascii -> bool) (s : string) : Prop :=
  Forall (fun c => p c = false) (JS.chars s).

(** The characters [sanitizeFileName] replaces by [_] *)
Definition is_illegal (c : ascii) : bool :=
  existsb (Ascii.eqb c) (JS.chars ("\/:*?<>|" +:+ String (JS.chr 34) "")).

(** [p] is a contiguous part of [s]. *)
Definition within (p s : string) : Prop :=
  exists pre post, JS.chars s = pre ++ JS.chars p ++ post.

(** A token of the first column of a listing: not empty, without white
    space and without the column bar *)
Definition token (s : string) : Prop :=
  JS.truthy s = true /\
  Forall (fun c => JS.is_space c = false /\ c <> "|"%char) (JS.chars s).

(** The deduplication keeps, for the key of each format it has seen, a
    format of that key whose score is at least as high. *)
Definition best_kept
    (type_ : Downloader.Kind) (st : Downloader.DedupeState) (f : Downloader.Format) : Prop :=
  exists i g,
    snd st !! Downloader.bucketKey type_ f = Some i /\
    fst st !! i = Some g /\
    (Downloader.preferenceScore f type_ <= Downloader.preferenceScore g type_)%Q.

(** queue.js, [get stats()] *)
Module QueueStats.

Record t := { active : Z; queued : Z; concurrency : Z }.

Definition stats {Task : Type} (q : DownloadQueue.t Task) : t :=
  {| active := DownloadQueue.activeCount q;
     queued := Z.of_nat (length (DownloadQueue.queue q));
     concurrency := DownloadQueue.concurrency q |}.

End QueueStats.

(** An upload of the file to the chat *)
Definition is_upload (e : Runtime.Effect) : bool :=
  match e with
  | Runtime.SendAudio _ _ _ | Runtime.SendDocument _ _ _ | Runtime.SendVideo _ _ => true
  | _ => false
  end.

(** A computation that leaves the sessions of all chats but [c] as they
    are *)
Definition local_to (c : Z) {A : Type} (m : Runtime.M A) : Prop :=
  forall w other,
    other <> c ->
    Runtime.sessions (snd (m w)) !! other = Runtime.sessions w !! other.

(** A computation that keeps the request of chat [c]: a session stored
    before it is stored after it, for the same user and URL. *)
Definition keeps_request (c : Z) {A : Type} (m : Runtime.M A) : Prop :=
  forall w session,
    Runtime.sessions w !! c = Some session ->
    exists session',
      Runtime.sessions (snd (m w)) !! c = Some session' /\
      session' !! "userId" = session !! "userId" /\
      session' !! "url" = session !! "url".

(** What a pattern matches: [matches r before m after] when [r] matches
    the text [m] found between [before] (reversed) and [after]. *)
Fixpoint reps (P : list ascii -> list ascii -> list ascii -> Prop) (n : nat)
    (before m after_ : list ascii) : Prop :=
  match n with
  | O => m = []
  | S n' =>
    exists m1 m2,
      m = m1 ++ m2 /\ m1 <> [] /\
      P before m1 (m2 ++ after_) /\
      reps P n' (rev m1 ++ before) m2 after_
  end.

Fixpoint matches (r : JS.re) (before m after_ : list ascii) : Prop :=
  match r with
  | JS.Eps => m = []
  | JS.Chr p => exists c, m = [c] /\ p c = true
  | JS.Seq a b =>
    exists m1 m2,
      m = m1 ++ m2 /\ matches a before m1 (m2 ++ after_) /\
      matches b (rev m1 ++ before) m2 after_
  | JS.Alt a b => matches a before m after_ \/ matches b before m after_
  | JS.Rep lo hi a =>
    exists n,
      (lo <= n)%nat /\
      match hi with Some h => (n <= h)%nat | None => True end /\
      reps (matches a) n before m after_
  | JS.Grp _ a => matches a before m after_
  | JS.Bol => m = [] /\ before = []
  | JS.Eol => m = [] /\ after_ = []
  | JS.Wb => m = [] /\ JS.at_word_boundary before after_ = true
  end.

(** A computation whose only use of the queue is to hand jobs to it *)
Definition enqueues_only {A : Type} (m : Runtime.M A) : Prop :=
  forall w, exists jobs,
    Runtime.queue (snd (m w)) =
    DownloadQueue.exec (Runtime.queue w) (DownloadQueue.Enqueue <$> jobs).

(** index.js as a whole: the store and the queue it creates when it
    starts, and the steps it takes afterwards, an update handled or the
    completion of a running job. *)
Module BotRun.

Definition initial (config : Runtime.Config) : Runtime.World :=
  {| Runtime.sessions := SessionStore.new;
     Runtime.queue := DownloadQueue.new (Runtime.MAX_CONCURRENT_DOWNLOADS config);
     Runtime.dirs := ∅;
     Runtime.trace := [] |}.

Inductive Step :=
| Update (entry : Bot.EntryPoint) (ctx : Bot.Ctx)
| Settle (env : Bot.TaskEnv) (retry : Z) (i : nat).

Definition step (config : Runtime.Config) (String_of_number : Q -> string)
    (w : Runtime.World) (s : Step) : Runtime.World :=
  match s with
  | Update entry ctx => snd (Bot.handle config String_of_number entry ctx w)
  | Settle env retry i => snd (Bot.completeJob config env retry i w)
  end.

Definition run (config : Runtime.Config) (String_of_number : Q -> string)
    (steps : list Step) : Runtime.World :=
  foldl (step config String_of_number) (initial config) steps.

End BotRun.

(** An answer to a callback query *)
Definition is_answer (e : Runtime.Effect) : bool :=
  match e with
  | Runtime.AnswerCbQuery _ _ => true
  | _ => false
  end.

(* ===================================================================== *)
(** * Part II: the properties                                             *)
(* ===================================================================== *)

Section QueueProperties.
Import DownloadQueue.
Context {Task : Type}.
Implicit Types (q : DownloadQueue.t Task) (es : list (Event Task)).

Lemma submitted_snoc es e :
  submitted (es ++ [e]) =
  submitted es ++ match e with Enqueue task => [task] | Complete _ _ => [] end.
Proof.
  unfold submitted. rewrite omap_app. destruct e; reflexivity.
Qed.

Lemma queue_inv_new c : queue_inv c [] (@new Task c).
Proof. split; simpl; try reflexivity; try lia; congruence. Qed.

Lemma queue_inv_step c es q e :
  queue_inv c es q -> queue_inv c (es ++ [e]) (step q e).
Proof.
  intros [Hb Hc Hl Hf Hs]. destruct e as [task | i o]; simpl.
  - unfold enqueue. destruct (Z.geb_spec (activeCount q) (concurrency q)) as [Hge | Hlt]; simpl.
    + split; simpl; try assumption.
      * intros _. lia.
      * rewrite submitted_snoc, <- Hs, app_assoc. reflexivity.
    + assert (Hq : queue q = []).
      { destruct (queue q) eqn:E; [reflexivity |].
        assert (activeCount q = concurrency q) by (apply Hf; congruence). lia. }
      split; simpl; try assumption.
      * rewrite length_app; simpl. lia.
      * lia.
      * rewrite Hq. congruence.
      * rewrite submitted_snoc, <- Hs, Hq, !app_nil_r. reflexivity.
  - unfold finish. destruct (running q !! i) as [job |] eqn:Hi.
    + assert (Hlen : (i < length (running q))%nat) by (eapply lookup_lt_Some; eassumption).
      destruct (queue q) as [| next rest] eqn:Hq; simpl.
      * split; simpl; try assumption.
        -- rewrite length_delete by eauto. lia.
        -- lia.
        -- congruence.
        -- rewrite submitted_snoc, <- Hs, !app_nil_r. reflexivity.
      * assert (activeCount q = concurrency q) by (apply Hf; congruence).
        split; simpl; try assumption.
        -- rewrite length_app, length_delete by eauto. simpl. lia.
        -- lia.
        -- intros _. lia.
        -- rewrite submitted_snoc, app_nil_r, <- Hs, <- app_assoc. reflexivity.
    + split; try assumption. rewrite submitted_snoc, app_nil_r. assumption.
Qed.

Lemma queue_inv_exec c es : queue_inv c es (exec (new c) es).
Proof.
  induction es as [| e es IH] using rev_ind.
  - apply queue_inv_new.
  - unfold exec. rewrite foldl_app. simpl. apply queue_inv_step. exact IH.
Qed.

(** C6. On a queue built by [new DownloadQueue(c)], whose bound is
    [C = max(c, 1)], after any sequence of [enqueue] calls and task
    completions: at most [C] tasks are active; [enqueue] starts the task
    at once with position 0 exactly when fewer than [C] tasks are
    active, and otherwise appends it to the wait list and reports its
    1-based place there; a completion, fulfilled or rejected, settles
    the job's promise, releases the slot and starts the head of the
    wait list if there is one; and tasks are started in the order in
    which they were submitted. *)
Theorem queue_bounded_fifo (c : Z) (es : list (Event Task)) :
  let q := exec (new c) es in
  let C := concurrency q in
  C = Z.max c 1 /\
  (0 <= activeCount q <= C /\ activeCount q = Z.of_nat (length (running q))) /\
  started q ++ queue q = submitted es /\
  (forall task,
     let q' := fst (enqueue task q) in
     let tk := snd (enqueue task q) in
     (position tk = 0 <-> activeCount q < C) /\
     if activeCount q <? C
     then position tk = 0 /\ queued tk = false /\
          running q' = running q ++ [task] /\
          started q' = started q ++ [task] /\
          queue q' = queue q /\ activeCount q' = activeCount q + 1
     else queued tk = true /\
          position tk = Z.of_nat (length (queue q)) + 1 /\
          queue q' = queue q ++ [task] /\
          queue q' !! Z.to_nat (position tk - 1) = Some task /\
          running q' = running q /\ started q' = started q /\
          activeCount q' = activeCount q) /\
  (forall i job o,
     running q !! i = Some job ->
     let q' := finish i o q in
     settled q' = settled q ++ [(job, o)] /\
     activeCount q' <= C /\
     match queue q with
     | [] =>
         activeCount q' = activeCount q - 1 /\
         running q' = delete i (running q) /\
         started q' = started q /\ queue q' = []
     | next :: rest =>
         queue q' = rest /\
         running q' = delete i (running q) ++ [next] /\
         started q' = started q ++ [next] /\
         activeCount q' = activeCount q
     end).
Proof.
  intros q C. destruct (queue_inv_exec c es) as [Hb Hc Hl Hf Hs].
  fold q in Hb, Hc, Hl, Hf, Hs. fold C in Hb, Hl, Hf.
  split; [exact Hb |]. split; [split; [lia | exact Hc] |].
  split; [exact Hs |]. split.
  - intros task q' tk. subst q' tk. unfold enqueue. fold C.
    destruct (Z.ltb_spec (activeCount q) C) as [Hlt | Hge].
    + assert (E : (activeCount q >=? C) = false) by lia.
      rewrite E; simpl. repeat split; auto; lia.
    + assert (E : (activeCount q >=? C) = true) by lia.
      rewrite E; simpl. split; [split; lia |].
      repeat split; auto.
      replace (Z.to_nat (Z.of_nat (length (queue q)) + 1 - 1)) with (length (queue q)) by lia.
      rewrite lookup_app_r by lia. rewrite Nat.sub_diag. reflexivity.
  - intros i job o Hi q'. subst q'. unfold finish. rewrite Hi.
    assert (Hlen : (i < length (running q))%nat) by (eapply lookup_lt_Some; eassumption).
    destruct (queue q) as [| next rest] eqn:Hq; simpl.
    + repeat split; auto; lia.
    + assert (activeCount q = C) by (apply Hf; congruence).
      repeat split; auto; lia.
Qed.

End QueueProperties.

(** The completion clause of [queue_bounded_fifo] on a run with bound 1:
    two tasks are submitted, the first completes with a rejection, and
    the second, which waited at position 1, is started. *)
Lemma queue_bounded_fifo_witness :
  let q := DownloadQueue.exec (@DownloadQueue.new nat 1) [DownloadQueue.Enqueue 10%nat; DownloadQueue.Enqueue 20%nat] in
  DownloadQueue.running q !! 0%nat = Some 10%nat /\
  DownloadQueue.running (DownloadQueue.finish 0 DownloadQueue.Rejected q) = [20%nat] /\
  DownloadQueue.queue (DownloadQueue.finish 0 DownloadQueue.Rejected q) = [].
Proof.
  pose proof (queue_bounded_fifo 1 [DownloadQueue.Enqueue 10%nat; DownloadQueue.Enqueue 20%nat]) as H.
  cbv zeta in H. destruct H as (_ & _ & _ & _ & Hfin).
  specialize (Hfin 0%nat 10%nat DownloadQueue.Rejected eq_refl).
  cbv zeta in Hfin. destruct Hfin as (_ & _ & Hq & Hr & _).
  split; [reflexivity |]. split; [exact Hr | exact Hq].
Defined.

Section FormatBytesProperties.
Import JS Downloader.

Lemma kib_pow_pos k : (0 < kib_pow k)%Q.
Proof.
  unfold kib_pow. replace 0%Q with (inject_Z 0) by reflexivity.
  rewrite <- Zlt_Qlt. apply Z.pow_pos_nonneg; lia.
Qed.

Lemma kib_pow_0 : (kib_pow 0 == 1)%Q.
Proof. reflexivity. Qed.

Lemma kib_pow_succ k : (kib_pow (S k) == 1024 * kib_pow k)%Q.
Proof.
  unfold kib_pow. rewrite Nat2Z.inj_succ, Z.pow_succ_r by lia.
  rewrite inject_Z_mult. reflexivity.
Qed.

Lemma scale_spec room : forall (value : Q) (index : nat),
  (0 < value)%Q ->
  exists k : nat,
    (k <= room)%nat /\
    snd (scale room value index) = (index + k)%nat /\
    (fst (scale room value index) == value / kib_pow k)%Q /\
    ((k < room)%nat -> (fst (scale room value index) < 1024)%Q) /\
    ((0 < k)%nat -> (1 <= fst (scale room value index))%Q).
Proof.
  induction room as [| room IH]; intros value index Hpos; simpl.
  - exists 0%nat. repeat split; try lia.
    + rewrite kib_pow_0. field.
  - destruct (Qle_bool 1024 value) eqn:Hge.
    + apply Qle_bool_iff in Hge.
      assert (Hpos' : (0 < value / 1024)%Q).
      { apply Qlt_shift_div_l; [reflexivity |]. rewrite Qmult_0_l. exact Hpos. }
      destruct (IH (value / 1024)%Q (S index) Hpos') as (k & Hk & Hi & Hv & Hlt & Hone).
      exists (S k). split; [lia |]. split; [rewrite Hi; lia |].
      split; [| split].
      * rewrite Hv, kib_pow_succ. field.
        pose proof (kib_pow_pos k) as Hp. intros E. rewrite E in Hp. discriminate.
      * intros Hr. apply Hlt. lia.
      * intros _. destruct k as [| k'].
        -- rewrite Hv, kib_pow_0.
           assert (E : (value / 1024 / 1 == value / 1024)%Q) by field. rewrite E.
           apply Qle_shift_div_l; [reflexivity |]. rewrite Qmult_1_l. exact Hge.
        -- apply Hone. lia.
    + exists 0%nat. simpl. split; [lia |]. split; [lia |].
      split; [rewrite kib_pow_0; field |]. split; [| lia].
      intros _. apply Qnot_le_lt. intros Hle. apply Qle_bool_iff in Hle. congruence.
Qed.

Lemma string_app_assoc (a b c : string) : (a +:+ b) +:+ c = a +:+ b +:+ c.
Proof.
  induction a as [| x a IH]; [reflexivity |].
  change (String x ((a +:+ b) +:+ c) = String x (a +:+ b +:+ c)).
  rewrite IH. reflexivity.
Qed.

Lemma string_of_digit_length (n : Z) :
  0 <= n < 10 -> String.length (string_of_Z n) = 1%nat.
Proof.
  intros H. rewrite <- (Z2Nat.id n) by lia.
  assert (Hk : (Z.to_nat n < 10)%nat) by lia.
  revert Hk. generalize (Z.to_nat n) as k. intros k Hk.
  do 10 (destruct k as [| k]; [reflexivity |]). lia.
Qed.

Lemma toFixed_0 (x : Q) : (0 <= x)%Q -> toFixed 0 x = string_of_Z (round x).
Proof.
  intros H. unfold toFixed. apply Qle_bool_iff in H. rewrite H.
  unfold toFixed_nonneg, round. simpl Z.of_nat. rewrite Z.pow_0_r, Z.div_1_r.
  f_equal. apply Qfloor_comp. change (inject_Z 1) with 1%Q. ring.
Qed.

Lemma toFixed_1 (x : Q) :
  (0 <= x)%Q ->
  toFixed 1 x =
  string_of_Z (round (x * 10) / 10) +:+ "." +:+ string_of_Z (round (x * 10) mod 10).
Proof.
  intros H. unfold toFixed. apply Qle_bool_iff in H. rewrite H.
  unfold toFixed_nonneg, round.
  change (10 ^ Z.of_nat 1)%Z with 10%Z. change (inject_Z 10) with 10%Q.
  set (n := Qfloor (x * 10 + (1 # 2))).
  rewrite string_of_digit_length by (apply Z.mod_pos_bound; lia).
  reflexivity.
Qed.

(** C9 (as amended). For a positive byte count, [formatBytes] divides by
    1024 until the value is below 1024 or the unit is TB, and renders
    the value rounded to an integer when it is at least 10 or the unit
    is B, with one decimal otherwise; 25 MiB is rendered as 25MB. *)
Theorem formatBytes_rendering (bytes : Z) :
  0 < bytes < 2 ^ 53 ->
  exists (value : Q) (index : nat) (unit : string),
    scale 4 (inject_Z bytes) 0 = (value, index) /\
    units !! index = Some unit /\
    (value == inject_Z bytes / inject_Z (1024 ^ Z.of_nat index))%Q /\
    ((index < 4)%nat -> (value < 1024)%Q) /\
    ((0 < index)%nat -> (1 <= value)%Q) /\
    ((10 <= value)%Q \/ index = 0%nat ->
       formatBytes (Some bytes) = Some (string_of_Z (round value) +:+ unit)) /\
    ((value < 10)%Q /\ index <> 0%nat ->
       formatBytes (Some bytes) =
         Some (string_of_Z (round (value * 10) / 10) +:+ "." +:+
               string_of_Z (round (value * 10) mod 10) +:+ unit) /\
       String.length (string_of_Z (round (value * 10) mod 10)) = 1%nat) /\
    formatBytes (Some (25 * 1024 * 1024)) = Some "25MB".
Proof.
  intros [Hpos Hbound].
  assert (HposQ : (0 < inject_Z bytes)%Q).
  { change 0%Q with (inject_Z 0). rewrite <- Zlt_Qlt. exact Hpos. }
  destruct (scale_spec 4 (inject_Z bytes) 0 HposQ) as (k & Hk & Hi & Hv & Hlt & Hone).
  destruct (scale 4 (inject_Z bytes) 0) as [value index] eqn:Hs.
  simpl in Hi, Hv, Hlt, Hone. subst index.
  assert (Hunit : exists unit, units !! k = Some unit).
  { do 5 (destruct k as [| k]; [eexists; reflexivity |]). lia. }
  destruct Hunit as [unit Hunit].
  assert (Hval0 : (0 <= value)%Q).
  { rewrite Hv. apply Qlt_le_weak, Qlt_shift_div_l; [apply kib_pow_pos |].
    rewrite Qmult_0_l. exact HposQ. }
  assert (Hfmt : formatBytes (Some bytes) =
                 Some (toFixed (decimals value k) value +:+ unit)).
  { unfold formatBytes. destruct bytes as [| p | p]; try lia.
    change (length units - 1)%nat with 4%nat. rewrite Hs, Hunit. reflexivity. }
  exists value, k, unit. repeat split; try assumption.
  - intros Hbig. rewrite Hfmt. unfold decimals.
    assert (E : Qle_bool 10 value || (k =? 0)%nat = true).
    { destruct Hbig as [Hbig | ->]; [| apply orb_true_r].
      apply Qle_bool_iff in Hbig. rewrite Hbig. reflexivity. }
    rewrite E, toFixed_0 by assumption. reflexivity.
  - destruct H as [Hsmall Hidx]. rewrite Hfmt. unfold decimals.
    assert (E : Qle_bool 10 value || (k =? 0)%nat = false).
    { apply orb_false_iff. split.
      - destruct (Qle_bool 10 value) eqn:E; [| reflexivity].
        apply Qle_bool_iff in E. exfalso. eapply Qlt_not_le; eassumption.
      - apply Nat.eqb_neq. exact Hidx. }
    rewrite E, toFixed_1 by assumption.
    rewrite !string_app_assoc. reflexivity.
  - apply string_of_digit_length, Z.mod_pos_bound. lia.
Qed.

End FormatBytesProperties.

(** [formatBytes_rendering] at 25 MiB and at 1536 bytes. *)
Lemma formatBytes_rendering_witness :
  0 < 1536 < 2 ^ 53 /\
  exists (value : Q) (index : nat) (unit : string),
    Downloader.scale 4 (inject_Z 1536) 0 = (value, index) /\
    Downloader.units !! index = Some unit.
Proof.
  assert (H : 0 < 1536 < 2 ^ 53) by (split; reflexivity).
  split; [exact H |].
  destruct (formatBytes_rendering 1536 H) as (value & index & unit & Hs & Hu & _).
  exists value, index, unit. split; assumption.
Defined.

(** C9, as stated, fails at 10240 bytes: the scaled value is exactly 10
    at unit KB, which is neither above 10 nor the byte scale, and the
    program renders no decimal where the stated rule asks for one. *)
Lemma formatBytes_exactly_ten :
  exists (value : Q) (index : nat),
    Downloader.scale 4 (inject_Z 10240) 0 = (value, index) /\
    (value == 10)%Q /\ index = 1%nat /\
    Downloader.decimals value index = 0%nat /\
    decimals_as_specified value index = 1%nat /\
    Downloader.formatBytes (Some 10240) = Some "10KB".
Proof.
  eexists _, _. split; [reflexivity |].
  repeat split; reflexivity.
Qed.

Section SelectorProperties.
Import JS Downloader.
Implicit Types (fmt f : Format) (l : list Format) (st : DedupeState).

Lemma keep_type (type_ : Kind) fmt : keep type_ fmt = true -> type fmt = type_.
Proof.
  unfold keep. destruct (kind_eqb (type fmt) type_) eqn:E; simpl; [| discriminate].
  intros _. destruct (type fmt), type_; simpl in E; congruence.
Qed.

Lemma insert_sorted_In {A} (compare : A -> A -> Q) (a x : A) (l : list A) :
  In x (insert_sorted compare a l) -> x = a \/ In x l.
Proof.
  induction l as [| b l IH]; simpl.
  - intros [-> | []]. left; reflexivity.
  - destruct (Qle_bool (compare a b) 0); simpl.
    + intros [-> | H]; [left; reflexivity | right; exact H].
    + intros [-> | H]; [right; left; reflexivity |].
      destruct (IH H) as [-> | H']; [left; reflexivity | right; right; exact H'].
Qed.

Lemma sort_In {A} (compare : A -> A -> Q) (x : A) (l : list A) :
  In x (sort compare l) -> In x l.
Proof.
  induction l as [| a l IH]; simpl; [tauto |].
  intros H. destruct (insert_sorted_In _ _ _ _ H) as [-> | H']; [left; reflexivity |].
  right. apply IH, H'.
Qed.

Lemma list_insert_In {A} (l : list A) (i : nat) (a x : A) :
  In x (<[i := a]> l) -> x = a \/ In x l.
Proof.
  revert i. induction l as [| b l IH]; intros [| i]; simpl; try tauto.
  - intros [-> | H]; [left; reflexivity | right; right; exact H].
  - intros [-> | H]; [right; left; reflexivity |].
    destruct (IH _ H) as [-> | H']; [left; reflexivity | right; right; exact H'].
Qed.

Lemma dedupeStep_In (type_ : Kind) st fmt f :
  In f (fst (dedupeStep type_ st fmt)) -> f = fmt \/ In f (fst st).
Proof.
  destruct st as [deduped keyToIndex]. unfold dedupeStep.
  destruct (keyToIndex !! bucketKey type_ fmt) as [idx |]; simpl.
  - destruct (deduped !! idx) as [existing |]; [| right; assumption].
    match goal with |- context [if ?c then _ else _] => destruct c end; simpl.
    + apply list_insert_In.
    + right; assumption.
  - intros H. apply in_app_or in H as [H | [-> | []]]; [right; exact H | left; reflexivity].
Qed.

Lemma dedupe_fold_In (type_ : Kind) l : forall st f,
  In f (fst (foldl (dedupeStep type_) st l)) -> In f (fst st) \/ In f l.
Proof.
  induction l as [| fmt l IH]; intros st f; simpl; [tauto |].
  intros H. destruct (IH _ _ H) as [H' | H']; [| right; right; exact H'].
  destruct (dedupeStep_In _ _ _ _ H') as [-> | H'']; [right; left; reflexivity | left; exact H''].
Qed.

Lemma dedupe_In (type_ : Kind) l f : In f (dedupe type_ l) -> In f l.
Proof.
  unfold dedupe. intros H. destruct (dedupe_fold_In _ _ _ _ H) as [[] | H']. exact H'.
Qed.

Lemma decorate_format (type_ : Kind) (d : option Q) fmt :
  format (decorate type_ d fmt) = fmt.
Proof. destruct type_; reflexivity. Qed.

(** C8. The selector returns at most six entries, each of the requested
    kind. *)
Theorem selector_at_most_six_of_kind
    (formats_ : list Format) (type_ : Kind) (durationSeconds : option Q) :
  let out := filterWellKnownFormats formats_ type_ durationSeconds in
  (length out <= 6)%nat /\
  Forall (fun c => type (format c) = type_) out.
Proof.
  intros out. subst out. unfold filterWellKnownFormats. split.
  - rewrite length_map, length_firstn. lia.
  - apply Forall_forall. intros c Hc.
    apply list_elem_of_In, in_map_iff in Hc as (fmt & <- & Hin).
    rewrite decorate_format.
    assert (In fmt (dedupe type_
              match type_ with
              | audio => sort compareAudio (List.filter (keep type_) formats_)
              | video => sort compareVideo (List.filter (keep type_) formats_)
              end)) as Hd.
    { apply list_elem_of_In. eapply subseteq_take. apply list_elem_of_In. exact Hin. }
    clear Hin. apply dedupe_In in Hd as Hin.
    assert (In fmt (List.filter (keep type_) formats_)) as Hf
      by (destruct type_; eapply sort_In; exact Hin).
    apply filter_In in Hf as [_ Hk]. apply keep_type, Hk.
Qed.

Lemma dedupe_inv_init (type_ : Kind) : dedupe_inv type_ ([], ∅).
Proof.
  split; simpl.
  - intros key i H. rewrite lookup_empty in H. discriminate.
  - intros i f H. destruct i; discriminate.
Qed.

Lemma dedupe_inv_step (type_ : Kind) st fmt :
  dedupe_inv type_ st -> dedupe_inv type_ (dedupeStep type_ st fmt).
Proof.
  destruct st as [deduped keyToIndex]. intros [Hidx Hkey]. simpl in Hidx, Hkey.
  unfold dedupeStep.
  destruct (keyToIndex !! bucketKey type_ fmt) as [idx |] eqn:Hk.
  - destruct (Hidx _ _ Hk) as (existing & He & Hke). rewrite He.
    match goal with |- context [if ?c then _ else _] => destruct c end;
      [| split; assumption].
    assert (Hlt : (idx < length deduped)%nat) by (eapply lookup_lt_Some; eassumption).
    split; simpl.
    + intros key i Hi. destruct (Hidx _ _ Hi) as (f & Hf & Hkf).
      destruct (decide (i = idx)) as [-> | Hne].
      * exists fmt. split; [apply list_lookup_insert_eq; exact Hlt |].
        assert (f = existing) by congruence. subst f. congruence.
      * exists f. split; [| exact Hkf].
        rewrite list_lookup_insert_ne by congruence. exact Hf.
    + intros i f Hf. destruct (decide (i = idx)) as [-> | Hne].
      * rewrite list_lookup_insert_eq in Hf by exact Hlt.
        assert (f = fmt) by congruence. subst f. exact Hk.
      * rewrite list_lookup_insert_ne in Hf by congruence. apply Hkey, Hf.
  - split; simpl.
    + intros key i Hi. destruct (decide (key = bucketKey type_ fmt)) as [-> | Hne].
      * rewrite lookup_insert_eq in Hi. assert (i = length deduped) by congruence. subst i.
        exists fmt. split; [| reflexivity].
        rewrite lookup_app_r by lia. rewrite Nat.sub_diag. reflexivity.
      * rewrite lookup_insert_ne in Hi by congruence.
        destruct (Hidx _ _ Hi) as (f & Hf & Hkf). exists f. split; [| exact Hkf].
        rewrite lookup_app_l by (eapply lookup_lt_Some; eassumption). exact Hf.
    + intros i f Hf. apply lookup_snoc_Some in Hf as [[Hlt Hf] | [-> ->]].
      * pose proof (Hkey _ _ Hf) as Hi.
        rewrite lookup_insert_ne by congruence. exact Hi.
      * apply lookup_insert_eq.
Qed.

Lemma dedupe_inv_fold (type_ : Kind) l : forall st,
  dedupe_inv type_ st -> dedupe_inv type_ (foldl (dedupeStep type_) st l).
Proof.
  induction l as [| fmt l IH]; intros st H; simpl; [exact H |].
  apply IH, dedupe_inv_step, H.
Qed.

(** An index read from [keyToIndex] is within [deduped]: the loop never
    reads [deduped] out of range. *)
Lemma dedupe_index_bound (type_ : Kind) l key i :
  snd (foldl (dedupeStep type_) ([], ∅) l) !! key = Some i ->
  is_Some (fst (foldl (dedupeStep type_) ([], ∅) l) !! i).
Proof.
  intros H. destruct (dedupe_inv_fold type_ l _ (dedupe_inv_init type_)) as [Hidx _].
  destruct (Hidx _ _ H) as (f & Hf & _). eauto.
Qed.

Lemma dedupe_keys_NoDup (type_ : Kind) l :
  NoDup (bucketKey type_ <$> dedupe type_ l).
Proof.
  unfold dedupe.
  destruct (dedupe_inv_fold type_ l _ (dedupe_inv_init type_)) as [_ Hkey].
  apply NoDup_alt. intros i j key Hi Hj.
  apply list_lookup_fmap_Some in Hi as (f & -> & Hf).
  apply list_lookup_fmap_Some in Hj as (g & Hgk & Hg).
  apply Hkey in Hf. apply Hkey in Hg. rewrite <- Hgk in Hg. congruence.
Qed.

Lemma selector_keys (formats_ : list Format) (type_ : Kind) (d : option Q) :
  exists l,
    (fun c => bucketKey type_ (format c)) <$> filterWellKnownFormats formats_ type_ d =
    take 6 (bucketKey type_ <$> dedupe type_ l).
Proof.
  unfold filterWellKnownFormats. eexists.
  rewrite <- fmap_take. change (@map) with (@fmap list _). rewrite <- list_fmap_compose.
  apply list_fmap_ext. intros i fmt _. simpl. rewrite decorate_format. reflexivity.
Qed.

Lemma nearest_fold_In (kbps : Z) (others : list Z) : forall first,
  In (foldl (fun previous current =>
               if Z.abs (current - kbps) <? Z.abs (previous - kbps)
               then current else previous) first others) (first :: others).
Proof.
  induction others as [| x others IH]; intros first; simpl; [left; reflexivity |].
  destruct (Z.abs (x - kbps) <? Z.abs (first - kbps)).
  - right. apply IH.
  - destruct (IH first) as [H | H]; [left; exact H | right; right; exact H].
Qed.

Lemma nearestAudioBitrate_preset (kbps preset : Z) :
  nearestAudioBitrate kbps = Some preset -> In preset presets.
Proof.
  unfold nearestAudioBitrate. destruct (kbps =? 0); [discriminate |].
  intros H. pose proof (nearest_fold_In kbps (tail presets) 64) as Hin.
  apply (f_equal (default 0)) in H. simpl default in H. rewrite <- H. exact Hin.
Qed.

Lemma determineAudioBitrateKbps_preset fmt (preset : Z) :
  determineAudioBitrateKbps fmt = Some preset -> In preset presets.
Proof.
  unfold determineAudioBitrateKbps.
  match goal with |- context [truthyQ ?r] => destruct (truthyQ r) end; [| discriminate].
  apply nearestAudioBitrate_preset.
Qed.

Lemma preset_truthy (preset : Z) :
  In preset presets -> truthyZ (Some preset) = Some preset.
Proof.
  intros H. unfold presets in H. simpl in H.
  repeat (destruct H as [<- | H]; [reflexivity |]). destruct H.
Qed.

(** C7 (as amended). No two entries of the selector's result share the
    key by which the program deduplicates: for audio, [audio-] followed
    by the nearest preset when a bitrate is declared or found in the
    note, and by the format's id otherwise; for video, the resolution
    string, or the id when the resolution is empty.  Hence no two audio
    entries with a derivable bitrate share a preset, and no two audio
    entries without one share an id. *)
Theorem selector_bucket_keys_distinct
    (formats_ : list Format) (type_ : Kind) (durationSeconds : option Q) :
  let out := filterWellKnownFormats formats_ type_ durationSeconds in
  NoDup ((fun c => bucketKey type_ (format c)) <$> out) /\
  (forall i j a b preset,
     type_ = audio ->
     out !! i = Some a -> out !! j = Some b ->
     determineAudioBitrateKbps (format a) = Some preset ->
     determineAudioBitrateKbps (format b) = Some preset ->
     i = j) /\
  (forall i j a b,
     type_ = video ->
     out !! i = Some a -> out !! j = Some b ->
     (if truthy (resolution (format a)) then resolution (format a) else fmt_id (format a)) =
     (if truthy (resolution (format b)) then resolution (format b) else fmt_id (format b)) ->
     i = j) /\
  (forall fmt,
     bucketKey audio fmt =
       "audio-" +:+ match determineAudioBitrateKbps fmt with
                    | Some preset => string_of_Z preset
                    | None => fmt_id fmt
                    end /\
     (forall preset, determineAudioBitrateKbps fmt = Some preset -> In preset presets) /\
     bucketKey video fmt = if truthy (resolution fmt) then resolution fmt else fmt_id fmt) /\
  (forall i j a b,
     type_ = audio ->
     out !! i = Some a -> out !! j = Some b ->
     determineAudioBitrateKbps (format a) = None ->
     determineAudioBitrateKbps (format b) = None ->
     fmt_id (format a) = fmt_id (format b) ->
     i = j).
Proof.
  intros out.
  assert (Hnd : NoDup ((fun c => bucketKey type_ (format c)) <$> out)).
  { subst out. destruct (selector_keys formats_ type_ durationSeconds) as [l ->].
    eapply sublist_NoDup; [apply dedupe_keys_NoDup | apply sublist_take]. }
  split; [exact Hnd |].
  assert (Hinj : forall i j a b,
            out !! i = Some a -> out !! j = Some b ->
            bucketKey type_ (format a) = bucketKey type_ (format b) -> i = j).
  { intros i j a b Ha Hb Hk.
    eapply (proj1 (NoDup_alt _) Hnd i j (bucketKey type_ (format a))).
    - rewrite list_lookup_fmap, Ha. reflexivity.
    - rewrite list_lookup_fmap, Hb. simpl. congruence. }
  split.
  - intros i j a b preset -> Ha Hb Hpa Hpb. apply (Hinj i j a b Ha Hb).
    unfold bucketKey. rewrite Hpa, Hpb.
    rewrite (preset_truthy _ (determineAudioBitrateKbps_preset _ _ Hpa)). reflexivity.
  - split; [intros i j a b -> Ha Hb Hk; apply (Hinj i j a b Ha Hb); exact Hk |].
    split.
    + intros fmt. split; [| split; [apply determineAudioBitrateKbps_preset | reflexivity]].
      unfold bucketKey. destruct (determineAudioBitrateKbps fmt) as [preset |] eqn:Hp;
        [| reflexivity].
      rewrite (preset_truthy _ (determineAudioBitrateKbps_preset _ _ Hp)). reflexivity.
    + intros i j a b -> Ha Hb Hna Hnb Hid. apply (Hinj i j a b Ha Hb).
      unfold bucketKey. rewrite Hna, Hnb. cbn [truthyZ]. rewrite Hid. reflexivity.
Qed.

End SelectorProperties.

(** [selector_bucket_keys_distinct] on two audio formats whose notes
    give 128k and 130k: both fall under the preset 128 and one entry is
    returned. *)
Lemma selector_bucket_keys_distinct_witness :
  let out := Downloader.filterWellKnownFormats
               [listed "140" "m4a" "128k"; listed "250" "webm" "130k"]
               Downloader.audio None in
  exists a,
    out = [a] /\
    Downloader.determineAudioBitrateKbps (Downloader.format a) = Some 128 /\
    NoDup ((fun c => Downloader.bucketKey Downloader.audio (Downloader.format c)) <$> out) /\
    (forall j b,
       out !! j = Some b ->
       Downloader.determineAudioBitrateKbps (Downloader.format b) = Some 128 ->
       0%nat = j).
Proof.
  intros out.
  destruct (selector_bucket_keys_distinct
              [listed "140" "m4a" "128k"; listed "250" "webm" "130k"]
              Downloader.audio None) as (Hnd & Haudio & _).
  eexists. split; [vm_compute; reflexivity |]. split; [reflexivity |].
  split; [exact Hnd |].
  intros j b Hb Hp. exact (Haudio 0%nat j _ b 128 eq_refl eq_refl Hb eq_refl Hp).
Defined.

(** C7, as stated, fails on two audio formats without a derivable
    bitrate: both are kept, both have the same (absent) preset, and both
    are offered as 192 kbps. *)
Lemma selector_unrated_audio_kept :
  exists a b : Downloader.Candidate,
    Downloader.filterWellKnownFormats [unrated "140" "m4a"; unrated "251" "webm"]
      Downloader.audio None = [a; b] /\
    Downloader.fmt_id (Downloader.format a) = "140" /\
    Downloader.fmt_id (Downloader.format b) = "251" /\
    bucketKey_as_specified Downloader.audio (Downloader.format a) =
    bucketKey_as_specified Downloader.audio (Downloader.format b) /\
    Downloader.displayLabel a = "MP3 192 kbps" /\
    Downloader.displayLabel b = "MP3 192 kbps".
Proof.
  eexists _, _. split; [vm_compute; reflexivity |].
  repeat split; reflexivity.
Qed.

Section ProbeProperties.
Import JS Downloader.
Variable JSON_parse : string -> option Json.



End ProbeProperties.



Section SessionStoreProperties.
Import SessionStore.

(** C10. [update] on a chat without a session does not fail and does not
    leave the store as it was: it stores the update merged into an
    empty object, and [get] then returns that partial session. *)
Theorem update_missing_session_creates
    (sessions : gmap Z (gmap string Value)) (chatId : Z) (updater : Updater) :
  sessions !! chatId = None ->
  let updated :=
    match updater with
    | ByFunction f => f ∅
    | ByObject o => o
    end in
  let sessions' := fst (update chatId updater sessions) in
  snd (update chatId updater sessions) = Some updated /\
  get chatId sessions' = Some updated /\
  updated = spread ∅ updated /\
  sessions' = <[chatId := updated]> sessions /\
  sessions' <> sessions /\
  (forall other, other <> chatId -> get other sessions' = get other sessions).
Proof.
  intros Hnone updated sessions'. subst sessions'. unfold update, get, spread. simpl.
  rewrite Hnone. simpl. fold updated. rewrite (right_id ∅ (∪) updated).
  rewrite lookup_insert_eq. repeat split.
  - intros E. apply (f_equal (fun m => m !! chatId)) in E.
    rewrite lookup_insert_eq, Hnone in E. discriminate.
  - intros other Hne. apply lookup_insert_ne. congruence.
Qed.

End SessionStoreProperties.

(** [update_missing_session_creates] after a cancel: the store is empty
    and the bot's late update brings back a session holding only
    [formatMessageId]. *)
Lemma update_missing_session_creates_witness :
  SessionStore.new !! 7 = None /\
  SessionStore.get 7 (fst (SessionStore.update 7
     (SessionStore.ByObject {[ "formatMessageId" := SessionStore.Num 42 ]}) SessionStore.new)) =
  Some {[ "formatMessageId" := SessionStore.Num 42 ]}.
Proof.
  split; [reflexivity |].
  exact (proj1 (proj2 (update_missing_session_creates SessionStore.new 7
     (SessionStore.ByObject {[ "formatMessageId" := SessionStore.Num 42 ]}) eq_refl))).
Defined.

Section BotProperties.
Import JS Downloader SessionStore Runtime DownloaderIO Bot.
Variable config : Config.
Variable String_of_number : Q -> string.

Lemma spread_singleton (o : gmap string Value) (k : string) (v : Value) :
  spread o {[ k := v ]} = <[k := v]> o.
Proof. unfold spread. symmetry. apply insert_union_singleton_l. Qed.

(** C5. When the owner picks a candidate whose known estimated size
    exceeds the configured maximum, the handler returns without
    touching the queue, the stored session keeps its candidate list (and
    its owner and URL), and the same list is offered again. *)
Theorem oversize_choice_not_queued
    (env : FormatEnv) (ctx : Ctx) (type_ : Kind) (index : nat) (w : World)
    (session : gmap string Value) (candidates : list Candidate)
    (selectedFormat : Candidate) (estimate : Z) :
  isAuthorized config (from_id ctx) = true ->
  sessions w !! chat_id ctx = Some session ->
  same_user (session !! "userId") (from_id ctx) = true ->
  session !! "formats" = Some (Formats candidates) ->
  candidates !! index = Some selectedFormat ->
  or_else (truthyZ (estimatedSizeBytes selectedFormat))
          (truthyZ (approxSize (format selectedFormat))) = Some estimate ->
  estimate > MAX_FILE_SIZE_BYTES config ->
  let w' := snd (onFormat config String_of_number env ctx type_ index w) in
  fst (onFormat config String_of_number env ctx type_ index w) = Returned tt /\
  queue w' = queue w /\
  (exists session',
     sessions w' !! chat_id ctx = Some session' /\
     session' !! "formats" = Some (Formats candidates) /\
     session' !! "userId" = session !! "userId" /\
     session' !! "url" = session !! "url" /\
     session' !! "formatMessageId" = Some (Num (retryMessage env))) /\
  (exists before,
     trace w' = before ++
       [Reply (chat_id ctx)
          match type_ with
          | audio => "Pick a smaller audio bitrate:"
          | video => "Pick a smaller video quality:"
          end
          (Some (buildFormatKeyboard candidates type_))]).
Proof.
  intros Hauth Hs Huser Hformats Hsel Hest Hbig w'. subst w'.
  assert (Hgt : (estimate >? MAX_FILE_SIZE_BYTES config) = true) by lia.
  destruct candidates as [| c cs]; [destruct index; discriminate |].
  unfold onFormat. rewrite Hauth.
  cbn [negb bind sessions_get with_sessions sessions queue dirs trace].
  unfold SessionStore.get.
  rewrite Hs. cbn beta iota. rewrite Huser. cbn [negb]. cbn beta iota.
  rewrite Hformats. cbn [formats_of mbind option_bind]. rewrite Hsel.
  unfold TELEGRAM_FILE_LIMIT_BYTES. rewrite Hest, Hgt.
  cbn [default].
  destruct (message_id_of (session !! "formatMessageId")) as [m |];
    cbn [bind emit reply sessions_update with_sessions sessions queue dirs trace fst snd
         SessionStore.update ret chat_id default from_option id];
    rewrite ?spread_singleton, ?lookup_insert_eq, ?Hs; cbn [default from_option id];
    (split; [reflexivity |]); (split; [reflexivity |]);
    (split; [| eexists; reflexivity]);
    eexists; (split; [reflexivity |]);
    rewrite ?lookup_insert_eq, ?lookup_insert_ne by discriminate;
    repeat split; try reflexivity; exact Hformats.
Qed.


Lemma isAuthorized_from (userId : option Z) :
  isAuthorized config userId = true -> exists u, userId = Some u.
Proof.
  unfold isAuthorized. destruct (decide _); [discriminate |].
  destruct userId as [u |]; [eauto | discriminate].
Qed.

Lemma handleUnauthorized_run (ctx : Ctx) (w : World) :
  handleUnauthorized ctx w =
  (Returned tt,
   after w (Log warn "Unauthorized access attempt" ::
            if chat_private ctx
            then [Reply (chat_id ctx) "You are not allowed to use this bot." None]
            else [])).
Proof.
  unfold handleUnauthorized, after.
  destruct (chat_private ctx); run_effects; rewrite <- ?app_assoc; reflexivity.
Qed.

(** A link from an allowed identity replaces the session of the chat. *)
Lemma onText_replaces
    (env : TextEnv) (ctx : Ctx) (w : World) (user : Z) (url : string) :
  isAuthorized config (from_id ctx) = true ->
  from_id ctx = Some user ->
  sanitizeUrl (text ctx) = Some url ->
  exists session',
    sessions (snd (onText config env ctx w)) !! chat_id ctx = Some session' /\
    session' !! "userId" = Some (Num user) /\
    session' !! "url" = Some (Str url) /\
    session' !! "createdAt" = Some (Num (now env)) /\
    session' !! "formats" = None.
Proof.
  intros Hauth Huser Hurl.
  unfold onText. rewrite Hauth, Huser, Hurl.
  cbn [negb bind sessions_get with_sessions sessions queue dirs trace].
  unfold SessionStore.get.
  destruct (sessions w !! chat_id ctx) as [existing |];
    [destruct (message_id_of (existing !! "formatMessageId"));
     destruct (message_id_of (existing !! "selectionMessageId")) | ];
    cbn [bind emit reply ret sessions_create sessions_update sessions_delete with_sessions
         sessions queue dirs trace fst snd SessionStore.update SessionStore.create
         SessionStore.delete];
    rewrite !lookup_insert_eq; cbn [default from_option id];
    (eexists; split; [reflexivity |]);
    unfold spread; repeat split; simplify_map_eq; reflexivity.
Qed.

(** C1 (as amended). The choice of a kind and the choice of a format
    check the owner: from an allowed identity that is not the session's
    owner they return after one fixed answer, and the store, the queue
    and the directories are as before.  From an identity that is not
    allowed, the submission of a URL, both choices and the cancel
    command leave the store as it was.  The submission of a URL and the
    cancel command do not check the owner: from an allowed identity the
    first replaces the session of the chat by a new one owned by the
    submitter, and the second deletes it. *)
Theorem owner_checked_on_choices :
  (forall (env : TypeEnv) (ctx : Ctx) (type_ : Kind) (w : World),
     isAuthorized config (from_id ctx) = true ->
     owner_mismatch w ctx ->
     onType config env ctx type_ w =
       (Returned tt,
        after w [AnswerCbQuery (Some "No active request. Send a link first.") true])) /\
  (forall (env : FormatEnv) (ctx : Ctx) (type_ : Kind) (index : nat) (w : World),
     isAuthorized config (from_id ctx) = true ->
     owner_mismatch w ctx ->
     onFormat config String_of_number env ctx type_ index w =
       (Returned tt,
        after w [AnswerCbQuery (Some "Request expired. Send the link again.") true])) /\
  (forall (entry : EntryPoint) (ctx : Ctx) (w : World),
     isAuthorized config (from_id ctx) = false ->
     entry <> CancelButton ->
     let w' := snd (handle config String_of_number entry ctx w) in
     sessions w' = sessions w /\ queue w' = queue w /\ dirs w' = dirs w) /\
  (forall (env : TextEnv) (ctx : Ctx) (w : World) (user : Z) (url : string),
     isAuthorized config (from_id ctx) = true ->
     from_id ctx = Some user ->
     sanitizeUrl (text ctx) = Some url ->
     let w' := snd (onText config env ctx w) in
     exists session',
       sessions w' !! chat_id ctx = Some session' /\
       session' !! "userId" = Some (Num user) /\
       session' !! "url" = Some (Str url) /\
       session' !! "createdAt" = Some (Num (now env)) /\
       session' !! "formats" = None) /\
  (forall (ctx : Ctx) (w : World),
     isAuthorized config (from_id ctx) = true ->
     sessions (snd (onCancelCommand config ctx w)) = base.delete (chat_id ctx) (sessions w)).
Proof.
  split; [| split; [| split; [| split]]].
  - intros env ctx type_ w Hauth (session & Hs & Hu).
    unfold onType. rewrite Hauth.
    cbn [negb bind sessions_get with_sessions sessions queue dirs trace].
    unfold SessionStore.get. rewrite Hs. cbn beta iota. rewrite Hu. reflexivity.
  - intros env ctx type_ index w Hauth (session & Hs & Hu).
    unfold onFormat. rewrite Hauth.
    cbn [negb bind sessions_get with_sessions sessions queue dirs trace].
    unfold SessionStore.get. rewrite Hs. cbn beta iota. rewrite Hu. reflexivity.
  - intros entry ctx w Hauth Hentry w'. subst w'.
    destruct entry as [env | env type_ | env type_ index | |];
      [| | | | congruence]; unfold handle.
    + unfold onText. rewrite Hauth. cbn [negb]. rewrite handleUnauthorized_run.
      repeat split.
    + unfold onType. rewrite Hauth. cbn [negb bind emit]. rewrite handleUnauthorized_run.
      repeat split.
    + unfold onFormat. rewrite Hauth. cbn [negb bind emit]. rewrite handleUnauthorized_run.
      repeat split.
    + unfold onCancelCommand. rewrite Hauth. cbn [negb]. rewrite handleUnauthorized_run.
      repeat split.
  - intros env ctx w user url Hauth Huser Hurl w'. subst w'.
    apply onText_replaces; assumption.
  - intros ctx w Hauth. unfold onCancelCommand. rewrite Hauth. reflexivity.
Qed.

(** The inline cancel button checks nothing: whoever presses it, the
    session of the chat is deleted. *)
Lemma cancel_button_deletes_unchecked (ctx : Ctx) (w : World) :
  sessions (snd (onCancelAction ctx w)) = base.delete (chat_id ctx) (sessions w).
Proof. reflexivity. Qed.

Lemma jobSettled_rejected (retry : Z) (job : Job) (e : Error) (w : World) :
  jobSettled retry job (Thrown e) w =
  (Returned tt,
   after w [Log error_ "Download job failed";
            EditMessageText (j_chat job) (j_status job)
              "Failed. Please try another format or send a new link."]).
Proof.
  unfold jobSettled, onRejected, after. run_effects. rewrite <- app_assoc. reflexivity.
Qed.

(** C2, on the code: when the promise of a job rejects, the program
    logs the error and edits the status message to a generic failure
    text, and the session store is as it was before: the session of the
    conversation is still stored.  So it is for the job of chat 7 when
    yt-dlp exits with code 1. *)
Theorem rejected_job_keeps_session :
  (forall (retry : Z) (job : Job) (e : Error) (w : World),
     let w' := snd (jobSettled retry job (Thrown e) w) in
     sessions w' = sessions w /\
     trace w' = trace w ++
       [Log error_ "Download job failed";
        EditMessageText (j_chat job) (j_status job)
          "Failed. Please try another format or send a new link."]) /\
  (let w := Sample.downloading in
   let w' := snd (completeJob Sample.config (Sample.taskEnv 1 [] Sent) 130 0 w) in
   DownloadQueue.settled (queue w') = [(Sample.job, DownloadQueue.Rejected)] /\
   sessions w' !! 7 = Some (Sample.session [Sample.small]) /\
   last (trace w') =
     Some (EditMessageText 7 105 "Failed. Please try another format or send a new link.")).
Proof.
  split.
  - intros retry job e w w'. subst w'. rewrite jobSettled_rejected. split; reflexivity.
  - cbv zeta. repeat split; reflexivity.
Qed.


(** Once [downloadMedia] has returned, the task attempts the removal of
    the working directory on every path, and whether the removal
    succeeds does not change what the task returns or throws. *)
Lemma task_cleans_up_after_download
    (env : TaskEnv) (job : Job) (w w1 : World) (download : DownloadResult) :
  downloadMedia config (downloadEnv env)
    (j_url job) (fmt_id (format (j_format job))) (j_type job) (j_title job)
    (updateStatus (j_chat job) (j_status job)) (nonempty (targetFileName (j_format job)))
    (after w [EditMessageText (j_chat job) (j_status job) "Preparing download..."]) =
    (Returned download, w1) ->
  (exists added,
     trace (snd (task config env job w)) = trace w1 ++ added /\
     In (Remove (workingDir download)) added) /\
  fst (task config env job w) =
  fst (task config
         {| downloadEnv := downloadEnv env; sendOutcome := sendOutcome env;
            removeOk := negb (removeOk env) |} job w).
Proof.
  intros Hdl. unfold updateStatus, emit, after in Hdl. cbn [sessions queue dirs trace] in Hdl.
  unfold task, try_finally. run_effects. cbn [downloadEnv sendOutcome removeOk].
  rewrite !Hdl.
  unfold cleanup, try_catch.
  destruct (size download >? TELEGRAM_FILE_LIMIT_BYTES config).
  - destruct (removeOk env); run_effects;
      (split; [rewrite <- !app_assoc; eexists; split; [reflexivity | simpl; tauto]
              | reflexivity]).
  - destruct (sendOutcome env) as [| e]; [| destruct (isTelegramEntityTooLarge e)];
      destruct (removeOk env); run_effects;
      (split; [rewrite <- !app_assoc; eexists; split; [reflexivity | simpl; tauto]
              | reflexivity]).
Qed.

(** C3, on the code: when [downloadMedia] has created the working
    directory and then throws, because the yt-dlp binary is missing,
    because the subprocess fails, or because no output file is found,
    the task throws as well, the directory is still there, and no
    removal was attempted. *)
Theorem failed_download_leaves_directory (env : TaskEnv) (job : Job) (w : World) :
  ensureDirOk (downloadEnv env) = true ->
  binaryExists (downloadEnv env) = false \/
  spawnResult (downloadEnv env) <> Exited 0 \/
  (exists files, readdirFiles (downloadEnv env) = Some files /\
                 pickDownloadedFile files = None) ->
  let dir := path_join (DOWNLOAD_TEMP_DIR config) (jobId (downloadEnv env)) in
  let w' := snd (task config env job w) in
  (exists e, fst (task config env job w) = Thrown e) /\
  dir ∈ dirs w' /\
  exists added, trace w' = trace w ++ added /\ existsb is_remove added = false.
Proof.
  intros Hmkdir Hfail dir w'. subst dir w'.
  unfold task, try_finally, downloadMedia, ensureDir, runYtDlp, runCommand, readdir.
  rewrite Hmkdir.
  destruct (binaryExists (downloadEnv env)) eqn:Hbin.
  - destruct (spawnResult (downloadEnv env)) as [| exitCode] eqn:Hspawn.
    + run_effects. split; [eauto |]. split; [apply elem_of_union_l, elem_of_singleton; reflexivity |].
      rewrite <- !app_assoc. eexists. split; reflexivity.
    + destruct exitCode as [| p | p].
      * destruct Hfail as [Hfail | [Hfail | (files & Hfiles & Hpick)]];
          [discriminate | congruence |].
        rewrite Hfiles. run_effects. rewrite Hpick. cbn [mbind option_bind]. run_effects.
        split; [eauto |]. split; [apply elem_of_union_l, elem_of_singleton; reflexivity |].
        rewrite <- !app_assoc. eexists. split; reflexivity.
      * run_effects. split; [eauto |]. split; [apply elem_of_union_l, elem_of_singleton; reflexivity |].
        rewrite <- !app_assoc. eexists. split; reflexivity.
      * run_effects. split; [eauto |]. split; [apply elem_of_union_l, elem_of_singleton; reflexivity |].
        rewrite <- !app_assoc. eexists. split; reflexivity.
  - run_effects. split; [eauto |]. split; [apply elem_of_union_l, elem_of_singleton; reflexivity |].
    rewrite <- !app_assoc. eexists. split; reflexivity.
Qed.

End BotProperties.

(** [oversize_choice_not_queued] for an estimate of 2,000,000,000 bytes
    and a maximum of 1900 MB, that is 1,992,294,400 bytes. *)
Lemma oversize_choice_not_queued_witness :
  Runtime.MAX_FILE_SIZE_BYTES Sample.config = 1992294400 /\
  let env := {| Bot.retryMessage := 104; Bot.statusMessage := 105 |} in
  let w := Sample.world [Sample.large] in
  let w' := snd (Bot.onFormat Sample.config Sample.show env (Sample.ctx 1 "") Downloader.video 0 w) in
  Runtime.queue w' = Runtime.queue w /\
  DownloadQueue.started (Runtime.queue w') = [] /\
  exists session',
    Runtime.sessions w' !! 7 = Some session' /\
    session' !! "formats" = Some (SessionStore.Formats [Sample.large]).
Proof.
  split; [reflexivity |]. intros env w w'.
  destruct (oversize_choice_not_queued Sample.config Sample.show env (Sample.ctx 1 "")
              Downloader.video 0 w (Sample.session [Sample.large]) [Sample.large]
              Sample.large 2000000000)
    as (_ & Hq & (session' & Hs & Hf & _) & _);
    try reflexivity.
  split; [exact Hq |]. split; [reflexivity |].
  exists session'. split; assumption.
Defined.


(** [owner_checked_on_choices] in chat 7, whose session user 1 owns:
    user 2 picks a kind and is turned away; user 2 sends a link and
    becomes the owner of a new session. *)
Lemma owner_checked_on_choices_witness :
  let w := Sample.world [Sample.small] in
  let env := {| Bot.loadingMessage := 110; Bot.probe := Downloader.Failed "unused";
                Bot.formatMessage := 111 |} in
  Bot.isAuthorized Sample.config (Some 2) = true /\
  owner_mismatch w (Sample.ctx 2 "") /\
  Bot.onType Sample.config env (Sample.ctx 2 "") Downloader.audio w =
    (Runtime.Returned tt,
     after w [Runtime.AnswerCbQuery (Some "No active request. Send a link first.") true]) /\
  exists session',
    Runtime.sessions
      (snd (Bot.onText Sample.config {| Bot.now := 2000; Bot.selectionMessage := 120 |}
              (Sample.ctx 2 "https://youtu.be/xyz") w)) !! 7 = Some session' /\
    session' !! "userId" = Some (SessionStore.Num 2).
Proof.
  intros w env.
  assert (Hauth : Bot.isAuthorized Sample.config (Some 2) = true) by reflexivity.
  assert (Hmis : owner_mismatch w (Sample.ctx 2 "")).
  { exists (Sample.session [Sample.small]). split; reflexivity. }
  pose proof (owner_checked_on_choices Sample.config Sample.show) as (Hkind & _ & _ & Hurl & _).
  split; [exact Hauth |]. split; [exact Hmis |]. split.
  - exact (Hkind env (Sample.ctx 2 "") Downloader.audio w Hauth Hmis).
  - destruct (Hurl {| Bot.now := 2000; Bot.selectionMessage := 120 |}
                (Sample.ctx 2 "https://youtu.be/xyz") w 2 "https://youtu.be/xyz"
                Hauth eq_refl eq_refl) as (session' & Hs & Hu & _).
    exists session'. split; assumption.
Defined.

(** C1, as stated, fails for the submission of a URL: user 2, who is
    allowed but does not own the session of chat 7, sends a link, and
    the stored session, with its owner and its candidates, is replaced. *)
Lemma url_submission_replaces_session :
  let w := Sample.world [Sample.small] in
  let acting := Sample.ctx 2 "https://youtu.be/xyz" in
  let entry := Bot.SubmitUrl {| Bot.now := 2000; Bot.selectionMessage := 120 |} in
  owner_mismatch w acting /\
  exists before after_,
    Runtime.sessions w !! 7 = Some before /\
    Runtime.sessions (snd (Bot.handle Sample.config Sample.show entry acting w)) !! 7 =
      Some after_ /\
    before !! "userId" = Some (SessionStore.Num 1) /\
    after_ !! "userId" = Some (SessionStore.Num 2) /\
    before !! "formats" = Some (SessionStore.Formats [Sample.small]) /\
    after_ !! "formats" = None.
Proof.
  intros w acting entry. split.
  - exists (Sample.session [Sample.small]). split; reflexivity.
  - destruct (onText_replaces Sample.config {| Bot.now := 2000; Bot.selectionMessage := 120 |}
                acting w 2 "https://youtu.be/xyz" eq_refl eq_refl eq_refl)
      as (after_ & Hs & Hu & _ & _ & Hf).
    exists (Sample.session [Sample.small]), after_.
    split; [reflexivity |]. split; [exact Hs |].
    split; [reflexivity |]. split; [exact Hu |]. split; [reflexivity | exact Hf].
Qed.

(** [failed_download_leaves_directory] for the job of chat 7 when yt-dlp
    exits with code 1: the working directory stays, and the trace of
    the task holds no removal. *)
Lemma failed_download_leaves_directory_witness :
  let env := Sample.taskEnv 1 [] Bot.Sent in
  let w' := snd (Bot.task Sample.config env Sample.job Sample.downloading) in
  DownloaderIO.ensureDirOk (Bot.downloadEnv env) = true /\
  DownloaderIO.spawnResult (Bot.downloadEnv env) <> DownloaderIO.Exited 0 /\
  "/tmp/yttelbot/3f0c" ∈ Runtime.dirs w' /\
  exists added,
    Runtime.trace w' = Runtime.trace Sample.downloading ++ added /\
    existsb is_remove added = false.
Proof.
  intros env w'.
  assert (Hmkdir : DownloaderIO.ensureDirOk (Bot.downloadEnv env) = true) by reflexivity.
  assert (Hexit : DownloaderIO.spawnResult (Bot.downloadEnv env) <> DownloaderIO.Exited 0)
    by discriminate.
  destruct (failed_download_leaves_directory Sample.config env Sample.job Sample.downloading
              Hmkdir (or_intror (or_introl Hexit))) as (_ & Hdir & Hadded).
  split; [exact Hmkdir |]. split; [exact Hexit |]. split; [exact Hdir | exact Hadded].
Defined.

(* ===================================================================== *)
(** * Part III: further properties of the code                           *)
(* ===================================================================== *)

(** A handler is here what it is in Part I: one computation on the
    world, run to its end with no other handler in between.  What is
    said below of one run of a handler is to be read so.  The
    properties of the queue and the isolation of the chats do not
    depend on it: the queue is only used in steps that do not wait. *)

Section RegexProperties.
Import JS.

Lemma run_Rep {R} (lo : nat) (hi : option nat) (a : re) (k : cont R) before rest cs :
  run (Rep lo hi a) before rest cs k = rep_loop lo hi a k (S (length rest)) 0 before rest cs.
Proof. reflexivity. Qed.

Lemma lead_skip (p : ascii -> bool) l : lead p l ++ skip p l = l.
Proof. induction l as [| c l IH]; simpl; [reflexivity |]. destruct (p c); simpl; congruence. Qed.

Lemma skip_length (p : ascii -> bool) l : (length (skip p l) <= length l)%nat.
Proof. induction l as [| c l IH]; simpl; [lia |]. destruct (p c); simpl; lia. Qed.

(** A class repeated, once the minimum is met, takes the longest prefix
    when the continuation accepts everything. *)
Lemma rep_loop_class {R} (p : ascii -> bool) (g : list ascii -> list ascii -> caps -> R)
    (fuel : nat) : forall n before rest cs,
  (length rest < fuel)%nat ->
  rep_loop 1 None (Chr p) (fun b r c => Some (g b r c)) fuel (S n) before rest cs =
  Some (g (rev (lead p rest) ++ before) (skip p rest) cs).
Proof.
  induction fuel as [| fuel IH]; intros n before rest cs Hfuel; [lia |].
  cbn [rep_loop Nat.leb]. cbn [run].
  destruct rest as [| c rest]; [reflexivity |].
  cbn [lead skip]. destruct (p c) eqn:Hp; [| reflexivity].
  assert (E : (length rest <? length (c :: rest))%nat = true)
    by (apply Nat.ltb_lt; simpl; lia).
  rewrite E. fold (@rep_loop R 1 None (Chr p) (fun b r c => Some (g b r c))).
  rewrite IH by (simpl in Hfuel; lia).
  simpl rev. rewrite <- app_assoc. reflexivity.
Qed.

Lemma match_here_plus (p : ascii -> bool) before rest :
  match_here (plus (Chr p)) before rest =
  match rest with
  | c :: _ =>
    if p c
    then Some {| f_before := rev (lead p rest) ++ before;
                 f_after := skip p rest; f_caps := [] |}
    else None
  | [] => None
  end.
Proof.
  unfold match_here, plus. rewrite run_Rep.
  cbn [rep_loop Nat.leb]. cbn [run].
  destruct rest as [| c rest]; [reflexivity |].
  destruct (p c) eqn:Hp; [| reflexivity].
  assert (E : (length rest <? length (c :: rest))%nat = true)
    by (apply Nat.ltb_lt; simpl; lia).
  rewrite E.
  fold (@rep_loop found 1 None (Chr p)
          (fun b r c => Some {| f_before := b; f_after := r; f_caps := c |})).
  rewrite (rep_loop_class p (fun b r c => {| f_before := b; f_after := r; f_caps := c |}))
    by (simpl; lia).
  cbn [lead skip]. rewrite Hp. simpl rev. rewrite <- app_assoc. reflexivity.
Qed.


Lemma chars_str (l : list ascii) : chars (str l) = l.
Proof. apply list_ascii_of_string_of_list_ascii. Qed.

Lemma str_chars (s : string) : str (chars s) = s.
Proof. apply string_of_list_ascii_of_string. Qed.

Lemma length_str (l : list ascii) : String.length (str l) = length l.
Proof. induction l as [| c l IH]; simpl; congruence. Qed.

Lemma str_app (a b : list ascii) : str (a ++ b) = str a +:+ str b.
Proof.
  induction a as [| c a IH]; [reflexivity |].
  change (String c (str (a ++ b)) = String c (str a +:+ str b)). f_equal. exact IH.
Qed.

Lemma length_chars (s : string) : length (chars s) = String.length s.
Proof. rewrite <- (str_chars s) at 2. symmetry. apply length_str. Qed.

Lemma Forall_skip (Q : ascii -> Prop) (p : ascii -> bool) l :
  Forall Q l -> Forall Q (skip p l).
Proof.
  induction 1 as [| c l Hc Hl IH]; simpl; [constructor |].
  destruct (p c); [exact IH | constructor; assumption].
Qed.

Lemma Forall_drop_spaces (Q : ascii -> Prop) l : Forall Q l -> Forall Q (drop_spaces l).
Proof.
  induction 1 as [| c l Hc Hl IH]; simpl; [constructor |].
  destruct (is_space c); [exact IH | constructor; assumption].
Qed.

Lemma Forall_trimEnd (Q : ascii -> Prop) s :
  Forall Q (chars s) -> Forall Q (chars (trimEnd s)).
Proof.
  intros H. unfold trimEnd. rewrite chars_str.
  apply Forall_rev, Forall_drop_spaces, Forall_rev, H.
Qed.

Lemma Forall_trim (Q : ascii -> Prop) s :
  Forall Q (chars s) -> Forall Q (chars (trim s)).
Proof.
  intros H. unfold trim, trimStart. rewrite chars_str.
  apply Forall_drop_spaces, Forall_trimEnd, H.
Qed.

(** What [s.replace(/[class]+/g, by)] leaves: the characters of [by] and
    the characters of [s] outside the class. *)
Lemma replace_go_Forall (p : ascii -> bool) (Q : ascii -> Prop) (by_ : list ascii)
    (fuel : nat) : forall before rest,
  (length rest < fuel)%nat ->
  Forall Q by_ ->
  Forall (fun c => p c = false -> Q c) rest ->
  Forall Q (replace_go fuel (plus (Chr p)) by_ before rest).
Proof.
  induction fuel as [| fuel IH]; intros before rest Hfuel Hby Hrest; [lia |].
  cbn [replace_go]. destruct rest as [| c rest]; [constructor |].
  rewrite match_here_plus. inversion Hrest as [| ? ? Hc Hrest']; subst.
  destruct (p c) eqn:Hp.
  - cbn [f_after f_before skip]. rewrite Hp.
    pose proof (skip_length p rest) as Hlen.
    assert (E : (length (skip p rest) <? length (c :: rest))%nat = true)
      by (apply Nat.ltb_lt; simpl; lia).
    rewrite E. apply Forall_app. split; [exact Hby |].
    apply IH; [simpl in Hfuel; lia | exact Hby | apply Forall_skip, Hrest'].
  - constructor; [apply Hc; reflexivity |].
    apply IH; [simpl in Hfuel; lia | exact Hby | exact Hrest'].
Qed.

Lemma replaceAll_Forall (p : ascii -> bool) (Q : ascii -> Prop) (by_ s : string) :
  Forall Q (chars by_) ->
  Forall (fun c => p c = false -> Q c) (chars s) ->
  Forall Q (chars (replaceAll (plus (Chr p)) by_ s)).
Proof.
  intros Hby Hs. unfold replaceAll. rewrite chars_str.
  apply replace_go_Forall; [rewrite length_chars; lia | exact Hby | exact Hs].
Qed.

Lemma Forall_slice0 (Q : ascii -> Prop) (n : nat) s :
  Forall Q (chars s) -> Forall Q (chars (slice0 n s)).
Proof. intros H. unfold slice0. rewrite chars_str. apply Forall_take, H. Qed.

(** A text is ASCII when the check of its code units says so. *)
Lemma ascii_text_check (s : string) :
  forallb (fun c => (code c <? 128)%N) (chars s) = true -> ascii_text s.
Proof.
  intros H. apply Forall_forall. intros c Hc.
  rewrite forallb_forall in H. apply N.ltb_lt, H, list_elem_of_In, Hc.
Qed.

End RegexProperties.

Section SanitizeProperties.
Import JS Downloader DownloaderIO.

(** X1. For a title of ASCII characters, the file name
    [sanitizeFileName] returns is not empty, has at most 180 characters,
    holds none of the characters that are illegal in file names (no
    slash and no backslash among them), its only white space is the
    plain space, and it is a text of ASCII characters again. *)
Theorem sanitizeFileName_safe (name : option string) :
  (forall n, name = Some n -> ascii_text n) ->
  let safe := sanitizeFileName name in
  truthy safe = true /\
  (String.length safe <= 180)%nat /\
  free_of is_illegal safe /\
  Forall (fun c => is_space c = true -> c = " "%char) (chars safe) /\
  ascii_text safe.
Proof.
  intros Hascii safe. subst safe. unfold sanitizeFileName.
  assert (Hout : truthy "output" = true /\ (String.length "output" <= 180)%nat /\
                 free_of is_illegal "output" /\
                 Forall (fun c => is_space c = true -> c = " "%char) (chars "output") /\
                 ascii_text "output").
  { split; [reflexivity |]. split; [simpl; lia |].
    split; [repeat constructor |]. split; repeat constructor; discriminate. }
  destruct name as [n |]; [| exact Hout].
  specialize (Hascii n eq_refl).
  destruct (truthy n); [| exact Hout]. cbn [negb].
  set (cleaned := slice0 180 (trim (replaceAll re_spaces " " (replaceAll re_illegal "_" n)))).
  destruct (truthy cleaned) eqn:Ht; [| exact Hout].
  split; [exact Ht |]. split; [| split; [| split]].
  - unfold cleaned, slice0. rewrite length_str, length_firstn. lia.
  - unfold free_of, cleaned. apply Forall_slice0, Forall_trim.
    apply (replaceAll_Forall is_space (fun c => is_illegal c = false)).
    + repeat constructor.
    + assert (Hy : Forall (fun c => is_illegal c = false)
                          (chars (replaceAll re_illegal "_" n))).
      { apply (replaceAll_Forall is_illegal (fun c => is_illegal c = false) "_" n).
        - repeat constructor.
        - apply Forall_forall. intros c _ Hc. exact Hc. }
      eapply List.Forall_impl; [| exact Hy]. intros c Hc _. exact Hc.
  - unfold cleaned. apply Forall_slice0, Forall_trim.
    apply (replaceAll_Forall is_space (fun c => is_space c = true -> c = " "%char)).
    + repeat constructor.
    + apply Forall_forall. intros c _ Hc Hs. congruence.
  - unfold ascii_text, cleaned. apply Forall_slice0, Forall_trim.
    apply (replaceAll_Forall is_space (fun c => (code c < 128)%N)).
    + repeat constructor.
    + assert (Hy : Forall (fun c => (code c < 128)%N)
                          (chars (replaceAll re_illegal "_" n))).
      { apply (replaceAll_Forall is_illegal (fun c => (code c < 128)%N) "_" n).
        - repeat constructor.
        - eapply List.Forall_impl; [| exact Hascii]. intros c Hc _. exact Hc. }
      eapply List.Forall_impl; [| exact Hy]. intros c Hc _. exact Hc.
Qed.

End SanitizeProperties.

(** [sanitizeFileName_safe] on a title with a slash, a colon and a run
    of white space *)
Lemma sanitizeFileName_safe_witness :
  ascii_text "AC/DC: Back  in Black" /\
  DownloaderIO.sanitizeFileName (Some "AC/DC: Back  in Black") = "AC_DC_ Back in Black" /\
  free_of is_illegal (DownloaderIO.sanitizeFileName (Some "AC/DC: Back  in Black")).
Proof.
  assert (Hascii : ascii_text "AC/DC: Back  in Black") by (repeat constructor).
  split; [exact Hascii |]. split; [reflexivity |].
  destruct (sanitizeFileName_safe (Some "AC/DC: Back  in Black")) as (_ & _ & Hfree & _).
  - intros n [= <-]. exact Hascii.
  - exact Hfree.
Defined.

Section ParserProperties.
Import JS Downloader.

Lemma within_refl s : within s s.
Proof. exists [], []. rewrite app_nil_r. reflexivity. Qed.

Lemma within_trans a b c : within a b -> within b c -> within a c.
Proof.
  intros (p1 & q1 & H1) (p2 & q2 & H2). exists (p2 ++ p1), (q1 ++ q2).
  rewrite H2, H1, <- !app_assoc. reflexivity.
Qed.

Lemma within_chars p l : (exists pre post, l = pre ++ chars p ++ post) -> within p (str l).
Proof. intros (pre & post & H). exists pre, post. rewrite chars_str. exact H. Qed.

Lemma drop_spaces_suffix l : exists pre, l = pre ++ drop_spaces l.
Proof.
  induction l as [| c l (pre & IH)]; [exists []; reflexivity |].
  simpl. destruct (is_space c); [| exists []; reflexivity].
  exists (c :: pre). simpl. congruence.
Qed.

Lemma within_trimEnd s : within (trimEnd s) s.
Proof.
  unfold trimEnd. destruct (drop_spaces_suffix (rev (chars s))) as [pre H].
  exists [], (rev pre). rewrite chars_str. simpl.
  rewrite <- rev_app_distr, <- H, rev_involutive. reflexivity.
Qed.

Lemma within_trimStart s : within (trimStart s) s.
Proof.
  unfold trimStart. destruct (drop_spaces_suffix (chars s)) as [pre H].
  exists pre, []. rewrite chars_str, app_nil_r. exact H.
Qed.

Lemma within_trim s : within (trim s) s.
Proof.
  unfold trim. eapply within_trans; [apply within_trimStart | apply within_trimEnd].
Qed.

Lemma startsWith_app (p : string) (post : list ascii) :
  startsWith (str (chars p ++ post)) p = true.
Proof.
  induction p as [| c p IH]; simpl; [destruct (str post); reflexivity |].
  rewrite Ascii.eqb_refl. exact IH.
Qed.

Lemma includes_startsWith s p : startsWith s p = true -> includes s p = true.
Proof. intros H. destruct s; cbn [includes]; rewrite H; reflexivity. Qed.

Lemma within_includes p s : within p s -> includes s p = true.
Proof.
  intros (pre & post & H). rewrite <- (str_chars s), H. clear H.
  induction pre as [| c pre IH].
  - apply includes_startsWith, startsWith_app.
  - simpl. simpl in IH. rewrite IH. apply orb_true_r.
Qed.

(** The pieces of [s.split(sep)]: parts of [s] without the separator *)
Lemma split_char_pieces (sep : ascii) (s : string) :
  exists first others,
    split_char sep s = first :: others /\
    (exists post, chars s = chars first ++ post) /\
    Forall (fun c => c <> sep) (chars first) /\
    Forall (fun piece => within piece s /\ Forall (fun c => c <> sep) (chars piece)) others.
Proof.
  induction s as [| c s (first & others & Hs & (post & Hpost) & Hfirst & Hothers)].
  - exists "", []. simpl. repeat split; try constructor. exists []. reflexivity.
  - simpl. destruct (Ascii.eqb_spec c sep) as [-> | Hne].
    + exists "", (split_char sep s). split; [reflexivity |].
      split; [exists (sep :: chars s); reflexivity |]. split; [constructor |].
      rewrite Hs. constructor.
      * split; [| exact Hfirst]. exists [sep], post. simpl. congruence.
      * eapply List.Forall_impl; [| exact Hothers].
        intros piece [(pre & q & Hw) Hn]. split; [| exact Hn].
        exists (sep :: pre), q. simpl. congruence.
    + rewrite Hs. exists (String c first), others. split; [reflexivity |].
      split; [exists post; simpl; congruence |].
      split; [constructor; assumption |].
      eapply List.Forall_impl; [| exact Hothers].
      intros piece [(pre & q & Hw) Hn]. split; [| exact Hn].
      exists (c :: pre), q. simpl. congruence.
Qed.

Lemma split_char_within (sep : ascii) (s piece : string) :
  In piece (split_char sep s) ->
  within piece s /\ Forall (fun c => c <> sep) (chars piece).
Proof.
  destruct (split_char_pieces sep s) as (first & others & -> & (post & Hpost) & Hfirst & Hothers).
  intros [<- | Hin].
  - split; [exists [], post; exact Hpost | exact Hfirst].
  - rewrite List.Forall_forall in Hothers. apply Hothers, Hin.
Qed.

(** The pieces of [s.split(/[class]+/)]: parts of [s] outside the class *)
Lemma split_go_pieces (p : ascii -> bool) (fuel : nat) : forall before cur rest,
  (length rest < fuel)%nat ->
  Forall (fun c => p c = false) cur ->
  Forall (fun piece =>
            (exists pre post, rev cur ++ rest = pre ++ chars piece ++ post) /\
            Forall (fun c => p c = false) (chars piece))
         (split_go fuel (plus (Chr p)) before cur rest).
Proof.
  induction fuel as [| fuel IH]; intros before cur rest Hfuel Hcur; [lia |].
  cbn [split_go]. destruct rest as [| c rest].
  - constructor; [| constructor]. rewrite chars_str. split.
    + exists [], []. rewrite !app_nil_r. reflexivity.
    + apply Forall_rev, Hcur.
  - rewrite match_here_plus. destruct (p c) eqn:Hp.
    + cbn [f_after f_before skip]. rewrite Hp.
      pose proof (skip_length p rest) as Hlen.
      assert (E : (length (skip p rest) <? length (c :: rest))%nat = true)
        by (apply Nat.ltb_lt; simpl; lia).
      rewrite E. constructor.
      * rewrite chars_str. split; [| apply Forall_rev, Hcur].
        exists [], (c :: rest). reflexivity.
      * specialize (IH (rev (lead p (c :: rest)) ++ before) [] (skip p rest)).
        eapply List.Forall_impl; [| apply IH; [simpl in Hfuel; lia | constructor]].
        intros piece [(pre & post & Hw) Hfree]. split; [| exact Hfree].
        exists (rev cur ++ c :: lead p rest ++ pre), post.
        simpl in Hw. rewrite <- (lead_skip p rest) at 1. rewrite Hw.
        rewrite <- !app_assoc. simpl. rewrite <- !app_assoc. reflexivity.
    + specialize (IH (c :: before) (c :: cur) rest).
      eapply List.Forall_impl; [| apply IH; [simpl in Hfuel; lia | constructor; assumption]].
      intros piece [(pre & post & Hw) Hfree]. split; [| exact Hfree].
      exists pre, post. rewrite <- Hw. simpl. rewrite <- app_assoc. reflexivity.
Qed.

Lemma split_class_within (p : ascii -> bool) (s piece : string) :
  In piece (split (plus (Chr p)) s) ->
  within piece s /\ Forall (fun c => p c = false) (chars piece).
Proof.
  intros Hin. unfold split in Hin.
  assert (H := split_go_pieces p (S (String.length s)) [] [] (chars s)
                 ltac:(rewrite length_chars; lia) ltac:(constructor)).
  rewrite List.Forall_forall in H.
  destruct (H piece Hin) as [(pre & post & Hw) Hfree].
  split; [exists pre, post; exact Hw | exact Hfree].
Qed.

(** A word of the first column is a token, and a part of the line. *)
Lemma first_column_token (trimmed left_ word : string) :
  In left_ (map trim (split_char "|" trimmed)) ->
  In word (List.filter truthy (split re_spaces left_)) ->
  token word /\ within word trimmed.
Proof.
  intros Hleft Hword. apply in_map_iff in Hleft as (segment & <- & Hseg).
  apply split_char_within in Hseg as [Hw Hbar].
  apply filter_In in Hword as [Hword Htruthy].
  apply split_class_within in Hword as [Hw' Hfree].
  assert (Hbar' : Forall (fun c => c <> "|"%char) (chars word)).
  { destruct Hw' as (pre & post & E).
    pose proof (Forall_trim (fun c => c <> "|"%char) segment Hbar) as Ht.
    rewrite E in Ht. apply Forall_app in Ht as [_ Ht]. apply Forall_app in Ht as [Ht _].
    exact Ht. }
  split.
  - split; [exact Htruthy |]. apply Forall_forall. intros c Hc.
    rewrite Forall_forall in Hfree, Hbar'. split; [apply Hfree, Hc | apply Hbar', Hc].
  - eapply within_trans; [exact Hw' |]. eapply within_trans; [apply within_trim | exact Hw].
Qed.

Lemma parseLine_entry (line : string) (e : Entry) :
  parseLine line = Some e ->
  e_raw e = trimEnd line /\
  token (e_id e) /\ token (e_extension e) /\
  includes (e_raw e) (e_id e) = true /\
  includes (e_raw e) (e_extension e) = true /\
  test re_pass (e_raw e) = false /\
  test re_rule (e_raw e) = false /\
  test re_header (e_raw e) = false.
Proof.
  unfold parseLine.
  destruct (negb (truthy line) || negb (truthy (trim line))); [discriminate |].
  destruct (test re_rule (trimEnd line)) eqn:Hrule; [discriminate |].
  destruct (test re_header (trimEnd line)) eqn:Hheader; [discriminate |]. cbn [orb].
  destruct (map trim (split_char "|" (trimEnd line))) as [| left_ segments] eqn:Hsplit;
    [discriminate |].
  destruct (negb (truthy left_)); [discriminate |].
  destruct (List.filter truthy (split re_spaces left_))
    as [| formatId [| extension_ parts]] eqn:Hwords; try discriminate.
  destruct (negb (truthy formatId)); [discriminate |].
  destruct (test re_pass (trimEnd line)) eqn:Hpass; [discriminate |]. cbn [orb].
  intros [= <-]. cbn [e_raw e_id e_extension].
  assert (Hleft : In left_ (map trim (split_char "|" (trimEnd line))))
    by (rewrite Hsplit; left; reflexivity).
  destruct (first_column_token (trimEnd line) left_ formatId Hleft) as [Hid Hidw];
    [rewrite Hwords; left; reflexivity |].
  destruct (first_column_token (trimEnd line) left_ extension_ Hleft) as [Hext Hextw];
    [rewrite Hwords; right; left; reflexivity |].
  repeat split; try assumption; try apply Hid; try apply Hext;
    apply within_includes; assumption.
Qed.

(** X2. For an output of ASCII characters, every entry
    [parseFormatList] returns comes from a line of the output: its
    [raw] is that line without trailing white space, it is neither a
    rule, a header nor a line naming a pass; its id and its extension
    are tokens (not empty, no white space, no bar) that occur in the
    line.  There are at most as many entries as lines. *)
Theorem parseFormatList_entries (output : string) :
  ascii_text output ->
  Forall (fun e =>
            (exists line, In line (split re_newline output) /\ e_raw e = trimEnd line) /\
            token (e_id e) /\ token (e_extension e) /\
            includes (e_raw e) (e_id e) = true /\
            includes (e_raw e) (e_extension e) = true /\
            test re_pass (e_raw e) = false /\
            test re_rule (e_raw e) = false /\
            test re_header (e_raw e) = false)
         (parseFormatList output) /\
  (length (parseFormatList output) <= length (split re_newline output))%nat.
Proof.
  intros _. split.
  - apply Forall_forall. intros e He. unfold parseFormatList in He.
    apply list_elem_of_omap in He as (line & Hline & Hparse).
    destruct (parseLine_entry line e Hparse) as (Hraw & Hrest).
    split; [| exact Hrest]. exists line. split; [apply list_elem_of_In, Hline | exact Hraw].
  - unfold parseFormatList. induction (split re_newline output) as [| line lines IH];
      [reflexivity |].
    cbn [omap list_omap]. destruct (parseLine line); simpl in *; lia.
Qed.

End ParserProperties.

(** [parseFormatList_entries] on a listing of yt-dlp with its two
    header lines and one row: the row is the one entry. *)
Lemma parseFormatList_entries_witness :
  let output := listing_without_rows +:+ String Downloader.LF "140 m4a audio only | 128k" in
  ascii_text output /\
  map Downloader.e_id (Downloader.parseFormatList output) = ["140"] /\
  Forall (fun e => token (Downloader.e_id e) /\ token (Downloader.e_extension e))
         (Downloader.parseFormatList output).
Proof.
  intros output.
  assert (Hascii : ascii_text output) by (apply ascii_text_check; reflexivity).
  split; [exact Hascii |]. split; [reflexivity |].
  destruct (parseFormatList_entries output Hascii) as [Hentries _].
  eapply List.Forall_impl; [| exact Hentries].
  intros e (_ & Hid & Hext & _). split; assumption.
Defined.

Section BitrateProperties.
Import JS Downloader.

(** The fold of [presets.reduce]: over an ascending list, it ends on the
    element nearest to [kbps], and on the lower one of two that are
    equally near. *)
Lemma nearest_fold_spec (kbps : Z) : forall (others seen : list Z) (first : Z),
  In first seen ->
  (forall p, In p seen ->
     Z.abs (first - kbps) <= Z.abs (p - kbps) /\
     (Z.abs (p - kbps) = Z.abs (first - kbps) -> first <= p)) ->
  (forall s p, In s seen -> In p others -> s <= p) ->
  StronglySorted Z.le others ->
  let best :=
    foldl (fun previous current =>
             if Z.abs (current - kbps) <? Z.abs (previous - kbps)
             then current else previous) first others in
  In best (seen ++ others) /\
  forall p, In p (seen ++ others) ->
    Z.abs (best - kbps) <= Z.abs (p - kbps) /\
    (Z.abs (p - kbps) = Z.abs (best - kbps) -> best <= p).
Proof.
  induction others as [| current others IH]; intros seen first Hin Hbest Hle Hsorted.
  - cbn. rewrite app_nil_r. split; assumption.
  - cbn [foldl]. apply StronglySorted_inv in Hsorted as [Hsorted Hhead].
    rewrite List.Forall_forall in Hhead.
    replace (seen ++ current :: others) with ((seen ++ [current]) ++ others)
      by (rewrite <- app_assoc; reflexivity).
    apply IH; [| | | exact Hsorted].
    + apply in_or_app. destruct (Z.abs (current - kbps) <? Z.abs (first - kbps));
        [right; left; reflexivity | left; exact Hin].
    + intros p Hp. apply in_app_or in Hp as [Hp | [<- | []]].
      * destruct (Hbest p Hp) as [H1 H2].
        destruct (Z.ltb_spec (Z.abs (current - kbps)) (Z.abs (first - kbps))); split; lia.
      * pose proof (Hle first current Hin (or_introl eq_refl)).
        destruct (Z.ltb_spec (Z.abs (current - kbps)) (Z.abs (first - kbps))); split; lia.
    + intros s p Hs Hp. apply in_app_or in Hs as [Hs | [<- | []]].
      * apply Hle; [exact Hs | right; exact Hp].
      * apply Hhead, Hp.
Qed.

Lemma presets_sorted : StronglySorted Z.le presets.
Proof. unfold presets. repeat constructor; lia. Qed.

(** X3. For a bitrate other than zero, [nearestAudioBitrate] returns the
    preset nearest to it, and the lower one when two presets are equally
    near; for zero it returns [null]. *)
Theorem nearestAudioBitrate_nearest (kbps : Z) :
  kbps <> 0 ->
  exists best,
    nearestAudioBitrate kbps = Some best /\
    In best presets /\
    forall preset, In preset presets ->
      Z.abs (best - kbps) <= Z.abs (preset - kbps) /\
      (Z.abs (preset - kbps) = Z.abs (best - kbps) -> best <= preset).
Proof.
  intros Hnz. unfold nearestAudioBitrate.
  assert (E : (kbps =? 0) = false) by lia. rewrite E.
  pose proof presets_sorted as Hsorted. unfold presets in *.
  apply StronglySorted_inv in Hsorted as [Hsorted Hhead].
  rewrite List.Forall_forall in Hhead.
  eexists. split; [reflexivity |].
  apply (nearest_fold_spec kbps _ [64] 64).
  - left; reflexivity.
  - intros p [<- | []]. split; lia.
  - intros s p [<- | []] Hp. apply Hhead, Hp.
  - exact Hsorted.
Qed.

End BitrateProperties.

(** [nearestAudioBitrate_nearest] at 80 kbps, which is as far from 64 as
    from 96: the answer is a preset no higher than 96. *)
Lemma nearestAudioBitrate_nearest_witness :
  80 <> 0 /\
  exists best, Downloader.nearestAudioBitrate 80 = Some best /\ best <= 96.
Proof.
  assert (H : 80 <> 0) by lia. split; [exact H |].
  destruct (nearestAudioBitrate_nearest 80 H) as (best & Hbest & _ & Hnear).
  exists best. split; [exact Hbest |].
  destruct (Hnear 96) as [H96 _]; [simpl; tauto |]. lia.
Defined.

Section SelectorSoundness.
Import JS Downloader.
Implicit Types (fmt f g : Format) (l : list Format) (st : DedupeState).

Lemma insert_sorted_In_rev {A} (compare : A -> A -> Q) (a x : A) (l : list A) :
  x = a \/ In x l -> In x (insert_sorted compare a l).
Proof.
  induction l as [| b l IH]; simpl.
  - intros [-> | []]. left; reflexivity.
  - destruct (Qle_bool (compare a b) 0); simpl.
    + intros [-> | H]; [left; reflexivity | right; exact H].
    + intros [-> | [-> | H]]; [right; apply IH; left; reflexivity | left; reflexivity |].
      right. apply IH. right. exact H.
Qed.

Lemma sort_In_rev {A} (compare : A -> A -> Q) (x : A) (l : list A) :
  In x l -> In x (sort compare l).
Proof.
  induction l as [| a l IH]; simpl; [tauto |].
  intros [-> | H]; apply insert_sorted_In_rev; [left; reflexivity | right; apply IH, H].
Qed.

(** What the selector keeps comes from the filtered list. *)
Lemma selector_In (formats_ : list Format) (type_ : Kind) (d : option Q) (c : Candidate) :
  In c (filterWellKnownFormats formats_ type_ d) ->
  c = decorate type_ d (format c) /\
  In (format c) (dedupe type_
     match type_ with
     | audio => sort compareAudio (List.filter (keep type_) formats_)
     | video => sort compareVideo (List.filter (keep type_) formats_)
     end) /\
  In (format c) formats_ /\ keep type_ (format c) = true.
Proof.
  unfold filterWellKnownFormats. intros Hc.
  apply in_map_iff in Hc as (fmt & <- & Hin). rewrite decorate_format.
  split; [reflexivity |].
  assert (Hd : In fmt (dedupe type_
              match type_ with
              | audio => sort compareAudio (List.filter (keep type_) formats_)
              | video => sort compareVideo (List.filter (keep type_) formats_)
              end)).
  { apply list_elem_of_In. eapply subseteq_take. apply list_elem_of_In. exact Hin. }
  split; [exact Hd |].
  apply dedupe_In in Hd.
  assert (Hf : In fmt (List.filter (keep type_) formats_))
    by (destruct type_; eapply sort_In; exact Hd).
  apply filter_In in Hf. exact Hf.
Qed.

Lemma truthyZ_nonzero (o : option Z) : truthyZ o <> Some 0.
Proof. destruct o as [[| p | p] |]; simpl; congruence. Qed.

Lemma truthyZ_idem (o : option Z) : truthyZ (truthyZ o) = truthyZ o.
Proof. destruct o as [[| p | p] |]; reflexivity. Qed.

(** X4. The selector invents nothing: the format of every candidate is
    one of the formats it was given, of an extension allowed for the
    kind, and for video not a stream without sound (a note with
    [video only]) unless its id is a merge of streams; the candidate's
    file name is the id followed by the kind, and an estimated size, if
    there is one, is not zero. *)
Theorem selector_candidates_sound
    (formats_ : list Format) (type_ : Kind) (durationSeconds : option Q) :
  Forall (fun c =>
            In (format c) formats_ /\
            In (toLowerCase (extension (format c))) (allowedExtensions type_) /\
            (type_ = video ->
             includes (toLowerCase (note (format c))) "video only" = true ->
             includes (fmt_id (format c)) "+" = true) /\
            targetFileName c = fmt_id (format c) +:+ "-" +:+ kind_name type_ /\
            estimatedSizeBytes c <> Some 0)
         (getFormatsByType formats_ type_ durationSeconds).
Proof.
  apply List.Forall_forall. intros c Hc. unfold getFormatsByType in Hc.
  apply selector_In in Hc as (Hdec & _ & Hin & Hkeep).
  split; [exact Hin |]. unfold keep in Hkeep.
  destruct (kind_eqb (type (format c)) type_); [| discriminate]. cbn [negb] in Hkeep.
  destruct (existsb _ (allowedExtensions type_)) eqn:Hext; [| discriminate].
  cbn [negb] in Hkeep.
  split.
  { apply existsb_exists in Hext as (e & He & Heq). apply String.eqb_eq in Heq.
    rewrite Heq. exact He. }
  split.
  { intros -> Hnote. rewrite Hnote in Hkeep. cbn [andb] in Hkeep.
    destruct (includes (fmt_id (format c)) "+"); [reflexivity | discriminate]. }
  rewrite Hdec. rewrite decorate_format.
  destruct type_; cbn [decorate targetFileName estimatedSizeBytes kind_name];
    (split; [reflexivity | apply truthyZ_nonzero]).
Qed.

Lemma best_kept_step (type_ : Kind) st fmt (seen : list Format) :
  dedupe_inv type_ st ->
  Forall (best_kept type_ st) seen ->
  Forall (best_kept type_ (dedupeStep type_ st fmt)) (seen ++ [fmt]).
Proof.
  destruct st as [deduped keyToIndex]. intros [Hidx Hkey] Hseen. simpl in Hidx, Hkey.
  unfold dedupeStep.
  destruct (keyToIndex !! bucketKey type_ fmt) as [idx |] eqn:Hk.
  - destruct (Hidx _ _ Hk) as (existing & He & Hke). rewrite He.
    assert (Hlt : (idx < length deduped)%nat) by (eapply lookup_lt_Some; eassumption).
    match goal with |- context [if ?c then _ else _] => destruct c eqn:Hreplace end.
    + assert (Hbetter : (preferenceScore existing type_ <= preferenceScore fmt type_)%Q).
      { apply orb_true_iff in Hreplace as [H | H].
        - apply negb_true_iff in H. apply Qlt_le_weak, Qnot_le_lt.
          intros Hle. apply Qle_bool_iff in Hle. congruence.
        - apply andb_true_iff in H as [H _]. apply Qeq_bool_iff in H.
          rewrite H. apply Qle_refl. }
      apply Forall_app. split.
      * eapply List.Forall_impl; [| exact Hseen].
        intros f (i & g & Hi & Hg & Hs). simpl in Hi, Hg.
        destruct (decide (i = idx)) as [-> | Hne].
        -- exists idx, fmt. simpl. split; [exact Hi |].
           split; [apply list_lookup_insert_eq; exact Hlt |].
           assert (g = existing) by congruence. subst g.
           eapply Qle_trans; eassumption.
        -- exists i, g. simpl. split; [exact Hi |]. split; [| exact Hs].
           rewrite list_lookup_insert_ne by congruence. exact Hg.
      * constructor; [| constructor]. exists idx, fmt. simpl.
        split; [exact Hk |]. split; [apply list_lookup_insert_eq; exact Hlt | apply Qle_refl].
    + apply Forall_app. split; [exact Hseen |].
      constructor; [| constructor]. exists idx, existing. simpl.
      split; [exact Hk |]. split; [exact He |].
      apply orb_false_iff in Hreplace as [H _]. apply negb_false_iff in H.
      apply Qle_bool_iff, H.
  - apply Forall_app. split.
    + eapply List.Forall_impl; [| exact Hseen].
      intros f (i & g & Hi & Hg & Hs). simpl in Hi, Hg.
      exists i, g. simpl. split; [| split; [| exact Hs]].
      * rewrite lookup_insert_ne by congruence. exact Hi.
      * rewrite lookup_app_l by (eapply lookup_lt_Some; eassumption). exact Hg.
    + constructor; [| constructor]. exists (length deduped), fmt. simpl.
      split; [apply lookup_insert_eq |].
      split; [| apply Qle_refl].
      rewrite lookup_app_r by lia. rewrite Nat.sub_diag. reflexivity.
Qed.

Lemma best_kept_fold (type_ : Kind) l : forall st seen,
  dedupe_inv type_ st ->
  Forall (best_kept type_ st) seen ->
  Forall (best_kept type_ (foldl (dedupeStep type_) st l)) (seen ++ l).
Proof.
  induction l as [| fmt l IH]; intros st seen Hinv Hseen; simpl.
  - rewrite app_nil_r. exact Hseen.
  - replace (seen ++ fmt :: l) with ((seen ++ [fmt]) ++ l)
      by (rewrite <- app_assoc; reflexivity).
    apply IH; [apply dedupe_inv_step, Hinv | apply best_kept_step; assumption].
Qed.

(** Two kept formats of one key are the same format. *)
Lemma dedupe_key_unique (type_ : Kind) l f g :
  In f (dedupe type_ l) -> In g (dedupe type_ l) ->
  bucketKey type_ f = bucketKey type_ g -> f = g.
Proof.
  unfold dedupe.
  destruct (dedupe_inv_fold type_ l _ (dedupe_inv_init type_)) as [_ Hkey].
  intros Hf Hg Hk.
  apply list_elem_of_In, list_elem_of_lookup in Hf as [i Hi].
  apply list_elem_of_In, list_elem_of_lookup in Hg as [j Hj].
  pose proof (Hkey _ _ Hi) as Hi'. pose proof (Hkey _ _ Hj) as Hj'.
  rewrite Hk in Hi'. congruence.
Qed.

(** X5. Among the formats that pass the filter and share a key, the
    selector offers one of the highest preference score: no format of
    the same key as a candidate scores higher than the candidate. *)
Theorem selector_keeps_best_of_key
    (formats_ : list Format) (type_ : Kind) (durationSeconds : option Q) :
  Forall (fun c =>
            Forall (fun f =>
                      keep type_ f = true ->
                      bucketKey type_ f = bucketKey type_ (format c) ->
                      (preferenceScore f type_ <= preferenceScore (format c) type_)%Q)
                   formats_)
         (getFormatsByType formats_ type_ durationSeconds).
Proof.
  apply List.Forall_forall. intros c Hc. unfold getFormatsByType in Hc.
  apply selector_In in Hc as (_ & Hd & _ & _).
  apply List.Forall_forall. intros f Hf Hkeep Hk.
  set (sorted := match type_ with
                 | audio => sort compareAudio (List.filter (keep type_) formats_)
                 | video => sort compareVideo (List.filter (keep type_) formats_)
                 end) in *.
  assert (Hsorted : In f sorted).
  { subst sorted. destruct type_; apply sort_In_rev, filter_In; split; assumption. }
  pose proof (best_kept_fold type_ sorted ([], ∅) [] (dedupe_inv_init type_) (List.Forall_nil _))
    as Hbest.
  rewrite List.Forall_forall in Hbest. destruct (Hbest f Hsorted) as (i & g & Hi & Hg & Hs).
  assert (Hgin : In g (dedupe type_ sorted)).
  { apply list_elem_of_In, list_elem_of_lookup. exists i. exact Hg. }
  destruct (dedupe_inv_fold type_ sorted _ (dedupe_inv_init type_)) as [Hidx _].
  destruct (Hidx _ _ Hi) as (g' & Hg' & Hkg).
  assert (g' = g) by congruence. subst g'.
  assert (g = format c) by (eapply dedupe_key_unique; [exact Hgin | exact Hd | congruence]).
  subst g. exact Hs.
Qed.

End SelectorSoundness.

Section QueueAccounting.
Import DownloadQueue.
Context {Task : Type}.
Implicit Types (q : DownloadQueue.t Task) (es : list (Event Task)).

Lemma exec_snoc q es e : exec q (es ++ [e]) = step (exec q es) e.
Proof. unfold exec. rewrite foldl_app. reflexivity. Qed.

(** Every task that was started is running or settled, once. *)
Lemma started_accounted (c : Z) es :
  let q := exec (new c) es in
  started q ≡ₚ (fst <$> settled q) ++ running q.
Proof.
  induction es as [| e es IH] using rev_ind; [reflexivity |].
  rewrite exec_snoc. cbv zeta in *. set (q := exec (new c) es) in *.
  destruct e as [task | i o]; cbn [step].
  - unfold enqueue. destruct (activeCount q >=? concurrency q); cbn [fst]; [exact IH |].
    cbn [runJob started settled running]. rewrite IH, !app_assoc. reflexivity.
  - unfold finish. destruct (running q !! i) as [job |] eqn:Hi; [| exact IH].
    pose proof (delete_Permutation _ _ _ Hi) as Hperm.
    assert (Hstarted : started q ≡ₚ (fst <$> settled q) ++ job :: delete i (running q))
      by (rewrite IH, Hperm at 1; reflexivity).
    destruct (head (queue q)) as [next |];
      cbn [runJob started settled running]; rewrite fmap_app; cbn [fmap list_fmap fst];
      rewrite Hstarted, <- !app_assoc; cbn [app]; reflexivity.
Qed.

(** X6. In a queue reached from [new DownloadQueue(c)], no task waits
    while a slot is free, and every task submitted is accounted for
    once: it is settled, running or waiting.  What [stats] reports adds
    up: active plus queued plus settled is the number of tasks
    submitted. *)
Theorem queue_accounts_for_every_task (c : Z) (es : list (Event Task)) :
  let q := exec (new c) es in
  let s := QueueStats.stats q in
  (QueueStats.active s < QueueStats.concurrency s -> QueueStats.queued s = 0) /\
  submitted es ≡ₚ (fst <$> settled q) ++ running q ++ queue q /\
  QueueStats.active s + QueueStats.queued s + Z.of_nat (length (settled q)) =
    Z.of_nat (length (submitted es)) /\
  0 <= QueueStats.active s <= QueueStats.concurrency s.
Proof.
  intros q s. destruct (queue_inv_exec c es) as [Hb Hc Hl Hf Hs].
  fold q in Hb, Hc, Hl, Hf, Hs.
  pose proof (started_accounted c es) as Hacc. cbv zeta in Hacc. fold q in Hacc.
  assert (Hperm : submitted es ≡ₚ (fst <$> settled q) ++ running q ++ queue q).
  { rewrite <- Hs, Hacc, <- app_assoc. reflexivity. }
  subst s. cbn [QueueStats.stats QueueStats.active QueueStats.queued QueueStats.concurrency].
  split; [| split; [exact Hperm | split; [| lia]]].
  - intros Hfree. destruct (queue q) as [| next rest]; [reflexivity |].
    assert (activeCount q = concurrency q) by (apply Hf; discriminate). lia.
  - apply Permutation_length in Hperm.
    rewrite !length_app, length_fmap in Hperm. lia.
Qed.

(** What a completion does to the number of jobs running or waiting,
    and to the outcomes recorded *)
Lemma finish_measure (c : Z) es q (i : nat) (o : Outcome) :
  queue_inv c es q ->
  is_Some (running q !! i) ->
  S (length (running (finish i o q)) + length (queue (finish i o q))) =
    (length (running q) + length (queue q))%nat /\
  snd <$> settled (finish i o q) = (snd <$> settled q) ++ [o].
Proof.
  intros Hinv [job Hi]. unfold finish. rewrite Hi.
  assert (Hlen : (i < length (running q))%nat) by (eapply lookup_lt_Some; eassumption).
  assert (Hdel : S (length (delete i (running q))) = length (running q)).
  { rewrite length_delete by eauto. lia. }
  destruct (queue q) as [| next waiting];
    cbn [head runJob running queue settled tail]; rewrite fmap_app, ?length_app;
    cbn [fmap list_fmap snd length]; split; try reflexivity; lia.
Qed.

(** While a job runs or waits, a job runs. *)
Lemma waiting_implies_running (c : Z) es q :
  queue_inv c es q -> queue q <> [] -> running q <> [].
Proof.
  intros [Hb Hc _ Hf _] Hq Hr. specialize (Hf Hq). rewrite Hr in Hc. simpl in Hc. lia.
Qed.

(** Along a schedule of completions, each takes one job away from those
    running or waiting, and when as many have completed as there were,
    nothing runs or waits any more. *)
Lemma drain_schedule (c : Z) : forall (cs : list (nat * Outcome)) es q,
  queue_inv c es q ->
  completes q cs ->
  (length cs <= length (running q) + length (queue q))%nat /\
  snd <$> settled (exec q (completions cs)) = (snd <$> settled q) ++ (snd <$> cs) /\
  ((length cs = length (running q) + length (queue q))%nat ->
   running (exec q (completions cs)) = [] /\ queue (exec q (completions cs)) = []).
Proof.
  induction cs as [| [i o] cs IH]; intros es q Hinv Hcs.
  - cbn. rewrite app_nil_r. split; [lia |]. split; [reflexivity |].
    intros Hn. destruct (running q), (queue q); try discriminate. split; reflexivity.
  - destruct Hcs as [Hi Hcs].
    destruct (finish_measure c es q i o Hinv Hi) as [Hm Hsettled].
    assert (Hinv' : queue_inv c (es ++ [Complete i o]) (finish i o q))
      by (apply (queue_inv_step c es q (Complete i o)), Hinv).
    destruct (IH _ _ Hinv' Hcs) as (Hle & Hout & Hdone).
    change (exec q (completions ((i, o) :: cs)))
      with (exec (finish i o q) (completions cs)).
    split; [simpl; lia |]. split.
    + rewrite Hout, Hsettled, <- app_assoc. reflexivity.
    + intros Hn. apply Hdone. simpl in Hn. lia.
Qed.

(** The jobs at index 0, one after the other, make a schedule for any
    choice of outcomes. *)
Lemma first_job_schedule (c : Z) : forall (os : list Outcome) es q,
  queue_inv c es q ->
  length os = (length (running q) + length (queue q))%nat ->
  completes q (map (pair 0%nat) os).
Proof.
  induction os as [| o os IH]; intros es q Hinv Hn; [exact I |].
  assert (Hi : is_Some (running q !! 0%nat)).
  { destruct (running q) as [| job rest] eqn:Hr; [| eauto].
    destruct (queue q) as [| next waiting] eqn:Hq; [discriminate |].
    exfalso. apply (waiting_implies_running c es q Hinv); [congruence | exact Hr]. }
  split; [exact Hi |].
  destruct (finish_measure c es q 0 o Hinv Hi) as [Hm _].
  apply (IH (es ++ [Complete 0 o])).
  - apply (queue_inv_step c es q (Complete 0 o)), Hinv.
  - simpl in Hn. lia.
Qed.

Lemma submitted_completions es (cs : list (nat * Outcome)) :
  submitted (es ++ completions cs) = submitted es.
Proof.
  unfold submitted. rewrite omap_app.
  assert (E : omap (fun e : Event Task =>
                      match e with Enqueue task => Some task | Complete _ _ => None end)
                   (completions cs) = [])
    by (induction cs as [| [i o] cs IH]; [reflexivity | exact IH]).
  rewrite E, app_nil_r. reflexivity.
Qed.

(** X7. A queue does not get stuck.  In any state reached, a job runs
    as long as one waits; the jobs at work can complete one after the
    other, with any outcomes; and whatever the order in which running
    jobs complete, and whether they are fulfilled or rejected, no more
    completions are possible than jobs were running or waiting, and
    after that many the queue is idle: every task that was submitted
    has been started, in the order of submission, and is settled, with
    the outcomes in the order of the completions. *)
Theorem queue_drains (c : Z) (es : list (Event Task)) :
  let q0 := exec (new c) es in
  let n := (length (running q0) + length (queue q0))%nat in
  (queue q0 <> [] -> running q0 <> []) /\
  (forall os : list Outcome, length os = n -> completes q0 (map (pair 0%nat) os)) /\
  (forall cs : list (nat * Outcome),
     completes q0 cs ->
     (length cs <= n)%nat /\
     (length cs = n ->
      let q := exec q0 (completions cs) in
      queue q = [] /\ running q = [] /\ activeCount q = 0 /\
      started q = submitted es /\
      fst <$> settled q ≡ₚ submitted es /\
      snd <$> settled q = (snd <$> settled q0) ++ (snd <$> cs))).
Proof.
  intros q0 n. pose proof (queue_inv_exec c es) as Hinv. fold q0 in Hinv.
  split; [apply (waiting_implies_running c es q0 Hinv) |].
  split; [intros os Hos; apply (first_job_schedule c os es q0 Hinv Hos) |].
  intros cs Hcs.
  destruct (drain_schedule c cs es q0 Hinv Hcs) as (Hle & Hout & Hdone).
  split; [exact Hle |]. intros Hn q. destruct (Hdone Hn) as [Hr Hq].
  fold q in Hr, Hq, Hout.
  assert (Eq : q = exec (new c) (es ++ completions cs)).
  { subst q q0. unfold exec. rewrite foldl_app. reflexivity. }
  destruct (queue_inv_exec c (es ++ completions cs)) as [_ Hc _ _ Hs].
  pose proof (started_accounted c (es ++ completions cs)) as Hacc.
  cbv zeta in Hacc. rewrite <- Eq in Hc, Hs, Hacc. rewrite submitted_completions in Hs.
  rewrite Hq, app_nil_r in Hs. rewrite Hr in Hc. rewrite Hr, app_nil_r in Hacc.
  split; [exact Hq |]. split; [exact Hr |]. split; [exact Hc |].
  split; [exact Hs |]. split; [| exact Hout]. rewrite <- Hacc, Hs. reflexivity.
Qed.

End QueueAccounting.

(** [queue_drains] on a queue with two slots and three tasks: the
    second job at work is rejected first, then the two others are
    fulfilled, and the queue is idle. *)
Lemma queue_drains_witness :
  let q0 := DownloadQueue.exec (@DownloadQueue.new nat 2)
              [DownloadQueue.Enqueue 10%nat; DownloadQueue.Enqueue 20%nat;
               DownloadQueue.Enqueue 30%nat] in
  let cs := [(1%nat, DownloadQueue.Rejected); (0%nat, DownloadQueue.Fulfilled);
             (0%nat, DownloadQueue.Fulfilled)] in
  completes q0 cs /\
  DownloadQueue.running (DownloadQueue.exec q0 (completions cs)) = [] /\
  DownloadQueue.settled (DownloadQueue.exec q0 (completions cs)) =
    [(20%nat, DownloadQueue.Rejected); (10%nat, DownloadQueue.Fulfilled);
     (30%nat, DownloadQueue.Fulfilled)].
Proof.
  intros q0 cs.
  assert (Hcs : completes q0 cs) by (repeat split; eexists; reflexivity).
  split; [exact Hcs |].
  destruct (queue_drains 2 [DownloadQueue.Enqueue 10%nat; DownloadQueue.Enqueue 20%nat;
                            DownloadQueue.Enqueue 30%nat]) as (_ & _ & Hdrain).
  destruct (Hdrain cs Hcs) as [_ Hdone].
  destruct (Hdone eq_refl) as (_ & Hr & _).
  split; [exact Hr | reflexivity].
Defined.

Section SessionStoreLaws.
Import SessionStore.

Lemma spread_lookup (a b : gmap string Value) (k : string) :
  spread a b !! k = match b !! k with Some v => Some v | None => a !! k end.
Proof.
  unfold spread. rewrite lookup_union. destruct (b !! k), (a !! k); reflexivity.
Qed.

(** X8. The session store keeps one session per chat.  [create] stores
    the given fields and stamps [createdAt] unless the fields name it;
    [update] overwrites exactly the fields of the patch and keeps the
    others; two patches in a row are one patch with the second winning;
    [delete] leaves no session; and none of the three touches the
    session of another chat. *)
Theorem session_store_laws
    (sessions : gmap Z (gmap string Value)) (chatId : Z)
    (initialState patch later : gmap string Value) (now : Z) :
  (get chatId (fst (create chatId initialState now sessions)) =
     Some (snd (create chatId initialState now sessions)) /\
   forall k,
     snd (create chatId initialState now sessions) !! k =
     match initialState !! k with
     | Some v => Some v
     | None => if String.eqb k "createdAt" then Some (Num now) else None
     end) /\
  (exists updated,
     snd (update chatId (ByObject patch) sessions) = Some updated /\
     get chatId (fst (update chatId (ByObject patch) sessions)) = Some updated /\
     forall k,
       updated !! k =
       match patch !! k with
       | Some v => Some v
       | None => get chatId sessions ≫= (fun session => session !! k)
       end) /\
  fst (update chatId (ByObject later) (fst (update chatId (ByObject patch) sessions))) =
    fst (update chatId (ByObject (spread patch later)) sessions) /\
  get chatId (delete chatId sessions) = None /\
  (forall other, other <> chatId ->
     get other (fst (create chatId initialState now sessions)) = get other sessions /\
     get other (fst (update chatId (ByObject patch) sessions)) = get other sessions /\
     get other (delete chatId sessions) = get other sessions).
Proof.
  unfold get, create, update, delete. cbn [fst snd].
  split; [| split; [| split; [| split]]].
  - split; [apply lookup_insert_eq |]. intros k. rewrite spread_lookup.
    destruct (initialState !! k); [reflexivity |].
    destruct (String.eqb_spec k "createdAt") as [-> | Hne].
    + apply lookup_singleton_eq.
    + apply lookup_singleton_ne. congruence.
  - eexists. rewrite lookup_insert_eq. split; [reflexivity |]. split; [reflexivity |].
    intros k. rewrite spread_lookup. destruct (patch !! k); [reflexivity |].
    destruct (sessions !! chatId); [reflexivity | apply lookup_empty].
  - rewrite lookup_insert_eq. cbn [default from_option id]. rewrite insert_insert_eq.
    f_equal. unfold spread. rewrite (assoc_L (∪)). reflexivity.
  - apply lookup_delete_eq.
  - intros other Hne. rewrite !lookup_insert_ne, lookup_delete_ne by congruence.
    repeat split.
Qed.

End SessionStoreLaws.

Section ProbeRows.
Import JS Downloader.

(** The loop of [computeApproxSize], with the sizes found so far *)
Lemma computeApproxSize_fold (formatMap : gmap string Meta) (parts : list string) :
  forall (total : Z) (hasSize : bool),
    foldl (fun '(total, hasSize) part =>
             match formatMap !! part ≫= sizeCandidate with
             | Some size_ => (total + size_, true)
             | None => (total, hasSize)
             end) (total, hasSize) parts =
    (total + foldr Z.add 0 (omap (fun part => formatMap !! part ≫= sizeCandidate) parts),
     hasSize || negb (bool_decide
                        (omap (fun part => formatMap !! part ≫= sizeCandidate) parts = []))).
Proof.
  induction parts as [| part parts IH]; intros total hasSize; cbn [foldl omap list_omap].
  - cbn. rewrite Z.add_0_r, orb_false_r. reflexivity.
  - destruct (formatMap !! part ≫= sizeCandidate) as [size_ |]; rewrite IH.
    + cbn [foldr]. rewrite orb_true_r. cbn. f_equal. lia.
    + reflexivity.
Qed.

(** X9. The size of a listed format: when the metadata gives a size
    (other than zero) for at least one of the streams named in the id,
    it is the sum of the sizes given, whatever the note says. *)
Theorem computeApproxSize_sums_streams (id : string) (formatMap : gmap string Meta) :
  let sizes := omap (fun part => formatMap !! part ≫= sizeCandidate) (split_char "+" id) in
  Forall (fun size_ => size_ <> 0) sizes /\
  (sizes <> [] ->
   forall note_, computeApproxSize id note_ formatMap = Some (foldr Z.add 0 sizes)).
Proof.
  intros sizes. split.
  - subst sizes. apply Forall_forall. intros size_ Hin.
    apply list_elem_of_omap in Hin as (part & _ & Hsize).
    destruct (formatMap !! part) as [info |]; [| discriminate]. cbn in Hsize.
    unfold sizeCandidate in Hsize. intros ->.
    destruct (match filesize info with Some n => Some n | None => filesize_approx info end)
      as [[| p | p] |]; discriminate.
  - intros Hsizes note_. unfold computeApproxSize. rewrite computeApproxSize_fold. fold sizes.
    destruct sizes; [congruence | reflexivity].
Qed.

(** What [buildFormatMap] holds under an id is a format of that id. *)
Lemma buildFormatMap_fold (metas : list Meta) : forall (formatMap : gmap string Meta),
  (forall id m, formatMap !! id = Some m -> format_id m = Some id) ->
  forall id m,
    foldl (fun formatMap m =>
             match format_id m with
             | Some id => if truthy id then <[id := m]> formatMap else formatMap
             | None => formatMap
             end) formatMap metas !! id = Some m ->
    format_id m = Some id.
Proof.
  induction metas as [| m0 metas IH]; intros formatMap Hmap id m; cbn [foldl]; [apply Hmap |].
  apply IH. intros id' m'.
  destruct (format_id m0) as [id0 |] eqn:E; [| apply Hmap].
  destruct (truthy id0); [| apply Hmap].
  destruct (decide (id' = id0)) as [-> | Hne].
  - rewrite lookup_insert_eq. congruence.
  - rewrite lookup_insert_ne by congruence. apply Hmap.
Qed.

Lemma buildFormatMap_id (metas : list Meta) (id : string) (m : Meta) :
  buildFormatMap metas !! id = Some m -> format_id m = Some id.
Proof.
  apply buildFormatMap_fold. intros id' m' H. rewrite lookup_empty in H. discriminate.
Qed.

End ProbeRows.

(** [computeApproxSize_sums_streams] on a merge of two streams, one
    with an exact size and one with an approximate size: the note,
    which names another size, is not used. *)
Lemma computeApproxSize_sums_streams_witness :
  let sized (id : string) (exact approx : option Z) : Downloader.Meta :=
    {| Downloader.format_id := Some id; Downloader.filesize := exact;
       Downloader.filesize_approx := approx; Downloader.abr := None;
       Downloader.tbr := None; Downloader.height := None |} in
  let formatMap : gmap string Downloader.Meta :=
    {[ "137" := sized "137" (Some 1000) None; "140" := sized "140" None (Some 50) ]} in
  Downloader.computeApproxSize "137+140" "~ 2.00MiB" formatMap = Some 1050.
Proof.
  intros sized formatMap.
  destruct (computeApproxSize_sums_streams "137+140" formatMap) as [_ H].
  etransitivity; [apply H; vm_compute; discriminate |].
  vm_compute. reflexivity.
Defined.

Section ProbeComposition.
Import JS Downloader.
Variable JSON_parse : string -> option Json.

(** X10. When [listFormats] succeeds on a listing of ASCII characters,
    its formats are the rows of the listing, in order: each has the id,
    the extension and the line of its row; the id and the extension are
    tokens that occur in that line; and metadata, if it is attached, is
    the metadata of that very id.  The duration is never zero. *)
Theorem listFormats_rows (listOutput : string) (jsonRun : Result string) (listed : ProbeResult) :
  ascii_text listOutput ->
  listFormats JSON_parse (Ok listOutput) jsonRun = Ok listed ->
  map fmt_id (p_formats listed) = map e_id (parseFormatList listOutput) /\
  map extension (p_formats listed) = map e_extension (parseFormatList listOutput) /\
  map raw (p_formats listed) = map e_raw (parseFormatList listOutput) /\
  Forall (fun fmt =>
            token (fmt_id fmt) /\ token (extension fmt) /\
            includes (raw fmt) (fmt_id fmt) = true /\
            includes (raw fmt) (extension fmt) = true /\
            (forall m, meta fmt = Some m -> format_id m = Some (fmt_id fmt)))
         (p_formats listed) /\
  (forall d, p_durationSeconds listed = Some d -> ~ (d == 0)%Q).
Proof.
  intros _.
  unfold listFormats. destruct (fetchInfo JSON_parse jsonRun) as [[| info] | e]; try discriminate.
  intros [= <-]. cbn [p_formats p_durationSeconds].
  rewrite !map_map. cbn [toFormat fmt_id extension raw].
  split; [reflexivity |]. split; [reflexivity |]. split; [reflexivity |]. split.
  - apply Forall_forall. intros fmt Hin.
    apply list_elem_of_In, in_map_iff in Hin as (entry & <- & Hentry).
    cbn [toFormat fmt_id extension raw meta].
    unfold parseFormatList in Hentry.
    apply list_elem_of_In, list_elem_of_omap in Hentry as (line & _ & Hparse).
    destruct (parseLine_entry line entry Hparse) as (_ & Hid & Hext & Hinc & Hince & _).
    split; [exact Hid |]. split; [exact Hext |]. split; [exact Hinc |].
    split; [exact Hince |].
    intros m Hm. eapply buildFormatMap_id, Hm.
  - intros d. unfold truthyQ. destruct (duration info) as [d' |]; [| discriminate].
    destruct (Qeq_bool d' 0) eqn:E; [discriminate |].
    intros [= ->] Hd. apply Qeq_bool_iff in Hd. congruence.
Qed.

End ProbeComposition.

(** [listFormats_rows] on a listing of one row, with an empty metadata
    document. *)
Lemma listFormats_rows_witness :
  let listing := listing_without_rows +:+ String Downloader.LF "140 m4a audio only | 128k" in
  ascii_text listing /\
  exists listed,
    Downloader.listFormats parse_empty_object (Downloader.Ok listing) (Downloader.Ok "{}") =
      Downloader.Ok listed /\
    map Downloader.fmt_id (Downloader.p_formats listed) = ["140"] /\
    map Downloader.extension (Downloader.p_formats listed) = ["m4a"].
Proof.
  intros listing.
  assert (Hascii : ascii_text listing) by (apply ascii_text_check; reflexivity).
  split; [exact Hascii |].
  eexists. split; [vm_compute; reflexivity |].
  destruct (listFormats_rows parse_empty_object listing (Downloader.Ok "{}") _ Hascii eq_refl)
    as (Hid & Hext & _).
  split; (etransitivity; [eassumption | vm_compute; reflexivity]).
Defined.

Section KeyboardProperties.
Import JS Downloader Runtime Bot.

Lemma rows_of_two_spec (buttons : list Button) :
  concat (rows_of_two buttons) = buttons /\
  Forall (fun row => (1 <= length row <= 2)%nat) (rows_of_two buttons).
Proof.
  assert (H : forall n (l : list Button), (length l <= n)%nat ->
            concat (rows_of_two l) = l /\
            Forall (fun row => (1 <= length row <= 2)%nat) (rows_of_two l)).
  { induction n as [| n IH]; intros l Hl.
    - destruct l; [split; [reflexivity | constructor] | simpl in Hl; lia].
    - destruct l as [| a [| b rest]].
      + split; [reflexivity | constructor].
      + split; [reflexivity | repeat constructor].
      + destruct (IH rest) as [Hc Hr]; [simpl in Hl; lia |].
        cbn [rows_of_two concat app]. rewrite Hc. split; [reflexivity |].
        constructor; [simpl; lia | exact Hr]. }
  apply (H (length buttons)). lia.
Qed.

(** X11. The keyboard of a candidate list has one button per candidate,
    in the order of the list, then the Cancel button: the button at
    place [i] shows the label of candidate [i] and carries the choice
    [fmt:<kind>:<i>].  A row holds one or two buttons, and Cancel has
    the last row to itself. *)
Theorem buildFormatKeyboard_layout (formats_ : list Candidate) (type_ : Kind) :
  let keyboard := buildFormatKeyboard formats_ type_ in
  (forall i,
     concat keyboard !! i =
     match formats_ !! i with
     | Some fmt =>
       Some (displayLabel fmt,
             "fmt:" +:+ kind_name type_ +:+ ":" +:+ string_of_Z (Z.of_nat i))
     | None => if (i =? length formats_)%nat then Some ("Cancel", "cancel") else None
     end) /\
  Forall (fun row => (1 <= length row <= 2)%nat) keyboard /\
  last keyboard = Some [("Cancel", "cancel")].
Proof.
  intros keyboard. subst keyboard. unfold buildFormatKeyboard.
  set (buttons := imap _ formats_).
  destruct (rows_of_two_spec buttons) as [Hconcat Hrows].
  split; [| split].
  - intros i. rewrite concat_app, Hconcat. cbn [concat app].
    assert (Hlen : length buttons = length formats_) by apply length_imap.
    destruct (formats_ !! i) as [fmt |] eqn:Hi.
    + rewrite lookup_app_l by (rewrite Hlen; eapply lookup_lt_Some; eassumption).
      subst buttons. rewrite list_lookup_imap, Hi. reflexivity.
    + apply lookup_ge_None in Hi. rewrite lookup_app_r by lia. rewrite Hlen.
      destruct (Nat.eqb_spec i (length formats_)) as [-> | Hne].
      * rewrite Nat.sub_diag. reflexivity.
      * destruct (i - length formats_)%nat as [| k] eqn:E; [lia | reflexivity].
  - apply Forall_app. split; [exact Hrows | repeat constructor].
  - apply last_snoc.
Qed.

End KeyboardProperties.

Section HandlerProperties.
Import JS Downloader SessionStore Runtime DownloaderIO Bot.
Variable config : Config.
Variable String_of_number : Q -> string.

(** X12. A choice whose index names no candidate of the stored list, as
    from a keyboard that is out of date, is answered with
    [Unknown format.]; nothing is queued and the session stays as it
    is. *)
Theorem stale_choice_rejected
    (env : FormatEnv) (ctx : Ctx) (type_ : Kind) (index : nat) (w : World)
    (session : gmap string Value) :
  isAuthorized config (from_id ctx) = true ->
  sessions w !! chat_id ctx = Some session ->
  same_user (session !! "userId") (from_id ctx) = true ->
  (forall candidates,
     session !! "formats" = Some (Formats candidates) -> (length candidates <= index)%nat) ->
  onFormat config String_of_number env ctx type_ index w =
    (Returned tt, after w [AnswerCbQuery (Some "Unknown format.") true]).
Proof.
  intros Hauth Hs Huser Hstale.
  assert (Hnone : formats_of (session !! "formats") ≫= (fun l => l !! index) = None).
  { destruct (session !! "formats") as [[| | | | | candidates] |]; try reflexivity.
    cbn. apply lookup_ge_None. apply Hstale. reflexivity. }
  unfold onFormat. rewrite Hauth.
  cbn [negb bind sessions_get with_sessions sessions queue dirs trace].
  unfold SessionStore.get. rewrite Hs. cbn beta iota. rewrite Huser. cbn [negb].
  cbn beta iota. rewrite Hnone. reflexivity.
Qed.

(** X13. A text without a link from an allowed user ends the request of
    the chat: the session is deleted, no new one is created, and the
    user is asked for a valid URL. *)
Theorem text_without_url_ends_request (env : TextEnv) (ctx : Ctx) (w : World) :
  isAuthorized config (from_id ctx) = true ->
  sanitizeUrl (text ctx) = None ->
  let w' := snd (onText config env ctx w) in
  fst (onText config env ctx w) = Returned tt /\
  sessions w' = base.delete (chat_id ctx) (sessions w) /\
  queue w' = queue w /\ dirs w' = dirs w /\
  last (trace w') = Some (Reply (chat_id ctx) "Please send a valid media URL." None).
Proof.
  intros Hauth Hurl w'. subst w'. unfold onText. rewrite Hauth, Hurl.
  cbn [negb bind sessions_get with_sessions sessions queue dirs trace].
  unfold SessionStore.get.
  destruct (sessions w !! chat_id ctx) as [existing |] eqn:Hs;
    [destruct (message_id_of (existing !! "formatMessageId"));
     destruct (message_id_of (existing !! "selectionMessageId")) |];
    run_effects; rewrite ?last_snoc;
    repeat split; try reflexivity.
  symmetry. apply delete_id. exact Hs.
Qed.

(** X14. When a job is fulfilled: after a successful delivery the session
    of the chat is deleted and the status message is set to disappear;
    after a result that asks to keep the session, the stored candidate
    list, if it is there and not empty, is offered again and only
    [formatMessageId] changes in the session, and otherwise nothing
    happens at all.  The continuation never throws and touches neither
    the queue nor another chat. *)
Theorem fulfilled_job_session (retry : Z) (job : Job) (result : TaskResult) (w : World) :
  let w' := snd (jobSettled retry job (Returned result) w) in
  fst (jobSettled retry job (Returned result) w) = Returned tt /\
  queue w' = queue w /\ dirs w' = dirs w /\
  (forall other, other <> j_chat job -> sessions w' !! other = sessions w !! other) /\
  (success result = true ->
   sessions w' !! j_chat job = None /\
   trace w' = trace w ++ [DeleteMessageLater 15000 (j_chat job) (j_status job)]) /\
  (success result = false -> keepSession result = true ->
   match sessions w !! j_chat job ≫= (fun o => formats_of (o !! "formats")) with
   | Some ((_ :: _) as offered) =>
     (exists session,
        sessions w !! j_chat job = Some session /\
        sessions w' !! j_chat job = Some (<["formatMessageId" := Num retry]> session)) /\
     exists prompt,
       trace w' = trace w ++
         [Reply (j_chat job) prompt (Some (buildFormatKeyboard offered (j_type job)))]
   | _ => w' = w
   end).
Proof.
  intros w'. subst w'. unfold jobSettled, onFulfilled, try_catch.
  destruct (success result), (keepSession result); run_effects.
  - split; [reflexivity |]. split; [reflexivity |]. split; [reflexivity |].
    split; [intros other Hne; apply lookup_delete_ne; congruence |].
    split; [| discriminate]. intros _. split; [apply lookup_delete_eq | reflexivity].
  - split; [reflexivity |]. split; [reflexivity |]. split; [reflexivity |].
    split; [intros other Hne; apply lookup_delete_ne; congruence |].
    split; [| discriminate]. intros _. split; [apply lookup_delete_eq | reflexivity].
  - unfold SessionStore.get.
    destruct (sessions w !! j_chat job) as [session |] eqn:Hs; cbn [mbind option_bind];
      [destruct (formats_of (session !! "formats")) as [[| c cs] |] |];
      run_effects; rewrite ?Hs; cbn [default from_option id];
      (split; [reflexivity |]); (split; [reflexivity |]); (split; [reflexivity |]);
      (split; [try reflexivity |]); try (split; [discriminate |]);
      try (intros _ _; destruct w; reflexivity).
    + intros other Hne. apply lookup_insert_ne. congruence.
    + intros _ _. split.
      * exists session. split; [reflexivity |].
        rewrite lookup_insert_eq, spread_singleton. reflexivity.
      * eexists. reflexivity.
  - split; [reflexivity |]. split; [reflexivity |]. split; [reflexivity |].
    split; [intros other Hne; apply lookup_delete_ne; congruence |].
    split; discriminate.
Qed.

End HandlerProperties.

Section DownloadProperties.
Import JS Downloader SessionStore Runtime DownloaderIO Bot.
Variable config : Config.

(** What [downloadMedia] does to the world, and what holds when it
    returns *)
Lemma downloadMedia_cases
    (env : DownloadEnv) (url formatId : string) (type_ : Kind) (expectedTitle : option string)
    (chatId messageId : Z) (targetFileName_ : option string) (w : World) :
  let r := downloadMedia config env url formatId type_ expectedTitle
             (updateStatus chatId messageId) targetFileName_ w in
  sessions (snd r) = sessions w /\ queue (snd r) = queue w /\
  (exists added,
     trace (snd r) = trace w ++ added /\
     existsb is_remove added = false /\ existsb is_upload added = false) /\
  forall download, fst r = Returned download ->
    ensureDirOk env = true /\ binaryExists env = true /\ spawnResult env = Exited 0 /\
    (exists files file,
       readdirFiles env = Some files /\ pickDownloadedFile files = Some file /\
       truthy file = true /\
       d_title download =
         match expectedTitle ≫= nonempty with
         | Some expected => expected
         | None => sanitizeFileName (Some (fst (parsePath file)))
         end /\
       exists ext,
         fileName download =
           sanitizeFileName (Some (default (randomName env) (targetFileName_ ≫= nonempty)))
           +:+ ext /\
         truthy ext = true /\
         (truthy (snd (parsePath file)) = true -> ext = snd (parsePath file))) /\
    statSize env = Some (size download) /\
    workingDir download = path_join (DOWNLOAD_TEMP_DIR config) (jobId env) /\
    filePath download = path_join (workingDir download) (fileName download) /\
    workingDir download ∈ dirs (snd r).
Proof.
  intros r. subst r.
  unfold downloadMedia, ensureDir, runYtDlp, runCommand, readdir, move, stat.
  destruct (ensureDirOk env);
    [| run_effects; repeat split; try discriminate;
       eexists; (split; [reflexivity |]); split; reflexivity].
  destruct (binaryExists env);
    [| run_effects; repeat split; try discriminate;
       rewrite <- ?app_assoc; eexists; (split; [reflexivity |]); split; reflexivity].
  destruct (spawnResult env) as [| [| p | p]];
    try (run_effects; repeat split; try discriminate;
         rewrite <- ?app_assoc; eexists; (split; [reflexivity |]); split; reflexivity).
  destruct (readdirFiles env) as [files |];
    [| run_effects; repeat split; try discriminate;
       rewrite <- ?app_assoc; eexists; (split; [reflexivity |]); split; reflexivity].
  run_effects.
  destruct (pickDownloadedFile files) as [file |] eqn:Hpick; cbn [mbind option_bind];
    [| run_effects; repeat split; try discriminate;
       rewrite <- ?app_assoc; eexists; (split; [reflexivity |]); split; reflexivity].
  change (nonempty file) with (if truthy file then Some file else None).
  destruct (truthy file) eqn:Hfile;
    [| run_effects; repeat split; try discriminate;
       rewrite <- ?app_assoc; eexists; (split; [reflexivity |]); split; reflexivity].
  match goal with |- context [String.eqb ?a ?b] => destruct (String.eqb a b) end.
  - run_effects.
    destruct (statSize env) as [n |];
      [| run_effects; repeat split; try discriminate;
         rewrite <- ?app_assoc; eexists; (split; [reflexivity |]); split; reflexivity].
    run_effects. split; [reflexivity |]. split; [reflexivity |].
    split; [rewrite <- ?app_assoc; eexists; (split; [reflexivity |]); split; reflexivity |].
    intros download Hd.
    assert (E := f_equal (fun o => match o with Returned d => d | Thrown _ => download end) Hd).
    cbv beta iota in E. clear Hd. subst download.
    cbn [d_title fileName size workingDir filePath].
    split; [reflexivity |]. split; [reflexivity |]. split; [reflexivity |].
    split.
    { exists files, file. split; [reflexivity |]. split; [exact Hpick |].
      split; [exact Hfile |].
      split; [destruct (expectedTitle ≫= nonempty); reflexivity |].
      eexists. split; [reflexivity |].
      destruct (truthy (snd (parsePath file))) eqn:Hext.
      - split; [exact Hext | reflexivity].
      - split; [destruct type_; reflexivity | discriminate]. }
    split; [reflexivity |]. split; [reflexivity |]. split; [reflexivity |].
    apply elem_of_union_l, elem_of_singleton. reflexivity.
  - destruct (moveOk env);
      [| run_effects; repeat split; try discriminate;
         rewrite <- ?app_assoc; eexists; (split; [reflexivity |]); split; reflexivity].
    run_effects.
    destruct (statSize env) as [n |];
      [| run_effects; repeat split; try discriminate;
         rewrite <- ?app_assoc; eexists; (split; [reflexivity |]); split; reflexivity].
    run_effects. split; [reflexivity |]. split; [reflexivity |].
    split; [rewrite <- ?app_assoc; eexists; (split; [reflexivity |]); split; reflexivity |].
    intros download Hd.
    assert (E := f_equal (fun o => match o with Returned d => d | Thrown _ => download end) Hd).
    cbv beta iota in E. clear Hd. subst download.
    cbn [d_title fileName size workingDir filePath].
    split; [reflexivity |]. split; [reflexivity |]. split; [reflexivity |].
    split.
    { exists files, file. split; [reflexivity |]. split; [exact Hpick |].
      split; [exact Hfile |].
      split; [destruct (expectedTitle ≫= nonempty); reflexivity |].
      eexists. split; [reflexivity |].
      destruct (truthy (snd (parsePath file))) eqn:Hext.
      - split; [exact Hext | reflexivity].
      - split; [destruct type_; reflexivity | discriminate]. }
    split; [reflexivity |]. split; [reflexivity |]. split; [reflexivity |].
    apply elem_of_union_l, elem_of_singleton. reflexivity.
Qed.


(** The task changes neither the sessions nor the queue. *)
Lemma task_frame (env : TaskEnv) (job : Job) (w : World) :
  sessions (snd (task config env job w)) = sessions w /\
  queue (snd (task config env job w)) = queue w.
Proof.
  pose proof (downloadMedia_cases (downloadEnv env)
                (j_url job) (fmt_id (format (j_format job))) (j_type job) (j_title job)
                (j_chat job) (j_status job) (nonempty (targetFileName (j_format job)))
                (after w [EditMessageText (j_chat job) (j_status job) "Preparing download..."]))
    as H.
  cbv zeta in H. destruct H as (Hs & Hq & _ & _).
  unfold after in Hs, Hq. cbn [sessions queue dirs trace] in Hs, Hq.
  unfold task, try_finally. run_effects.
  match goal with
  | |- context [downloadMedia ?c ?e ?u ?f ?t ?x ?s ?n ?w0] =>
    change (sessions (snd (downloadMedia c e u f t x s n w0)) = sessions w) in Hs;
    change (queue (snd (downloadMedia c e u f t x s n w0)) = queue w) in Hq;
    destruct (downloadMedia c e u f t x s n w0) as [[download | e0] w1]
  end; cbn [snd] in Hs, Hq.
  - unfold cleanup, try_catch.
    destruct (size download >? TELEGRAM_FILE_LIMIT_BYTES config).
    + destruct (removeOk env); run_effects; split; assumption.
    + destruct (sendOutcome env) as [| e]; [| destruct (isTelegramEntityTooLarge e)];
        destruct (removeOk env); run_effects; split; assumption.
  - run_effects. split; assumption.
Qed.

(** The continuations of a job's promise return, and change neither the
    queue nor the directories. *)
Lemma jobSettled_frame (retry : Z) (job : Job) (outcome : Outcome TaskResult) (w : World) :
  fst (jobSettled retry job outcome w) = Returned tt /\
  queue (snd (jobSettled retry job outcome w)) = queue w /\
  dirs (snd (jobSettled retry job outcome w)) = dirs w.
Proof.
  destruct outcome as [result | e]; [| rewrite jobSettled_rejected; repeat split].
  unfold jobSettled, onFulfilled, try_catch.
  destruct (success result), (keepSession result); run_effects; try (repeat split; fail).
  unfold SessionStore.get.
  destruct (sessions w !! j_chat job) as [session |]; cbn [mbind option_bind];
    [destruct (formats_of (session !! "formats")) as [[| c cs] |] |];
    run_effects; repeat split.
Qed.

(** The completion of a running job is a completion step of the queue. *)
Lemma completeJob_queue
    (env : TaskEnv) (retry : Z) (i : nat) (w : World) (job : Job) :
  DownloadQueue.running (queue w) !! i = Some job ->
  exists o, queue (snd (completeJob config env retry i w)) = DownloadQueue.finish i o (queue w).
Proof.
  intros Hi. unfold completeJob. rewrite Hi.
  destruct (task_frame env job w) as [_ Hq].
  destruct (task config env job w) as [outcome w1]. cbn [snd] in Hq.
  eexists. rewrite (proj1 (proj2 (jobSettled_frame retry job outcome _))).
  cbn [queue]. rewrite Hq. reflexivity.
Qed.

(** X16. Whatever becomes of a running job, its completion settles it in
    the queue and releases its slot: the job is recorded as fulfilled
    exactly when its task returned, as rejected when it threw, and the
    completion itself never throws. *)
Theorem completeJob_releases_slot
    (env : TaskEnv) (retry : Z) (i : nat) (w : World) (job : Job) :
  DownloadQueue.running (queue w) !! i = Some job ->
  let r := completeJob config env retry i w in
  fst r = Returned tt /\
  exists o,
    queue (snd r) = DownloadQueue.finish i o (queue w) /\
    DownloadQueue.settled (queue (snd r)) = DownloadQueue.settled (queue w) ++ [(job, o)] /\
    (o = DownloadQueue.Fulfilled <-> exists result, fst (task config env job w) = Returned result).
Proof.
  intros Hi r. subst r. unfold completeJob. rewrite Hi.
  destruct (task_frame env job w) as [_ Hq].
  destruct (task config env job w) as [outcome w1] eqn:Htask. cbn [fst snd] in *.
  match goal with |- context [jobSettled retry job outcome ?w2] =>
    destruct (jobSettled_frame retry job outcome w2) as (Hret & Hq2 & _)
  end.
  split; [exact Hret |].
  exists (match outcome with
          | Returned _ => DownloadQueue.Fulfilled
          | Thrown _ => DownloadQueue.Rejected
          end).
  rewrite Hq2. cbn [queue]. rewrite Hq. split; [reflexivity |]. split.
  - unfold DownloadQueue.finish. rewrite Hi.
    destruct (head (DownloadQueue.queue (queue w))); reflexivity.
  - destruct outcome as [result | e]; split; try discriminate; eauto.
    intros [result [=]].
Qed.

(** X17. Once the download has returned, what the task does with the
    file: a file larger than the limit is not uploaded, and the result
    asks to keep the session; otherwise the file is uploaded once, and
    the task reports success when the upload succeeds, asks to keep the
    session when Telegram finds the file too large, and throws the
    error of any other failed upload.  On each of these paths the
    removal of the working directory is attempted, and the directory is
    gone when the removal succeeds.  Sessions and queue are untouched. *)
Theorem task_outcome_after_download
    (env : TaskEnv) (job : Job) (w w1 : World) (download : DownloadResult) :
  downloadMedia config (downloadEnv env)
    (j_url job) (fmt_id (format (j_format job))) (j_type job) (j_title job)
    (updateStatus (j_chat job) (j_status job)) (nonempty (targetFileName (j_format job)))
    (after w [EditMessageText (j_chat job) (j_status job) "Preparing download..."]) =
    (Returned download, w1) ->
  let r := task config env job w in
  sessions (snd r) = sessions w /\ queue (snd r) = queue w /\
  dirs (snd r) =
    (if removeOk env then dirs w1 ∖ {[ workingDir download ]} else dirs w1) /\
  exists added,
    trace (snd r) = trace w1 ++ added /\
    In (Remove (workingDir download)) added /\
    if size download >? MAX_FILE_SIZE_BYTES config
    then existsb is_upload added = false /\
         fst r = Returned {| success := false; keepSession := true |}
    else length (List.filter is_upload added) = 1%nat /\
         fst r =
         match sendOutcome env with
         | Sent => Returned {| success := true; keepSession := false |}
         | SendFailed e =>
           if isTelegramEntityTooLarge e
           then Returned {| success := false; keepSession := true |}
           else Thrown e
         end.
Proof.
  intros Hdl r. subst r.
  destruct (task_frame env job w) as [Hs Hq].
  split; [exact Hs |]. split; [exact Hq |]. clear Hs Hq.
  unfold updateStatus, emit, after in Hdl. cbn [sessions queue dirs trace] in Hdl.
  unfold task, try_finally. run_effects. rewrite !Hdl.
  unfold cleanup, try_catch, TELEGRAM_FILE_LIMIT_BYTES.
  destruct (size download >? MAX_FILE_SIZE_BYTES config).
  - destruct (removeOk env); run_effects; rewrite <- !app_assoc;
      (split; [reflexivity |]);
      eexists; (split; [reflexivity |]); (split; [simpl; tauto |]); split; reflexivity.
  - destruct (sendOutcome env) as [| e]; [| destruct (isTelegramEntityTooLarge e)];
      destruct (removeOk env); run_effects; rewrite <- !app_assoc;
      (split; [reflexivity |]);
      eexists; (split; [reflexivity |]); (split; [simpl; tauto |]);
      (split; [destruct (j_type job);
                 [match goal with |- context [if ?c then _ else _] => destruct c end |];
                 reflexivity
              | reflexivity]).
Qed.

End DownloadProperties.

Section ChoiceProperties.
Import JS Downloader SessionStore Runtime DownloaderIO Bot.
Variable config : Config.
Variable String_of_number : Q -> string.

(** Reads a field of a session after the updates of a handler. *)
Ltac lookup_fields :=
  rewrite ?spread_lookup;
  repeat first
    [ rewrite lookup_insert_eq
    | rewrite lookup_insert_ne by discriminate
    | rewrite lookup_singleton_eq
    | rewrite lookup_singleton_ne by discriminate
    | rewrite lookup_empty ];
  cbn beta iota.

(** X18. When the owner picks a candidate whose estimated size is unknown
    or within the limit, the job handed to the queue is for that
    candidate, the kind chosen and the URL and title of the session; the
    handler returns, [Queued...] is sent, and when the job has to wait
    the status message shows its place.  The session stays, with its
    candidates, owner and URL, and without a format message. *)
Theorem fitting_choice_is_queued
    (env : FormatEnv) (ctx : Ctx) (type_ : Kind) (index : nat) (w : World)
    (session : gmap string Value) (candidates : list Candidate)
    (selectedFormat : Candidate) :
  isAuthorized config (from_id ctx) = true ->
  sessions w !! chat_id ctx = Some session ->
  same_user (session !! "userId") (from_id ctx) = true ->
  session !! "formats" = Some (Formats candidates) ->
  candidates !! index = Some selectedFormat ->
  (forall estimate,
     or_else (truthyZ (estimatedSizeBytes selectedFormat))
             (truthyZ (approxSize (format selectedFormat))) = Some estimate ->
     estimate <= MAX_FILE_SIZE_BYTES config) ->
  let job :=
    {| j_chat := chat_id ctx;
       j_url := default "" (string_of (session !! "url"));
       j_title := string_of (session !! "title");
       j_format := selectedFormat;
       j_type := type_;
       j_status := statusMessage env |} in
  let ticket := snd (DownloadQueue.enqueue job (queue w)) in
  let w' := snd (onFormat config String_of_number env ctx type_ index w) in
  fst (onFormat config String_of_number env ctx type_ index w) = Returned tt /\
  queue w' = fst (DownloadQueue.enqueue job (queue w)) /\
  dirs w' = dirs w /\
  (exists session',
     sessions w' !! chat_id ctx = Some session' /\
     session' !! "formats" = Some (Formats candidates) /\
     session' !! "userId" = session !! "userId" /\
     session' !! "url" = session !! "url" /\
     message_id_of (session' !! "formatMessageId") = None) /\
  In (Reply (chat_id ctx) "Queued..." None) (trace w') /\
  (DownloadQueue.position ticket > 0 ->
   last (trace w') =
     Some (EditMessageText (chat_id ctx) (statusMessage env)
             ("Queued (#" +:+ string_of_Z (DownloadQueue.position ticket) +:+
              "). Waiting for your turn..."))).
Proof.
  intros Hauth Hs Huser Hformats Hsel Hfit job ticket w'. subst w' ticket job.
  assert (Hsmall :
            match or_else (truthyZ (estimatedSizeBytes selectedFormat))
                          (truthyZ (approxSize (format selectedFormat))) with
            | Some estimate => estimate >? TELEGRAM_FILE_LIMIT_BYTES config
            | None => false
            end = false).
  { destruct (or_else _ _) as [estimate |]; [| reflexivity].
    specialize (Hfit estimate eq_refl). unfold TELEGRAM_FILE_LIMIT_BYTES. lia. }
  unfold onFormat. rewrite Hauth.
  cbn [negb bind sessions_get with_sessions sessions queue dirs trace].
  unfold SessionStore.get.
  rewrite Hs. cbn beta iota. rewrite Huser. cbn [negb]. cbn beta iota.
  rewrite Hformats. cbn [formats_of mbind option_bind]. rewrite Hsel.
  rewrite Hsmall.
  destruct (message_id_of (session !! "formatMessageId")) as [m |] eqn:Hm;
    run_effects;
    rewrite ?spread_singleton, ?lookup_insert_eq, ?Hs; cbn [default from_option id];
    match goal with
    | |- context [DownloadQueue.enqueue ?j ?q] =>
      destruct (DownloadQueue.enqueue j q) as [q' tk] eqn:Henq
    end;
    cbn [fst snd];
    destruct (Z.gtb_spec (DownloadQueue.position tk) 0) as [Hpos | Hpos];
    run_effects;
    (split; [reflexivity |]); (split; [reflexivity |]); (split; [reflexivity |]);
    (split; [eexists; split; [apply lookup_insert_eq |];
             rewrite ?lookup_insert_ne by discriminate; rewrite ?lookup_insert_eq;
             repeat split; try reflexivity; assumption |]);
    (split; [rewrite ?in_app_iff; simpl; tauto |]);
    intros Hgt; try lia; rewrite last_snoc; reflexivity.
Qed.

(** X19. The choice of a kind by the owner always runs to its end: the
    handler returns, whether the probe fails or not, and the last thing
    it does is delete the loading message.  The session stays, with
    its URL and owner; the queue and the directories are untouched.
    When the probe fails, the user is told so and the candidates of the
    session are as before. *)
Theorem kind_choice_completes
    (env : TypeEnv) (ctx : Ctx) (type_ : Kind) (w : World) (session : gmap string Value) :
  isAuthorized config (from_id ctx) = true ->
  sessions w !! chat_id ctx = Some session ->
  same_user (session !! "userId") (from_id ctx) = true ->
  let w' := snd (onType config env ctx type_ w) in
  fst (onType config env ctx type_ w) = Returned tt /\
  last (trace w') = Some (DeleteMessage (chat_id ctx) (loadingMessage env)) /\
  queue w' = queue w /\ dirs w' = dirs w /\
  exists session',
    sessions w' !! chat_id ctx = Some session' /\
    session' !! "url" = session !! "url" /\
    session' !! "userId" = session !! "userId" /\
    (forall e, probe env = Failed e ->
       session' !! "formats" = session !! "formats" /\
       In (Reply (chat_id ctx) "Could not retrieve formats. Please try again later." None)
          (trace w')).
Proof.
  intros Hauth Hs Huser w'. subst w'.
  unfold onType. rewrite Hauth.
  cbn [negb bind sessions_get with_sessions sessions queue dirs trace].
  unfold SessionStore.get. rewrite Hs. cbn beta iota. rewrite Huser. cbn [negb].
  cbn beta iota. unfold try_finally, try_catch.
  destruct (or_else (message_id_of (session !! "selectionMessageId"))
                    (truthyZ (prompt_message_id ctx))) as [m |];
    (destruct (probe env) as [listed | e0];
       [destruct (getFormatsByType (p_formats listed) type_ (p_durationSeconds listed))
          as [| c cs] |]);
    run_effects; rewrite ?spread_singleton, ?lookup_insert_eq, ?Hs;
    cbn [default from_option id]; rewrite ?last_snoc;
    (split; [reflexivity |]); (split; [reflexivity |]);
    (split; [reflexivity |]); (split; [reflexivity |]);
    (eexists; split; [first [apply lookup_insert_eq | exact Hs | reflexivity] |]);
    (split; [lookup_fields; reflexivity |]);
    (split; [lookup_fields; reflexivity |]);
    intros e [= <-];
    (split; [lookup_fields; reflexivity | rewrite ?in_app_iff; simpl; tauto]).
Qed.

(** X20. When the probe succeeds and the selector offers candidates, the
    list stored in the session is the list shown on the keyboard, so
    that the index a button carries names the same candidate in the
    session; the session also records the kind and the format message,
    and keeps its URL and owner. *)
Theorem kind_choice_stores_offered
    (env : TypeEnv) (ctx : Ctx) (type_ : Kind) (w : World) (session : gmap string Value)
    (listed : ProbeResult) (first : Candidate) (others : list Candidate) :
  isAuthorized config (from_id ctx) = true ->
  sessions w !! chat_id ctx = Some session ->
  same_user (session !! "userId") (from_id ctx) = true ->
  probe env = Ok listed ->
  getFormatsByType (p_formats listed) type_ (p_durationSeconds listed) = first :: others ->
  let w' := snd (onType config env ctx type_ w) in
  (exists session',
     sessions w' !! chat_id ctx = Some session' /\
     session' !! "formats" = Some (Formats (first :: others)) /\
     session' !! "type" = Some (Str (kind_name type_)) /\
     session' !! "formatMessageId" = Some (Num (formatMessage env)) /\
     session' !! "selectionMessageId" = Some Null /\
     session' !! "url" = session !! "url" /\
     session' !! "userId" = session !! "userId") /\
  exists prompt,
    In (Reply (chat_id ctx) prompt (Some (buildFormatKeyboard (first :: others) type_)))
       (trace w').
Proof.
  intros Hauth Hs Huser Hprobe Hoffered w'. subst w'.
  unfold onType. rewrite Hauth.
  cbn [negb bind sessions_get with_sessions sessions queue dirs trace].
  unfold SessionStore.get. rewrite Hs. cbn beta iota. rewrite Huser. cbn [negb].
  cbn beta iota. unfold try_finally, try_catch. rewrite Hprobe, Hoffered.
  destruct (or_else (message_id_of (session !! "selectionMessageId"))
                    (truthyZ (prompt_message_id ctx))) as [m |];
    run_effects; rewrite ?spread_singleton, ?lookup_insert_eq, ?Hs;
    cbn [default from_option id];
    (split; [| eexists; rewrite ?in_app_iff; simpl; tauto]);
    (eexists; split; [first [apply lookup_insert_eq | reflexivity] |]);
    repeat split; lookup_fields; reflexivity.
Qed.

End ChoiceProperties.

(** [stale_choice_rejected] in chat 7, whose session offers one
    candidate: its owner presses a button that carries index 3. *)
Lemma stale_choice_rejected_witness :
  let env := {| Bot.retryMessage := 104; Bot.statusMessage := 105 |} in
  let w := Sample.world [Sample.small] in
  Bot.isAuthorized Sample.config (Some 1) = true /\
  Bot.onFormat Sample.config Sample.show env (Sample.ctx 1 "") Downloader.audio 3 w =
    (Runtime.Returned tt, after w [Runtime.AnswerCbQuery (Some "Unknown format.") true]).
Proof.
  intros env w.
  assert (Hauth : Bot.isAuthorized Sample.config (Some 1) = true) by reflexivity.
  split; [exact Hauth |].
  apply (stale_choice_rejected Sample.config Sample.show env (Sample.ctx 1 "")
           Downloader.audio 3 w (Sample.session [Sample.small]) Hauth eq_refl eq_refl).
  intros candidates H.
  assert (E : candidates = [Sample.small]).
  { change (Some (SessionStore.Formats [Sample.small]) =
            Some (SessionStore.Formats candidates)) in H.
    congruence. }
  rewrite E. simpl. lia.
Defined.

(** [text_without_url_ends_request] in chat 7: its owner writes
    [hello], and the session is gone. *)
Lemma text_without_url_ends_request_witness :
  let w := Sample.world [Sample.small] in
  let env := {| Bot.now := 2000; Bot.selectionMessage := 120 |} in
  Bot.sanitizeUrl "hello" = None /\
  Runtime.sessions (snd (Bot.onText Sample.config env (Sample.ctx 1 "hello") w)) =
    base.delete 7 (Runtime.sessions w).
Proof.
  intros w env.
  assert (Hurl : Bot.sanitizeUrl "hello" = None) by reflexivity.
  split; [exact Hurl |].
  destruct (text_without_url_ends_request Sample.config env (Sample.ctx 1 "hello") w
              eq_refl Hurl) as (_ & Hs & _).
  exact Hs.
Defined.

(** [fitting_choice_is_queued] in chat 7: the owner picks the candidate
    of 3,000,000 bytes, and the job for it is handed to the queue. *)
Lemma fitting_choice_is_queued_witness :
  let env := {| Bot.retryMessage := 104; Bot.statusMessage := 105 |} in
  let w := Sample.world [Sample.small] in
  let w' := snd (Bot.onFormat Sample.config Sample.show env (Sample.ctx 1 "")
                   Downloader.audio 0 w) in
  Runtime.queue w' =
    fst (DownloadQueue.enqueue
           {| Runtime.j_chat := 7; Runtime.j_url := "https://youtu.be/abc";
              Runtime.j_title := Some "T"; Runtime.j_format := Sample.small;
              Runtime.j_type := Downloader.audio; Runtime.j_status := 105 |}
           (Runtime.queue w)).
Proof.
  intros env w w'.
  destruct (fitting_choice_is_queued Sample.config Sample.show env (Sample.ctx 1 "")
              Downloader.audio 0 w (Sample.session [Sample.small]) [Sample.small]
              Sample.small eq_refl eq_refl eq_refl eq_refl eq_refl)
    as (_ & Hq & _).
  - intros estimate H.
    assert (E : estimate = 3000000) by (cbn in H; congruence).
    rewrite E. apply Z.leb_le. reflexivity.
  - exact Hq.
Defined.

(** [kind_choice_completes] in chat 7 when the probe fails: the last
    effect of the handler is the deletion of the loading message. *)
Lemma kind_choice_completes_witness :
  let env := {| Bot.loadingMessage := 110; Bot.probe := Downloader.Failed "yt-dlp failed";
                Bot.formatMessage := 111 |} in
  let w := Sample.world [Sample.small] in
  let w' := snd (Bot.onType Sample.config env (Sample.ctx 1 "") Downloader.audio w) in
  last (Runtime.trace w') = Some (Runtime.DeleteMessage 7 110).
Proof.
  intros env w w'.
  destruct (kind_choice_completes Sample.config env (Sample.ctx 1 "") Downloader.audio w
              (Sample.session [Sample.small]) eq_refl eq_refl eq_refl)
    as (_ & Hlast & _).
  exact Hlast.
Defined.

(** [kind_choice_stores_offered] in chat 7 when the probe lists the one
    audio format of the small candidate. *)
Lemma kind_choice_stores_offered_witness :
  let listed :=
    {| Downloader.p_title := Some "T"; Downloader.p_webpageUrl := None;
       Downloader.p_durationSeconds := None;
       Downloader.p_formats := [Downloader.format Sample.small] |} in
  let env := {| Bot.loadingMessage := 110; Bot.probe := Downloader.Ok listed;
                Bot.formatMessage := 111 |} in
  let w := Sample.world [] in
  let w' := snd (Bot.onType Sample.config env (Sample.ctx 1 "") Downloader.audio w) in
  exists session' offered,
    Runtime.sessions w' !! 7 = Some session' /\
    session' !! "formats" = Some (SessionStore.Formats offered) /\
    length offered = 1%nat.
Proof.
  intros listed env w w'.
  assert (Hoffered : exists c,
            Downloader.getFormatsByType (Downloader.p_formats listed) Downloader.audio
              (Downloader.p_durationSeconds listed) = [c])
    by (eexists; vm_compute; reflexivity).
  destruct Hoffered as [c Hc].
  destruct (kind_choice_stores_offered Sample.config env (Sample.ctx 1 "") Downloader.audio w
              (Sample.session []) listed c [] eq_refl eq_refl eq_refl eq_refl Hc)
    as ((session' & Hs & Hf & _) & _).
  exists session', [c]. split; [exact Hs |]. split; [exact Hf | reflexivity].
Defined.


(** [completeJob_releases_slot] for the job of chat 7, which is
    running: its completion returns. *)
Lemma completeJob_releases_slot_witness :
  let w := Sample.downloading in
  DownloadQueue.running (Runtime.queue w) !! 0%nat = Some Sample.job /\
  fst (Bot.completeJob Sample.config (Sample.taskEnv 0 ["abc.m4a"] Bot.Sent) 130 0 w) =
    Runtime.Returned tt.
Proof.
  intros w.
  assert (Hrunning : DownloadQueue.running (Runtime.queue w) !! 0%nat = Some Sample.job)
    by reflexivity.
  split; [exact Hrunning |].
  destruct (completeJob_releases_slot Sample.config (Sample.taskEnv 0 ["abc.m4a"] Bot.Sent)
              130 0 w Sample.job Hrunning) as [Hret _].
  exact Hret.
Defined.

(** [task_outcome_after_download] for the job of chat 7 when the
    download returns: the task leaves the sessions as they were. *)
Lemma task_outcome_after_download_witness :
  let env := Sample.taskEnv 0 ["abc.m4a"] Bot.Sent in
  let w := Sample.downloading in
  exists download w1,
    DownloaderIO.downloadMedia Sample.config (Bot.downloadEnv env)
      (Runtime.j_url Sample.job) (Downloader.fmt_id (Downloader.format (Runtime.j_format Sample.job)))
      (Runtime.j_type Sample.job) (Runtime.j_title Sample.job)
      (Bot.updateStatus (Runtime.j_chat Sample.job) (Runtime.j_status Sample.job))
      (JS.nonempty (Downloader.targetFileName (Runtime.j_format Sample.job)))
      (after w [Runtime.EditMessageText (Runtime.j_chat Sample.job) (Runtime.j_status Sample.job)
                  "Preparing download..."]) =
      (Runtime.Returned download, w1) /\
    Runtime.sessions (snd (Bot.task Sample.config env Sample.job w)) = Runtime.sessions w.
Proof.
  intros env w.
  assert (Hrun : exists download w1,
            DownloaderIO.downloadMedia Sample.config (Bot.downloadEnv env)
              (Runtime.j_url Sample.job)
              (Downloader.fmt_id (Downloader.format (Runtime.j_format Sample.job)))
              (Runtime.j_type Sample.job) (Runtime.j_title Sample.job)
              (Bot.updateStatus (Runtime.j_chat Sample.job) (Runtime.j_status Sample.job))
              (JS.nonempty (Downloader.targetFileName (Runtime.j_format Sample.job)))
              (after w [Runtime.EditMessageText (Runtime.j_chat Sample.job)
                          (Runtime.j_status Sample.job) "Preparing download..."]) =
              (Runtime.Returned download, w1))
    by (eexists; eexists; vm_compute; reflexivity).
  destruct Hrun as (download & w1 & Hrun).
  exists download, w1. split; [exact Hrun |].
  destruct (task_outcome_after_download Sample.config env Sample.job w w1 download Hrun)
    as (Hs & _).
  exact Hs.
Defined.

Section Locality.
Import JS Downloader SessionStore Runtime DownloaderIO Bot.
Variable config : Config.
Variable String_of_number : Q -> string.
Variable c : Z.

Lemma local_ret {A} (a : A) : local_to c (ret a).
Proof. intros w other _. reflexivity. Qed.

Lemma local_throw {A} (e : Error) : local_to c (@throw A e).
Proof. intros w other _. reflexivity. Qed.

Lemma local_emit (e : Effect) : local_to c (emit e).
Proof. intros w other _. reflexivity. Qed.

Lemma local_bind {A B} (m : M A) (k : A -> M B) :
  local_to c m -> (forall a, local_to c (k a)) -> local_to c (bind m k).
Proof.
  intros Hm Hk w other Hne. unfold bind.
  specialize (Hm w other Hne). destruct (m w) as [[a | e] w1]; cbn [snd] in *.
  - rewrite (Hk a w1 other Hne). exact Hm.
  - exact Hm.
Qed.

Lemma local_try_catch {A} (m : M A) (h : Error -> M A) :
  local_to c m -> (forall e, local_to c (h e)) -> local_to c (try_catch m h).
Proof.
  intros Hm Hh w other Hne. unfold try_catch.
  specialize (Hm w other Hne). destruct (m w) as [[a | e] w1]; cbn [snd] in *.
  - exact Hm.
  - rewrite (Hh e w1 other Hne). exact Hm.
Qed.

Lemma local_try_finally {L A} (init : M L) (body : L -> M A) (final : option L -> M unit) :
  local_to c init -> (forall x, local_to c (body x)) -> (forall x, local_to c (final x)) ->
  local_to c (try_finally init body final).
Proof.
  intros Hi Hb Hf w other Hne. unfold try_finally.
  specialize (Hi w other Hne). destruct (init w) as [[x | e] w1]; cbn [snd] in *.
  - specialize (Hb x w1 other Hne). destruct (body x w1) as [r w2]; cbn [snd] in *.
    specialize (Hf (Some x) w2 other Hne).
    destruct (final (Some x) w2) as [[u | e] w3]; cbn [snd] in *; congruence.
  - specialize (Hf None w1 other Hne).
    destruct (final None w1) as [[u | e'] w3]; cbn [snd] in *; congruence.
Qed.

Lemma local_get : local_to c (sessions_get c).
Proof. intros w other _. reflexivity. Qed.

Lemma local_create (initialState : gmap string Value) (now_ : Z) :
  local_to c (sessions_create c initialState now_).
Proof. intros w other Hne. cbn. apply lookup_insert_ne. congruence. Qed.

Lemma local_update (o : gmap string Value) : local_to c (sessions_update c o).
Proof. intros w other Hne. cbn. apply lookup_insert_ne. congruence. Qed.

Lemma local_delete : local_to c (sessions_delete c).
Proof. intros w other Hne. cbn. apply lookup_delete_ne. congruence. Qed.

Lemma local_with_queue {A} (f : DownloadQueue.t Job -> DownloadQueue.t Job * A) :
  local_to c (with_queue f).
Proof. intros w other _. unfold with_queue. destruct (f (queue w)). reflexivity. Qed.

Lemma keeps_get : keeps_request c (sessions_get c).
Proof. intros w session Hs. exists session. repeat split. exact Hs. Qed.

Lemma keeps_ret {A} (a : A) : keeps_request c (ret a).
Proof. intros w session Hs. exists session. repeat split. exact Hs. Qed.

Lemma keeps_throw {A} (e : Error) : keeps_request c (@throw A e).
Proof. intros w session Hs. exists session. repeat split. exact Hs. Qed.

Lemma keeps_emit (e : Effect) : keeps_request c (emit e).
Proof. intros w session Hs. exists session. repeat split. exact Hs. Qed.

Lemma keeps_bind {A B} (m : M A) (k : A -> M B) :
  keeps_request c m -> (forall a, keeps_request c (k a)) -> keeps_request c (bind m k).
Proof.
  intros Hm Hk w session Hs. unfold bind.
  destruct (Hm w session Hs) as (s1 & H1 & Hu1 & Hl1).
  destruct (m w) as [[a | e] w1]; cbn [snd] in *.
  - destruct (Hk a w1 s1 H1) as (s2 & H2 & Hu2 & Hl2).
    exists s2. split; [exact H2 |]. split; congruence.
  - exists s1. split; [exact H1 |]. split; assumption.
Qed.

Lemma keeps_try_catch {A} (m : M A) (h : Error -> M A) :
  keeps_request c m -> (forall e, keeps_request c (h e)) -> keeps_request c (try_catch m h).
Proof.
  intros Hm Hh w session Hs. unfold try_catch.
  destruct (Hm w session Hs) as (s1 & H1 & Hu1 & Hl1).
  destruct (m w) as [[a | e] w1]; cbn [snd] in *.
  - exists s1. split; [exact H1 |]. split; assumption.
  - destruct (Hh e w1 s1 H1) as (s2 & H2 & Hu2 & Hl2).
    exists s2. split; [exact H2 |]. split; congruence.
Qed.

Lemma keeps_try_finally {L A} (init : M L) (body : L -> M A) (final : option L -> M unit) :
  keeps_request c init -> (forall x, keeps_request c (body x)) ->
  (forall x, keeps_request c (final x)) ->
  keeps_request c (try_finally init body final).
Proof.
  intros Hi Hb Hf w session Hs. unfold try_finally.
  destruct (Hi w session Hs) as (s1 & H1 & Hu1 & Hl1).
  destruct (init w) as [[x | e] w1]; cbn [snd] in *.
  - destruct (Hb x w1 s1 H1) as (s2 & H2 & Hu2 & Hl2).
    destruct (body x w1) as [r w2]; cbn [snd] in *.
    destruct (Hf (Some x) w2 s2 H2) as (s3 & H3 & Hu3 & Hl3).
    destruct (final (Some x) w2) as [[u | e] w3]; cbn [snd] in *;
      (exists s3; split; [exact H3 |]; split; congruence).
  - destruct (Hf None w1 s1 H1) as (s3 & H3 & Hu3 & Hl3).
    destruct (final None w1) as [[u | e'] w3]; cbn [snd] in *;
      (exists s3; split; [exact H3 |]; split; congruence).
Qed.

Lemma keeps_with_queue {A} (f : DownloadQueue.t Job -> DownloadQueue.t Job * A) :
  keeps_request c (with_queue f).
Proof.
  intros w session Hs. unfold with_queue. destruct (f (queue w)).
  exists session. repeat split. exact Hs.
Qed.

(** A patch that names neither the user nor the URL keeps the request. *)
Lemma keeps_update (o : gmap string Value) :
  o !! "userId" = None -> o !! "url" = None -> keeps_request c (sessions_update c o).
Proof.
  intros Hu Hl w session Hs.
  unfold sessions_update, with_sessions, SessionStore.update. cbn [fst snd sessions].
  rewrite Hs. cbn [default from_option id].
  eexists. split; [apply lookup_insert_eq |].
  rewrite !spread_lookup, Hu, Hl. split; reflexivity.
Qed.

End Locality.

Create HintDb handlers.

#[local] Hint Resolve keeps_get local_ret local_throw local_emit local_get local_create local_update
  local_delete local_with_queue keeps_ret keeps_throw keeps_emit keeps_with_queue : handlers.

(** Takes a handler apart along its binds and its case distinctions. *)
Ltac handler_steps :=
  repeat first
    [ progress (unfold Bot.reply, Bot.updateStatus, Bot.handleUnauthorized, Runtime.log)
    | apply local_bind; [| intros ?]
    | apply local_try_catch; [| intros ?]
    | apply local_try_finally; [| intros ? | intros ?]
    | apply keeps_bind; [| intros ?]
    | apply keeps_try_catch; [| intros ?]
    | apply keeps_try_finally; [| intros ? | intros ?]
    | apply keeps_update; [reflexivity | reflexivity]
    | solve [auto with handlers]
    | match goal with
      | |- local_to _ (if ?b then _ else _) => destruct b
      | |- keeps_request _ (if ?b then _ else _) => destruct b
      | |- local_to _ (match ?x with _ => _ end) => destruct x
      | |- keeps_request _ (match ?x with _ => _ end) => destruct x
      end ].

Section Isolation.
Import JS Downloader SessionStore Runtime DownloaderIO Bot.
Variable config : Config.
Variable String_of_number : Q -> string.

Lemma onText_local (env : TextEnv) (ctx : Ctx) : local_to (chat_id ctx) (onText config env ctx).
Proof. unfold onText. handler_steps. Qed.

Lemma onType_local (env : TypeEnv) (ctx : Ctx) (type_ : Kind) :
  local_to (chat_id ctx) (onType config env ctx type_).
Proof. unfold onType. cbv zeta. handler_steps. Qed.

Lemma onFormat_local (env : FormatEnv) (ctx : Ctx) (type_ : Kind) (index : nat) :
  local_to (chat_id ctx) (onFormat config String_of_number env ctx type_ index).
Proof. unfold onFormat. cbv zeta. handler_steps. Qed.

Lemma jobSettled_local (retry : Z) (job : Job) (outcome : Outcome TaskResult) :
  local_to (j_chat job) (jobSettled retry job outcome).
Proof. unfold jobSettled, onFulfilled, onRejected. cbv zeta. handler_steps. Qed.

(** X21. The bot keeps the chats apart: whatever arrives in a chat, a
    link, a choice of kind or format, a cancel command or button, and
    whatever becomes of a job of the chat, the sessions of all other
    chats stay as they are. *)
Theorem chats_are_isolated :
  (forall (entry : EntryPoint) (ctx : Ctx) (w : World) (other : Z),
     other <> chat_id ctx ->
     sessions (snd (handle config String_of_number entry ctx w)) !! other =
     sessions w !! other) /\
  (forall (env : TaskEnv) (retry : Z) (i : nat) (w : World) (other : Z),
     (forall job, DownloadQueue.running (queue w) !! i = Some job -> other <> j_chat job) ->
     sessions (snd (completeJob config env retry i w)) !! other = sessions w !! other).
Proof.
  split.
  - intros entry ctx w other Hne.
    destruct entry as [env | env type_ | env type_ index | |]; cbn [handle].
    + apply onText_local, Hne.
    + apply onType_local, Hne.
    + apply onFormat_local, Hne.
    + revert w other Hne. change (local_to (chat_id ctx) (onCancelCommand config ctx)).
      unfold onCancelCommand. handler_steps.
    + revert w other Hne. change (local_to (chat_id ctx) (onCancelAction ctx)).
      unfold onCancelAction. handler_steps.
  - intros env retry i w other Hne. unfold completeJob.
    destruct (DownloadQueue.running (queue w) !! i) as [job |] eqn:Hi; [| reflexivity].
    specialize (Hne job eq_refl).
    destruct (task_frame config env job w) as [Hs _].
    destruct (task config env job w) as [outcome w1]. cbn [snd] in Hs.
    rewrite (jobSettled_local retry job outcome _ other Hne). cbn [sessions].
    rewrite Hs. reflexivity.
Qed.

(** X22. A choice of a kind or of a format never ends the request of the
    chat: whoever makes it and however it ends, a session stored before
    it is stored after it, for the same user and the same URL. *)
Theorem choices_keep_the_request
    (ctx : Ctx) (type_ : Kind) (w : World) (session : gmap string Value) :
  sessions w !! chat_id ctx = Some session ->
  (forall env : TypeEnv,
     exists session',
       sessions (snd (onType config env ctx type_ w)) !! chat_id ctx = Some session' /\
       session' !! "userId" = session !! "userId" /\
       session' !! "url" = session !! "url") /\
  (forall (env : FormatEnv) (index : nat),
     exists session',
       sessions (snd (onFormat config String_of_number env ctx type_ index w)) !! chat_id ctx =
         Some session' /\
       session' !! "userId" = session !! "userId" /\
       session' !! "url" = session !! "url").
Proof.
  intros Hs. split.
  - intros env. revert w session Hs.
    change (keeps_request (chat_id ctx) (onType config env ctx type_)).
    unfold onType. cbv zeta. handler_steps.
  - intros env index. revert w session Hs.
    change (keeps_request (chat_id ctx) (onFormat config String_of_number env ctx type_ index)).
    unfold onFormat. cbv zeta. handler_steps.
Qed.

End Isolation.

(** [choices_keep_the_request] in chat 7 when user 2, who does not own
    the session, picks a format: the session is still that of user 1. *)
Lemma choices_keep_the_request_witness :
  let w := Sample.world [Sample.small] in
  let env := {| Bot.retryMessage := 104; Bot.statusMessage := 105 |} in
  exists session',
    Runtime.sessions
      (snd (Bot.onFormat Sample.config Sample.show env (Sample.ctx 2 "") Downloader.audio 0 w))
      !! 7 = Some session' /\
    session' !! "userId" = Some (SessionStore.Num 1).
Proof.
  intros w env.
  destruct (choices_keep_the_request Sample.config Sample.show (Sample.ctx 2 "")
              Downloader.audio w (Sample.session [Sample.small]) eq_refl) as [_ H].
  destruct (H env 0%nat) as (session' & Hs & Hu & _).
  exists session'. split; [exact Hs |]. rewrite Hu. reflexivity.
Defined.

Section MatcherSoundness.
Import JS.

(** The loop of a repetition finds repetitions of the pattern. *)
Lemma rep_loop_sound {R} (lo : nat) (hi : option nat) (a : re) (k : cont R)
    (IHa : forall (k : cont R) before rest cs x,
       run a before rest cs k = Some x ->
       exists m rest' cs',
         rest = m ++ rest' /\ matches a before m rest' /\
         k (rev m ++ before) rest' cs' = Some x)
    (fuel : nat) : forall n before rest cs x,
  match hi with Some h => (n <= h)%nat | None => True end ->
  rep_loop lo hi a k fuel n before rest cs = Some x ->
  exists j m rest' cs',
    rest = m ++ rest' /\ reps (matches a) j before m rest' /\
    (lo <= n + j)%nat /\
    match hi with Some h => (n + j <= h)%nat | None => True end /\
    k (rev m ++ before) rest' cs' = Some x.
Proof.
  assert (Hstop : forall n before rest cs x,
            match hi with Some h => (n <= h)%nat | None => True end ->
            (if (lo <=? n)%nat then k before rest cs else None) = Some x ->
            exists j m rest' cs',
              rest = m ++ rest' /\ reps (matches a) j before m rest' /\
              (lo <= n + j)%nat /\
              match hi with Some h => (n + j <= h)%nat | None => True end /\
              k (rev m ++ before) rest' cs' = Some x).
  { intros n before rest cs x Hhi H.
    destruct (Nat.leb_spec lo n) as [Hlo |]; [| discriminate].
    exists 0%nat, [], rest, cs. rewrite Nat.add_0_r.
    split; [reflexivity |]. split; [reflexivity |]. split; [exact Hlo |].
    split; [exact Hhi | exact H]. }
  induction fuel as [| fuel IH]; intros n before rest cs x Hhi H.
  - apply (Hstop n before rest cs x Hhi H).
  - cbn [rep_loop] in H. fold (@rep_loop R lo hi a k) in H.
    destruct (match hi with Some h => (n <? h)%nat | None => true end) eqn:Hmore;
      [| apply (Hstop n before rest cs x Hhi H)].
    match type of H with
    | match ?call with _ => _ end = _ => destruct call as [y |] eqn:Hcall
    end; [| apply (Hstop n before rest cs x Hhi H)].
    injection H as ->.
    apply IHa in Hcall as (m1 & rest1 & cs1 & -> & Hm1 & Hk).
    destruct (Nat.ltb_spec (length rest1) (length (m1 ++ rest1))) as [Hlt |]; [| discriminate].
    assert (Hne : m1 <> []) by (intros ->; simpl in Hlt; lia).
    apply IH in Hk as (j & m2 & rest2 & cs2 & -> & Hreps & Hlo & Hhi' & Hk).
    + exists (S j), (m1 ++ m2), rest2, cs2.
      split; [rewrite <- app_assoc; reflexivity |].
      split; [exists m1, m2; repeat split; assumption |].
      split; [lia |].
      split; [destruct hi; [lia | exact I] |].
      rewrite rev_app_distr, <- app_assoc. exact Hk.
    + destruct hi as [h |]; [| exact I]. apply Nat.ltb_lt in Hmore. lia.
Qed.

(** The matcher is sound: a run that succeeds has matched its pattern
    on a prefix of the text and called its continuation on the rest. *)
Lemma run_sound {R} (r : re) : forall (k : cont R) before rest cs x,
  run r before rest cs k = Some x ->
  exists m rest' cs',
    rest = m ++ rest' /\ matches r before m rest' /\
    k (rev m ++ before) rest' cs' = Some x.
Proof.
  induction r as [| p | a IHa b IHb | a IHa b IHb | lo hi a IHa | i a IHa | | |];
    intros k before rest cs x H; cbn [run] in H.
  - exists [], rest, cs. repeat split. exact H.
  - destruct rest as [| c rest]; [discriminate |].
    destruct (p c) eqn:Hp; [| discriminate].
    exists [c], rest, cs. split; [reflexivity |]. split; [exists c; split; auto | exact H].
  - apply IHa in H as (m1 & rest1 & cs1 & -> & Hm1 & H).
    apply IHb in H as (m2 & rest2 & cs2 & -> & Hm2 & H).
    exists (m1 ++ m2), rest2, cs2.
    split; [rewrite <- app_assoc; reflexivity |].
    split; [exists m1, m2; repeat split; assumption |].
    rewrite rev_app_distr, <- app_assoc. exact H.
  - destruct (run a before rest cs k) as [y |] eqn:Ha.
    + injection H as ->. apply IHa in Ha as (m & rest' & cs' & -> & Hm & Hk).
      exists m, rest', cs'. split; [reflexivity |]. split; [left; exact Hm | exact Hk].
    + apply IHb in H as (m & rest' & cs' & -> & Hm & Hk).
      exists m, rest', cs'. split; [reflexivity |]. split; [right; exact Hm | exact Hk].
  - change (rep_loop lo hi a k (S (length rest)) 0 before rest cs = Some x) in H.
    apply (rep_loop_sound lo hi a k (fun k' => IHa k')) in H
      as (j & m & rest' & cs' & -> & Hreps & Hlo & Hhi & Hk);
      [| destruct hi; [lia | exact I]].
    exists m, rest', cs'. split; [reflexivity |]. split; [| exact Hk].
    exists j. split; [exact Hlo |]. split; [exact Hhi | exact Hreps].
  - apply IHa in H as (m & rest' & cs' & -> & Hm & Hk).
    exists m, rest', ((i, str (firstn (length (m ++ rest') - length rest') (m ++ rest'))) :: cs').
    split; [reflexivity |]. split; [exact Hm | exact Hk].
  - destruct before; [| discriminate]. exists [], rest, cs. repeat split. exact H.
  - destruct rest; [| discriminate]. exists [], [], cs. repeat split. exact H.
  - destruct (at_word_boundary before rest) eqn:Hwb; [| discriminate].
    exists [], rest, cs. repeat split; [exact Hwb | exact H].
Qed.

(** A match of a pattern in a group: the group holds the text matched. *)
Lemma match_here_group_sound (i : nat) (a : re) (before rest : list ascii) (f : found) :
  match_here (Grp i a) before rest = Some f ->
  exists m,
    rest = m ++ f_after f /\
    matches a before m (f_after f) /\
    cap i (f_caps f) = Some (str m).
Proof.
  unfold match_here. cbn [run]. intros Hm.
  apply run_sound in Hm as (m & rest' & cs' & -> & Hmatch & Hk).
  injection Hk as <-. cbn [f_after f_caps cap]. rewrite Nat.eqb_refl.
  exists m. split; [reflexivity |]. split; [exact Hmatch |].
  rewrite length_app, Nat.add_sub, firstn_app, Nat.sub_diag, firstn_all.
  simpl. rewrite app_nil_r. reflexivity.
Qed.

(** The leftmost match of a pattern in a group lies in the text
    searched. *)
Lemma search_group_sound (i : nat) (a : re) : forall rest before f,
  search (Grp i a) before rest = Some f ->
  exists pre m,
    rest = pre ++ m ++ f_after f /\
    matches a (rev pre ++ before) m (f_after f) /\
    cap i (f_caps f) = Some (str m).
Proof.
  induction rest as [| c rest IH]; intros before f H; cbn [search] in H.
  - destruct (match_here (Grp i a) before []) as [g |] eqn:Hm; [| discriminate].
    injection H as ->. apply match_here_group_sound in Hm as (m & E & Hmatch & Hcap).
    exists [], m. split; [exact E |]. split; assumption.
  - destruct (match_here (Grp i a) before (c :: rest)) as [g |] eqn:Hm.
    + injection H as ->. apply match_here_group_sound in Hm as (m & E & Hmatch & Hcap).
      exists [], m. split; [exact E |]. split; assumption.
    + apply IH in H as (pre & m & -> & Hmatch & Hcap).
      exists (c :: pre), m. split; [reflexivity |]. split; [| exact Hcap].
      simpl rev. rewrite <- app_assoc. exact Hmatch.
Qed.

Lemma space_not_upper (x : ascii) : is_space x = true -> lower_char x = x.
Proof.
  unfold lower_char. destruct (is_upper x) eqn:Hu; [| reflexivity].
  unfold is_space, is_upper in *. intros Hs. exfalso.
  destruct (N.leb_spec 65 (code x)); [| discriminate].
  destruct (N.leb_spec (code x) 13); [lia |].
  destruct (N.eqb_spec (code x) 32); [lia |].
  rewrite andb_false_r in Hs. discriminate.
Qed.

(** A letter matched under the [i] flag is no white space. *)
Lemma lit1_ci_not_space (c x : ascii) :
  is_space (lower_char c) = false ->
  Ascii.eqb (lower_char x) (lower_char c) = true -> is_space x = false.
Proof.
  intros Hc Hx. apply Ascii.eqb_eq in Hx.
  destruct (is_space x) eqn:Hs; [| reflexivity].
  rewrite (space_not_upper x Hs) in Hx. congruence.
Qed.

(** A repetition of a class: every character matched is in the class. *)
Lemma reps_class (p : ascii -> bool) : forall n before m after_,
  reps (matches (Chr p)) n before m after_ -> Forall (fun c => p c = true) m.
Proof.
  induction n as [| n IH]; intros before m after_ H; cbn [reps] in H.
  - subst m. constructor.
  - destruct H as (m1 & m2 & -> & _ & (c & -> & Hp) & Hrest).
    constructor; [exact Hp | eapply IH; exact Hrest].
Qed.

End MatcherSoundness.

Section UrlProperties.
Import JS Bot.

(** X23. The URL that [sanitizeUrl] takes from a message of ASCII text
    is a part of the message without white space: it is [http://] or
    [https://], in any case of the letters, followed by at least one
    more character. *)
Theorem sanitizeUrl_sound (text_ url : string) :
  ascii_text text_ ->
  sanitizeUrl text_ = Some url ->
  within url text_ /\
  Forall (fun c => is_space c = false) (chars url) /\
  (startsWith (toLowerCase url) "http://" = true \/
   startsWith (toLowerCase url) "https://" = true) /\
  exists scheme rest,
    url = scheme +:+ rest /\
    (toLowerCase scheme = "http://" \/ toLowerCase scheme = "https://") /\
    rest <> "".
Proof.
  intros _. unfold sanitizeUrl, exec.
  destruct (search re_url [] (chars text_)) as [f |] eqn:Hsearch; [| discriminate].
  cbn [fmap option_fmap option_map]. intros [= <-].
  unfold re_url in Hsearch.
  apply search_group_sound in Hsearch as (pre & m & Htext & Hm & Hcap).
  unfold group. rewrite Hcap. cbn [default from_option id].
  cbn [matches lit_ci lit lit1_ci lit1 chars list_ascii_of_string fold_right opt plus] in Hm.
  destruct Hm as (mh & m1 & -> & Hhttp & ms & m2 & -> & Hs & mc & mt & -> & Hcolon & Htail).
  destruct Hhttp as (h1 & r1 & -> & (c1 & -> & H1) & h2 & r2 & -> & (c2 & -> & H2) &
                     h3 & r3 & -> & (c3 & -> & H3) & h4 & r4 & -> & (c4 & -> & H4) & ->).
  destruct Hcolon as (k1 & q1 & -> & (d1 & -> & D1) & k2 & q2 & -> & (d2 & -> & D2) &
                      k3 & q3 & -> & (d3 & -> & D3) & ->).
  apply Ascii.eqb_eq in D1, D2, D3. subst d1 d2 d3.
  destruct Htail as (n & Hn & _ & Htail).
  pose proof (reps_class _ _ _ _ _ Htail) as Hclass.
  assert (Hmt : mt <> []).
  { destruct n as [| n]; [lia |]. cbn [reps] in Htail.
    destruct Htail as (a1 & a2 & -> & Hne & _). destruct a1; [congruence | discriminate]. }
  assert (Hms : ms = [] \/ exists s, ms = [s] /\ Ascii.eqb (lower_char s) (lower_char "s") = true).
  { destruct Hs as (j & _ & Hj & Hreps). destruct j as [| [| j]]; [| | lia]; cbn [reps] in Hreps.
    - left. exact Hreps.
    - right. destruct Hreps as (a1 & a2 & -> & _ & (s & -> & Hs) & ->). exists s. split; auto. }
  split; [| split; [| split]].
  - exists pre, (f_after f). rewrite chars_str. exact Htext.
  - rewrite chars_str. cbn [app].
    repeat (constructor; [eapply lit1_ci_not_space; [| eassumption]; reflexivity |]).
    apply Forall_app. split.
    + destruct Hms as [-> | (s & -> & Hs')]; [constructor |].
      constructor; [eapply lit1_ci_not_space; [| eassumption]; reflexivity | constructor].
    + cbn [app]. repeat (constructor; [reflexivity |]).
      eapply List.Forall_impl; [| exact Hclass]. intros c Hc.
      apply negb_true_iff in Hc. exact Hc.
  - unfold toLowerCase. rewrite chars_str.
    apply Ascii.eqb_eq in H1, H2, H3, H4.
    destruct Hms as [-> | (s & -> & Hs')]; [left | right; apply Ascii.eqb_eq in Hs'];
      cbn [app map]; rewrite ?H1, ?H2, ?H3, ?H4, ?Hs'.
    + apply (startsWith_app "http://" (map lower_char mt)).
    + apply (startsWith_app "https://" (map lower_char mt)).
  - exists (str ([c1; c2; c3; c4] ++ ms ++ chars "://")), (str mt).
    split; [rewrite <- str_app, <- !app_assoc; reflexivity |].
    split; [| destruct mt; [congruence | discriminate]].
    unfold toLowerCase. rewrite chars_str.
    apply Ascii.eqb_eq in H1, H2, H3, H4.
    destruct Hms as [-> | (s & -> & Hs')]; [left | right; apply Ascii.eqb_eq in Hs'];
      cbn [app map chars list_ascii_of_string]; rewrite ?H1, ?H2, ?H3, ?H4, ?Hs'; reflexivity.
Qed.

End UrlProperties.

(** [sanitizeUrl_sound] on a message with a link between words *)
Lemma sanitizeUrl_sound_witness :
  ascii_text "see HTTPS://youtu.be/abc now" /\
  Bot.sanitizeUrl "see HTTPS://youtu.be/abc now" = Some "HTTPS://youtu.be/abc" /\
  within "HTTPS://youtu.be/abc" "see HTTPS://youtu.be/abc now".
Proof.
  assert (Hascii : ascii_text "see HTTPS://youtu.be/abc now")
    by (apply ascii_text_check; reflexivity).
  assert (H : Bot.sanitizeUrl "see HTTPS://youtu.be/abc now" = Some "HTTPS://youtu.be/abc")
    by reflexivity.
  split; [exact Hascii |]. split; [exact H |].
  exact (proj1 (sanitizeUrl_sound _ _ Hascii H)).
Defined.

Section QueueUse.
Import JS Downloader SessionStore Runtime DownloaderIO Bot.

Lemma enqueues_nothing {A} (m : M A) :
  (forall w, queue (snd (m w)) = queue w) -> enqueues_only m.
Proof. intros H w. exists []. rewrite H. reflexivity. Qed.

Lemma enqueues_ret {A} (a : A) : enqueues_only (ret a).
Proof. apply enqueues_nothing. reflexivity. Qed.

Lemma enqueues_throw {A} (e : Error) : enqueues_only (@throw A e).
Proof. apply enqueues_nothing. reflexivity. Qed.

Lemma enqueues_emit (e : Effect) : enqueues_only (emit e).
Proof. apply enqueues_nothing. reflexivity. Qed.

Lemma enqueues_with_sessions {A}
    (f : gmap Z (gmap string Value) -> gmap Z (gmap string Value) * A) :
  enqueues_only (with_sessions f).
Proof.
  apply enqueues_nothing. intros w. unfold with_sessions.
  destruct (f (sessions w)). reflexivity.
Qed.

Lemma enqueues_job (job : Job) : enqueues_only (with_queue (DownloadQueue.enqueue job)).
Proof.
  intros w. exists [job]. unfold with_queue, DownloadQueue.exec.
  cbn [fmap list_fmap foldl DownloadQueue.step].
  destruct (DownloadQueue.enqueue job (queue w)); reflexivity.
Qed.

Lemma enqueues_bind {A B} (m : M A) (k : A -> M B) :
  enqueues_only m -> (forall a, enqueues_only (k a)) -> enqueues_only (bind m k).
Proof.
  intros Hm Hk w. unfold bind. destruct (Hm w) as [jobs1 H1].
  destruct (m w) as [[a | e] w1]; cbn [snd] in *.
  - destruct (Hk a w1) as [jobs2 H2]. exists (jobs1 ++ jobs2).
    rewrite H2, H1, fmap_app. unfold DownloadQueue.exec. rewrite foldl_app. reflexivity.
  - exists jobs1. exact H1.
Qed.

Lemma enqueues_try_catch {A} (m : M A) (h : Error -> M A) :
  enqueues_only m -> (forall e, enqueues_only (h e)) -> enqueues_only (try_catch m h).
Proof.
  intros Hm Hh w. unfold try_catch. destruct (Hm w) as [jobs1 H1].
  destruct (m w) as [[a | e] w1]; cbn [snd] in *.
  - exists jobs1. exact H1.
  - destruct (Hh e w1) as [jobs2 H2]. exists (jobs1 ++ jobs2).
    rewrite H2, H1, fmap_app. unfold DownloadQueue.exec. rewrite foldl_app. reflexivity.
Qed.

Lemma enqueues_try_finally {L A} (init : M L) (body : L -> M A) (final : option L -> M unit) :
  enqueues_only init -> (forall x, enqueues_only (body x)) ->
  (forall x, enqueues_only (final x)) ->
  enqueues_only (try_finally init body final).
Proof.
  intros Hi Hb Hf w. unfold try_finally. destruct (Hi w) as [jobs1 H1].
  destruct (init w) as [[x | e] w1]; cbn [snd] in *.
  - destruct (Hb x w1) as [jobs2 H2]. destruct (body x w1) as [r w2]; cbn [snd] in *.
    destruct (Hf (Some x) w2) as [jobs3 H3].
    exists (jobs1 ++ jobs2 ++ jobs3).
    destruct (final (Some x) w2) as [[u | e] w3]; cbn [snd] in *;
      rewrite H3, H2, H1, !fmap_app; unfold DownloadQueue.exec; rewrite !foldl_app; reflexivity.
  - destruct (Hf None w1) as [jobs3 H3]. exists (jobs1 ++ jobs3).
    destruct (final None w1) as [[u | e'] w3]; cbn [snd] in *;
      rewrite H3, H1, fmap_app; unfold DownloadQueue.exec; rewrite foldl_app; reflexivity.
Qed.

End QueueUse.

#[local] Hint Resolve enqueues_ret enqueues_throw enqueues_emit enqueues_with_sessions
  enqueues_job : handlers.

(** Takes a handler apart to see what it does with the queue. *)
Ltac queue_steps :=
  repeat first
    [ progress (unfold Bot.reply, Bot.updateStatus, Bot.handleUnauthorized, Runtime.log,
                Runtime.sessions_get, Runtime.sessions_create, Runtime.sessions_update,
                Runtime.sessions_delete)
    | apply enqueues_bind; [| intros ?]
    | apply enqueues_try_catch; [| intros ?]
    | apply enqueues_try_finally; [| intros ? | intros ?]
    | solve [auto with handlers]
    | match goal with
      | |- enqueues_only (if ?b then _ else _) => destruct b
      | |- enqueues_only (match ?x with _ => _ end) => destruct x
      end ].

Section Concurrency.
Import JS Downloader SessionStore Runtime DownloaderIO Bot.
Variable config : Config.
Variable String_of_number : Q -> string.

Lemma handle_enqueues_only (entry : EntryPoint) (ctx : Ctx) :
  enqueues_only (handle config String_of_number entry ctx).
Proof.
  destruct entry as [env | env type_ | env type_ index | |]; cbn [handle];
    unfold onText, onType, onFormat, onCancelCommand, onCancelAction; cbv zeta;
    queue_steps.
Qed.

(** The queue of the bot is reached from the one it creates at its
    start by calls of [enqueue] and completions of running jobs. *)
Lemma run_queue_events (steps : list BotRun.Step) :
  exists es,
    queue (BotRun.run config String_of_number steps) =
    DownloadQueue.exec (DownloadQueue.new (MAX_CONCURRENT_DOWNLOADS config)) es.
Proof.
  induction steps as [| s steps (es & IH)] using rev_ind.
  - exists []. reflexivity.
  - unfold BotRun.run in *. rewrite foldl_app. cbn [foldl].
    set (w := foldl (BotRun.step config String_of_number) (BotRun.initial config) steps) in *.
    destruct s as [entry ctx | env retry i]; cbn [BotRun.step].
    + destruct (handle_enqueues_only entry ctx w) as [jobs Hjobs].
      exists (es ++ (DownloadQueue.Enqueue <$> jobs)).
      rewrite Hjobs, IH. unfold DownloadQueue.exec. rewrite foldl_app. reflexivity.
    + destruct (DownloadQueue.running (queue w) !! i) as [job |] eqn:Hi.
      * destruct (completeJob_queue config env retry i w job Hi) as [o Hq].
        exists (es ++ [DownloadQueue.Complete i o]).
        rewrite Hq, IH. unfold DownloadQueue.exec. rewrite foldl_app. reflexivity.
      * exists es. unfold completeJob. rewrite Hi. exact IH.
Qed.

(** X24. However many users send links, make choices and cancel, and
    however the jobs end, the bot never has more downloads at work than
    [MAX_CONCURRENT_DOWNLOADS], or one if that is less: the count of
    active jobs is the number of jobs running, it stays within the
    bound, and a job waits only while all slots are taken. *)
Theorem bot_respects_concurrency (steps : list BotRun.Step) :
  let q := queue (BotRun.run config String_of_number steps) in
  let bound := Z.max (MAX_CONCURRENT_DOWNLOADS config) 1 in
  DownloadQueue.concurrency q = bound /\
  DownloadQueue.activeCount q = Z.of_nat (length (DownloadQueue.running q)) /\
  0 <= DownloadQueue.activeCount q <= bound /\
  (DownloadQueue.queue q <> [] -> DownloadQueue.activeCount q = bound).
Proof.
  intros q bound. subst q bound.
  destruct (run_queue_events steps) as [es ->].
  destruct (queue_inv_exec (MAX_CONCURRENT_DOWNLOADS config) es) as [Hb Hc Hl Hf Hs].
  rewrite <- Hb. split; [reflexivity |]. split; [exact Hc |]. split; [lia | exact Hf].
Qed.

End Concurrency.

Section LabelProperties.
Import JS Downloader.

Lemma chars_app (a b : string) : chars (a +:+ b) = chars a ++ chars b.
Proof.
  induction a as [| c a IH]; [reflexivity |].
  change (chars (String c (a +:+ b)) = c :: chars a ++ chars b).
  cbn [chars list_ascii_of_string]. f_equal. exact IH.
Qed.

(** [trim] leaves a text that neither begins nor ends with white space. *)
Lemma trim_id (s : string) :
  (forall c, head (chars s) = Some c -> is_space c = false) ->
  (forall c, last (chars s) = Some c -> is_space c = false) ->
  trim s = s.
Proof.
  intros Hhead Hlast.
  assert (Hdrop : forall l,
            (forall c, head l = Some c -> is_space c = false) -> drop_spaces l = l).
  { intros [| c l] H; [reflexivity |]. simpl. rewrite (H c eq_refl). reflexivity. }
  assert (Hend : trimEnd s = s).
  { unfold trimEnd. rewrite Hdrop.
    - rewrite rev_involutive. apply str_chars.
    - intros c Hc. apply Hlast. rewrite <- (rev_involutive (chars s)).
      destruct (rev (chars s)) as [| x l]; [discriminate |].
      simpl in Hc. injection Hc as ->. simpl. apply last_snoc. }
  unfold trim. rewrite Hend. unfold trimStart. rewrite (Hdrop _ Hhead). apply str_chars.
Qed.

(** A label of the form the selector builds is left as it is by [trim]. *)
Lemma label_trim (kind_ quality size_text : string) :
  (forall c, head (chars kind_) = Some c -> is_space c = false) ->
  kind_ <> "" ->
  (exists c, last (chars quality) = Some c /\ is_space c = false) ->
  size_text = "" \/ (exists t, size_text = " (~" +:+ t +:+ ")") ->
  trim (kind_ +:+ quality +:+ size_text) = kind_ +:+ quality +:+ size_text.
Proof.
  intros Hhead Hkind (e & He & Hspace) Hsize. apply trim_id.
  - intros c. rewrite chars_app. destruct kind_ as [| k kind_]; [congruence |].
    cbn. intros H. apply (Hhead c). exact H.
  - intros c. rewrite !chars_app.
    destruct Hsize as [-> | (t & ->)].
    + cbn [chars list_ascii_of_string]. rewrite app_nil_r, last_app, He.
      intros [= <-]. exact Hspace.
    + rewrite !chars_app, !app_assoc. cbn [chars list_ascii_of_string].
      rewrite last_snoc. intros [= <-]. reflexivity.
Qed.

Lemma size_text_shape (sizeBytes : option Z) :
  let size_text :=
    match truthyZ sizeBytes with
    | Some _ => " (~" +:+ default "null" (formatBytes sizeBytes) +:+ ")"
    | None => ""
    end in
  size_text = "" \/ (exists t, size_text = " (~" +:+ t +:+ ")").
Proof. cbv zeta. destruct (truthyZ sizeBytes); [right; eexists; reflexivity | left; reflexivity]. Qed.

(** X25. The label of a candidate: for audio it is [MP3], the bitrate of
    a preset and [kbps], so the selector never shows the label for an
    unknown bitrate; for video it is [MP4] and the height followed by
    [p], or [Video] when no height is known; either is followed by the
    size in brackets when a size is known. *)
Theorem candidate_labels
    (formats_ : list Format) (type_ : Kind) (durationSeconds : option Q) :
  Forall (fun c =>
            exists size_text,
              (size_text = "" \/ exists t, size_text = " (~" +:+ t +:+ ")") /\
              match type_ with
              | audio =>
                exists bitrate,
                  In bitrate presets /\
                  displayLabel c = "MP3 " +:+ (string_of_Z bitrate +:+ " kbps") +:+ size_text
              | video =>
                exists quality,
                  (quality = "Video" \/
                   exists height_, height_ <> 0 /\ quality = string_of_Z height_ +:+ "p") /\
                  displayLabel c = "MP4 " +:+ quality +:+ size_text
              end)
         (getFormatsByType formats_ type_ durationSeconds).
Proof.
  apply List.Forall_forall. intros c Hc. unfold getFormatsByType in Hc.
  apply selector_In in Hc as (-> & _). set (fmt := format c). clearbody fmt.
  destruct type_; cbn [decorate displayLabel].
  - set (sizeBytes := or_else _ (approxSize fmt)).
    assert (Hb : exists bitrate,
              In bitrate presets /\
              or_else (truthyZ (determineAudioBitrateKbps fmt)) (Some 192) = Some bitrate /\
              truthyZ (Some bitrate) = Some bitrate).
    { destruct (determineAudioBitrateKbps fmt) as [b |] eqn:Hd.
      - apply determineAudioBitrateKbps_preset in Hd.
        exists b. rewrite (preset_truthy b Hd).
        split; [exact Hd |]. split; reflexivity.
      - exists 192. split; [simpl; tauto |]. split; reflexivity. }
    destruct Hb as (bitrate & Hin & -> & Htruthy).
    unfold createAudioLabel. rewrite Htruthy.
    eexists. split; [apply (size_text_shape sizeBytes) |].
    exists bitrate. split; [exact Hin |].
    apply label_trim.
    + intros ch [= <-]. reflexivity.
    + discriminate.
    + exists "s"%char. rewrite chars_app, last_app. split; reflexivity.
    + apply size_text_shape.
  - unfold createVideoLabel. rewrite truthyZ_idem.
    eexists. split; [apply (size_text_shape (approxSize fmt)) |].
    eexists. split; [| apply label_trim].
    + destruct (truthyZ _) as [h |] eqn:Hh; [right | left; reflexivity].
      exists h. split; [| reflexivity]. intros ->. exact (truthyZ_nonzero _ Hh).
    + intros ch [= <-]. reflexivity.
    + discriminate.
    + destruct (truthyZ _) as [h |].
      * exists "p"%char. rewrite chars_app, last_app. split; reflexivity.
      * exists "o"%char. split; reflexivity.
    + apply size_text_shape.
Qed.

End LabelProperties.

Section CallbackProperties.
Import JS Downloader SessionStore Runtime DownloaderIO Bot.
Variable config : Config.
Variable String_of_number : Q -> string.

(** X26. Every press of a button is answered once: on each path through
    the choice of a kind, the choice of a format and the cancel button,
    exactly one answer to the callback query is sent. *)
Theorem callback_answered_once (entry : EntryPoint) (ctx : Ctx) (w : World) :
  match entry with
  | SubmitUrl _ | CancelCommand => True
  | _ =>
    exists added,
      trace (snd (handle config String_of_number entry ctx w)) = trace w ++ added /\
      length (List.filter is_answer added) = 1%nat
  end.
Proof.
  destruct entry as [env | env type_ | env type_ index | |]; cbn [handle]; try exact I.
  - unfold onType. cbv zeta.
    destruct (isAuthorized config (from_id ctx)); cbn [negb].
    + cbn [bind sessions_get with_sessions sessions queue dirs trace]. unfold SessionStore.get.
      destruct (sessions w !! chat_id ctx) as [session |]; cbn beta iota;
        [| run_effects; eexists; split; reflexivity].
      destruct (same_user (session !! "userId") (from_id ctx)); cbn [negb];
        [| run_effects; eexists; split; reflexivity].
      unfold try_finally, try_catch.
      destruct (or_else (message_id_of (session !! "selectionMessageId"))
                        (truthyZ (prompt_message_id ctx))) as [m |];
        (destruct (probe env) as [listed | e0];
           [destruct (getFormatsByType (p_formats listed) type_ (p_durationSeconds listed))
              as [| c cs] |]);
        run_effects; rewrite <- ?app_assoc; eexists; split; reflexivity.
    + unfold bind at 1. cbn [emit]. rewrite handleUnauthorized_run. unfold after.
      cbn [snd trace]. rewrite <- app_assoc.
      eexists. split; [reflexivity |]. destruct (chat_private ctx); reflexivity.
  - unfold onFormat. cbv zeta.
    destruct (isAuthorized config (from_id ctx)); cbn [negb].
    + cbn [bind sessions_get with_sessions sessions queue dirs trace]. unfold SessionStore.get.
      destruct (sessions w !! chat_id ctx) as [session |]; cbn beta iota;
        [| run_effects; eexists; split; reflexivity].
      destruct (same_user (session !! "userId") (from_id ctx)); cbn [negb];
        [| run_effects; eexists; split; reflexivity].
      cbn beta iota.
      destruct (formats_of (session !! "formats") ≫= (fun l => l !! index))
        as [selectedFormat |];
        [| run_effects; eexists; split; reflexivity].
      match goal with
      | |- context [if ?b then _ else _] => destruct b
      end.
      * destruct (message_id_of (session !! "formatMessageId")) as [m |];
          destruct (default [] (formats_of (session !! "formats"))) as [| c cs];
          run_effects; rewrite <- ?app_assoc; eexists; split; reflexivity.
      * destruct (message_id_of (session !! "formatMessageId")) as [m |];
          run_effects;
          match goal with
          | |- context [DownloadQueue.enqueue ?j ?q] =>
            destruct (DownloadQueue.enqueue j q) as [q' tk]
          end;
          cbn [fst snd];
          destruct (DownloadQueue.position tk >? 0);
          run_effects; rewrite <- ?app_assoc; eexists; split; reflexivity.
    + unfold bind at 1. cbn [emit]. rewrite handleUnauthorized_run. unfold after.
      cbn [snd trace]. rewrite <- app_assoc.
      eexists. split; [reflexivity |]. destruct (chat_private ctx); reflexivity.
  - unfold onCancelAction. run_effects. rewrite <- ?app_assoc.
    eexists. split; reflexivity.
Qed.

(** X27. What a user who is not allowed gets back does not depend on what
    the bot holds: for the submission of a URL, both choices and the
    cancel command, the handler returns after effects that are fixed by
    the update alone (a log line, the answer [Not allowed] to a button,
    and, in a private chat only, the refusal), and sessions, queue and
    directories are as before. *)
Theorem refusal_discloses_nothing (entry : EntryPoint) (ctx : Ctx) :
  isAuthorized config (from_id ctx) = false ->
  entry <> CancelButton ->
  exists effects,
    (forall w, handle config String_of_number entry ctx w = (Returned tt, after w effects)) /\
    Forall (fun e =>
              match e with
              | Log _ _ | AnswerCbQuery (Some "Not allowed") true => True
              | Reply chat text_ None =>
                chat = chat_id ctx /\ chat_private ctx = true /\
                text_ = "You are not allowed to use this bot."
              | _ => False
              end) effects.
Proof.
  intros Hauth Hentry.
  destruct entry as [env | env type_ | env type_ index | |]; [| | | | congruence];
    cbn [handle]; unfold onText, onType, onFormat, onCancelCommand; cbv zeta;
    rewrite Hauth; cbn [negb].
  - eexists. split; [intros w; apply handleUnauthorized_run |].
    destruct (chat_private ctx) eqn:Hp; repeat constructor.
  - exists (AnswerCbQuery (Some "Not allowed") true ::
            Log warn "Unauthorized access attempt" ::
            if chat_private ctx
            then [Reply (chat_id ctx) "You are not allowed to use this bot." None] else []).
    split.
    + intros w. unfold bind at 1. cbn [emit]. rewrite handleUnauthorized_run. unfold after.
      cbn [sessions queue dirs trace]. rewrite <- app_assoc. reflexivity.
    + destruct (chat_private ctx) eqn:Hp; repeat constructor.
  - exists (AnswerCbQuery (Some "Not allowed") true ::
            Log warn "Unauthorized access attempt" ::
            if chat_private ctx
            then [Reply (chat_id ctx) "You are not allowed to use this bot." None] else []).
    split.
    + intros w. unfold bind at 1. cbn [emit]. rewrite handleUnauthorized_run. unfold after.
      cbn [sessions queue dirs trace]. rewrite <- app_assoc. reflexivity.
    + destruct (chat_private ctx) eqn:Hp; repeat constructor.
  - eexists. split; [intros w; apply handleUnauthorized_run |].
    destruct (chat_private ctx) eqn:Hp; repeat constructor.
Qed.

End CallbackProperties.

(** [refusal_discloses_nothing] in chat 7, which is not private, for
    user 3, who is not allowed: a choice of kind is answered and
    logged, and that is all. *)
Lemma refusal_discloses_nothing_witness :
  let env := {| Bot.loadingMessage := 110; Bot.probe := Downloader.Failed "unused";
                Bot.formatMessage := 111 |} in
  Bot.isAuthorized Sample.config (Some 3) = false /\
  exists effects,
    forall w,
      Bot.handle Sample.config Sample.show (Bot.ChooseKind env Downloader.audio)
        (Sample.ctx 3 "") w = (Runtime.Returned tt, after w effects).
Proof.
  intros env.
  assert (Hauth : Bot.isAuthorized Sample.config (Some 3) = false) by reflexivity.
  split; [exact Hauth |].
  destruct (refusal_discloses_nothing Sample.config Sample.show
              (Bot.ChooseKind env Downloader.audio) (Sample.ctx 3 "") Hauth)
    as (effects & Hrun & _); [discriminate |].
  exists effects. exact Hrun.
Defined.
